(** * sqm-calc: square matrices over integer and variable elements

    A shallow embedding of [element.cpp], [squarematrix.hpp] and
    [squarematrix.cpp], followed by the properties of the matrix value
    model, of the text parsers and of the block engine behind
    [operator+=] and [operator-=].

    Conventions of the embedding.
    - [int] is a [Z] kept in the 32-bit two's complement range by
      [wrap_int]; [unsigned int] is an [N], and sums and products of
      unsigned values are reduced modulo [2^32] ([uadd], [umul]).
    - The size of a [std::vector] is taken as it is (a vector in memory
      has fewer than [2^32] entries here); [pow(n, 2.0)] converted to
      [unsigned int] is [n * n], which is what the conversion yields
      whenever the square fits the type.
    - An exception is a value of [exn]; a computation that may throw
      returns a [result].  [Terminate] is [std::terminate], reached when
      an exception leaves a thread of [t_oper].
    - Every cell of a matrix is an object of its own (the constructors
      clone), so a [std::shared_ptr] into a matrix is identified with the
      position of its cell in the row-major unrolling. *)

From Stdlib Require Import ZArith NArith List String Ascii Lia Bool.
From Stdlib Require Import DecimalString DecimalZ DecimalPos.
From stdpp Require Import base option list strings gmap.

Local Open Scope Z_scope.

(** ** Exceptions and results *)

Inductive exn : Type :=
| invalid_argument (what : string)
| out_of_range (what : string)
| domain_error (what : string).

Inductive result (A : Type) : Type :=
| Ok (a : A)
| Throw (e : exn)
| Terminate.

Arguments Ok {A} a.
Arguments Throw {A} e.
Arguments Terminate {A}.

#[global] Instance result_ret : MRet result := λ A a, Ok a.

#[global] Instance result_bind : MBind result := λ A B f r,
  match r with
  | Ok a => f a
  | Throw e => Throw e
  | Terminate => Terminate
  end.

#[global] Instance result_fmap : FMap result := λ A B f r,
  match r with
  | Ok a => Ok (f a)
  | Throw e => Throw e
  | Terminate => Terminate
  end.

Definition is_Ok {A} (r : result A) : bool :=
  match r with Ok _ => true | _ => false end.

Definition is_invalid_argument {A} (r : result A) : bool :=
  match r with Throw (invalid_argument _) => true | _ => false end.

Definition is_out_of_range {A} (r : result A) : bool :=
  match r with Throw (out_of_range _) => true | _ => false end.

Definition is_domain_error {A} (r : result A) : bool :=
  match r with Throw (domain_error _) => true | _ => false end.

(** ** Machine integers *)

Definition INT_MIN : Z := - 2 ^ 31.
Definition INT_MAX : Z := 2 ^ 31 - 1.

Definition in_int (z : Z) : Prop := INT_MIN <= z <= INT_MAX.

Definition wrap_int (z : Z) : Z := (z + 2 ^ 31) mod 2 ^ 32 - 2 ^ 31.

Definition UINT_RANGE : N := 2 ^ 32.

Definition uadd (a b : N) : N := ((a + b) mod UINT_RANGE)%N.
Definition umul (a b : N) : N := ((a * b) mod UINT_RANGE)%N.

(** ** valuation.hpp *)

Abbreviation Valuation := (gmap ascii Z).

(** ** element.hpp, element.cpp *)

(** [std::to_string(int)]: decimal digits, a leading [-] for a negative
    number, no other padding. *)
Definition to_string (t : Z) : string := NilZero.string_of_int (Z.to_int t).

(** [TElement<int>] and [TElement<char>] hold one value [t]. *)
Abbreviation IntElement := Z.
Abbreviation VariableElement := ascii.

(** A pointer to the abstract [Element] points to one of the two. *)
Inductive Element : Type :=
| Int (t : IntElement)
| Var (t : VariableElement).

(** The virtual interface of [Element]. *)
Class ElementOps (T : Type) : Type := {
  toString : T → string;
  evaluate : T → Valuation → result Z;
}.

Definition IntElement_toString (t : IntElement) : string := to_string t.

Definition VariableElement_toString (t : VariableElement) : string :=
  String t EmptyString.

Definition IntElement_evaluate (t : IntElement) (valuation : Valuation)
  : result Z := Ok t.

Definition VariableElement_evaluate (t : VariableElement)
    (valuation : Valuation) : result Z :=
  match valuation !! t with
  | None => Throw (domain_error "Undefined variable.")
  | Some second => Ok second
  end.

#[global] Instance IntElement_ops : ElementOps IntElement :=
  {| toString := IntElement_toString; evaluate := IntElement_evaluate |}.

#[global] Instance VariableElement_ops : ElementOps VariableElement :=
  {| toString := VariableElement_toString;
     evaluate := VariableElement_evaluate |}.

#[global] Instance Element_ops : ElementOps Element :=
  {| toString := λ e, match e with
                      | Int t => IntElement_toString t
                      | Var t => VariableElement_toString t
                      end;
     evaluate := λ e, match e with
                      | Int t => IntElement_evaluate t
                      | Var t => VariableElement_evaluate t
                      end |}.

(** [operator+], [operator-] and [operator*] on [IntElement]. *)
Definition IntElement_add (i1 i2 : IntElement) : IntElement :=
  wrap_int (i1 + i2).
Definition IntElement_sub (i1 i2 : IntElement) : IntElement :=
  wrap_int (i1 - i2).
Definition IntElement_mul (i1 i2 : IntElement) : IntElement :=
  wrap_int (i1 * i2).

(** ** squarematrix.hpp: the matrix value *)

Record ElementarySquareMatrix (T : Type) : Type := Matrix {
  n : N;
  elements : list (list T);
}.

Arguments Matrix {T} n elements.
Arguments n {T} _.
Arguments elements {T} _.

Abbreviation ConcreteSquareMatrix := (ElementarySquareMatrix IntElement).
Abbreviation SymbolicSquareMatrix := (ElementarySquareMatrix Element).

(** The invariant of the class: [n] rows of [n] cells. *)
Definition square {T} (m : ElementarySquareMatrix T) : Prop :=
  N.of_nat (length (elements m)) = n m ∧
  Forall (λ row, N.of_nat (length row) = n m) (elements m).

Definition squareb {T} (m : ElementarySquareMatrix T) : bool :=
  (N.of_nat (length (elements m)) =? n m)%N &&
  forallb (λ row, (N.of_nat (length row) =? n m)%N) (elements m).

(** The cell in row [i], column [j]. *)
Definition cell {T} (m : ElementarySquareMatrix T) (i j : nat) : option T :=
  elements m !! i ≫= λ row, row !! j.

Section matrix.
Context {T : Type} `{!ElementOps T}.

(** [ElementarySquareMatrix()] *)
Definition empty_matrix : ElementarySquareMatrix T := Matrix 0%N [].

(** [ElementarySquareMatrix(unsigned int, vector)] *)
Definition make_matrix (new_n : N) (new_elements : list (list T))
  : result (ElementarySquareMatrix T) :=
  if negb (new_n =? N.of_nat (length new_elements))%N then
    Throw (invalid_argument "Not a squarematrix (invalid n).")
  else if forallb (λ row, (new_n =? N.of_nat (length row))%N) new_elements
  then Ok (Matrix new_n new_elements)
  else Throw (invalid_argument "Not a squarematrix (invalid row).").

(** The copy constructor clones every cell: the copy has the values of
    the original. *)
Definition copy_matrix (m : ElementarySquareMatrix T)
  : ElementarySquareMatrix T :=
  Matrix (n m) (map (λ row, map (λ e, e) row) (elements m)).

(** One pass of the inner loop of [transpose]: [it] walks the rows of
    [temp] while [e] walks [row].  Walking [it] past the last row of
    [temp] is outside the language; it does not happen when [row] has at
    most as many cells as [temp] has rows. *)
Fixpoint push_column (row : list T) (temp : list (list T))
  : list (list T) :=
  match row, temp with
  | e :: row', it :: temp' => (it ++ [e]) :: push_column row' temp'
  | [], _ => temp
  | _ :: _, [] => []
  end.

Definition transpose (m : ElementarySquareMatrix T)
  : ElementarySquareMatrix T :=
  Matrix (n m)
    (fold_left (λ temp row, push_column row temp) (elements m)
       (replicate (N.to_nat (n m)) [])).

(** [toString] *)
Fixpoint row_toString (firstel : bool) (vec : list T) : string :=
  match vec with
  | [] => ""
  | e :: vec' =>
      (if firstel then "" else ",") +:+ toString e +:+
      row_toString false vec'
  end.

Fixpoint rows_toString (rows : list (list T)) : string :=
  match rows with
  | [] => ""
  | vec :: rows' =>
      "[" +:+ row_toString true vec +:+ "]" +:+ rows_toString rows'
  end.

Definition matrix_toString (m : ElementarySquareMatrix T) : string :=
  "[" +:+ rows_toString (elements m) +:+ "]".

(** [block]: the loop [for (i = start; i < start + step; i++)] with the
    checked access [unrolled.at(i)].  The text carried by the
    [std::out_of_range] of [at] is the standard library's own and is not
    the one written here: only the kind of that exception is meant. *)
Fixpoint block_loop (unrolled : list T) (i : N) (count : nat)
  : result (list T) :=
  match count with
  | O => Ok []
  | S count' =>
      match unrolled !! N.to_nat i with
      | None => Throw (out_of_range "vector::_M_range_check")
      | Some e => ret ← block_loop unrolled (i + 1)%N count'; Ok (e :: ret)
      end
  end.

Definition block (m : ElementarySquareMatrix T) (start step : N)
  : result (list T) :=
  let m_size := (n m * n m)%N in
  if (m_size <? start)%N then
    Throw (out_of_range "Start index exceeds elements size.")
  else if (m_size <? step)%N then
    Throw (out_of_range "Step exceeds elements size.")
  else if (step =? 0)%N then Ok []
  else
    let unrolled := concat (elements m) in
    block_loop unrolled start (N.to_nat (uadd start step - start)).

(** [evaluate] of a matrix whose cells are evaluated one by one, row by
    row, the first exception leaving the function. *)
Definition evaluate_cells (m : ElementarySquareMatrix T)
    (val : Valuation) : result (list (list IntElement)) :=
  mapM (λ row, mapM (λ e, evaluate e val) row) (elements m).

End matrix.

Arguments transpose {T} m : simpl never.

(** ** squarematrix.cpp: evaluation and equality *)

(** [SymbolicSquareMatrix::evaluate] *)
Definition Symbolic_evaluate (m : SymbolicSquareMatrix) (val : Valuation)
  : result ConcreteSquareMatrix :=
  temp ← evaluate_cells m val; make_matrix (n m) temp.

(** [ConcreteSquareMatrix::evaluate] *)
Definition Concrete_evaluate (m : ConcreteSquareMatrix) (val : Valuation)
  : result ConcreteSquareMatrix :=
  Ok (copy_matrix m).

(** [std::all_of] over [row] with the second iterator [eit] advancing in
    step.  Reading [eit] past its end is outside the language and does not
    happen between rows of one length. *)
Fixpoint all_of_eq {T} (eq : T → T → bool) (row eit : list T) : bool :=
  match row, eit with
  | [], _ => true
  | ep1 :: row', e2 :: eit' => eq ep1 e2 && all_of_eq eq row' eit'
  | _ :: _, [] => false
  end.

Fixpoint rows_eq {T} (eq : T → T → bool) (rows rowit : list (list T))
  : bool :=
  match rows, rowit with
  | [], _ => true
  | row :: rows', r2 :: rowit' =>
      if all_of_eq eq row r2 then rows_eq eq rows' rowit' else false
  | _ :: _, [] => false
  end.

Definition matrix_eq {T} (eq : T → T → bool)
    (this m : ElementarySquareMatrix T) : bool :=
  if negb (n m =? n this)%N then false
  else rows_eq eq (elements this) (elements m).

(** [ConcreteSquareMatrix::operator==] compares the integers. *)
Definition Concrete_eq (this m : ConcreteSquareMatrix) : bool :=
  matrix_eq Z.eqb this m.

(** [SymbolicSquareMatrix::operator==] compares the renderings. *)
Definition Symbolic_eq (this m : SymbolicSquareMatrix) : bool :=
  matrix_eq (λ ep1 e2, String.eqb (toString ep1) (toString e2)) this m.

(** ** squarematrix.cpp: the arithmetic operators *)

(** [ceil(static_cast<double>(a) / static_cast<double>(b))] converted to
    [unsigned int], for [b] other than 0 ([main] refuses to run with no
    thread).  The quotient of two 32-bit values is far enough from the
    next integer for the rounding of [double] not to reach it. *)
Definition ceil_div (a b : N) : N :=
  (if a mod b =? 0 then a / b else a / b + 1)%N.

(** The cell at position [i] of the row-major unrolling receives [v]:
    the write through the pointer [unrolled.at(i)]. *)
Fixpoint write_flat {T} (rows : list (list T)) (i : nat) (v : T)
  : list (list T) :=
  match rows with
  | [] => []
  | row :: rows' =>
      if (i <? length row)%nat then <[i := v]> row :: rows'
      else row :: write_flat rows' (i - length row) v
  end.

(** The write-back loop of one thread: [results] go to the cells its
    [block_lhs] points to, the positions from [i] on. *)
Fixpoint write_back {T} (rows : list (list T)) (i : nat) (results : list T)
  : list (list T) :=
  match results with
  | [] => rows
  | res :: results' => write_back (write_flat rows i res) (S i) results'
  end.

Section t_oper.
(** [n_threads], the value of [std::thread::hardware_concurrency()]. *)
Variable n_threads : N.

Definition t_blocksz (m_size : N) : N := ceil_div m_size n_threads.

(** [ceil(m_size / blocksz)]: the division is the one of
    [unsigned int], so that [ceil] receives a whole number. *)
Definition t_blockct (m_size : N) : N :=
  let blocksz := t_blocksz m_size in
  (if blocksz =? 0 then 0 else m_size / blocksz)%N.

(** What the thread with turn [myturn] computes before the barrier. *)
Definition t_compute (this rhs : ConcreteSquareMatrix) (blocksz : N)
    (func : IntElement → IntElement → IntElement) (myturn : N)
  : result (list IntElement) :=
  block_lhs ← block this (umul blocksz myturn) blocksz;
  block_rhs ← block rhs (umul blocksz myturn) blocksz;
  Ok (zip_with func block_lhs block_rhs).

(** What it writes after the barrier, when every thread has computed
    its results from the matrices as they were at the call. *)
Definition t_write (blocksz : N) (rows : list (list IntElement))
    (job : N * list IntElement) : list (list IntElement) :=
  write_back rows (N.to_nat (umul blocksz job.1)) job.2.

(** The turns [0 .. blockct - 1] handed out by [turn++]. *)
Definition t_turns (blockct : N) : list N :=
  map N.of_nat (seq 0 (N.to_nat blockct)).

(** [t_oper].  The turns are distinct and the blocks disjoint, so the
    schedule does not show in the matrix after the joins; the threads
    are run here in the order of their turns.  An exception of [block]
    leaves the thread and ends the process. *)
Definition t_oper (this rhs : ConcreteSquareMatrix)
    (func : IntElement → IntElement → IntElement)
  : result ConcreteSquareMatrix :=
  let m_size := (n this * n this)%N in
  let blocksz := t_blocksz m_size in
  let blockct := t_blockct m_size in
  let turns := t_turns blockct in
  match mapM (t_compute this rhs blocksz func) turns with
  | Ok results =>
      Ok (Matrix (n this)
            (fold_left (t_write blocksz) (zip turns results)
               (elements this)))
  | _ => Terminate
  end.

(** A compound assignment returns how it ended and the left-hand
    matrix as it is then. *)
Definition Concrete_assign (this m : ConcreteSquareMatrix)
    (func : IntElement → IntElement → IntElement)
  : result () * ConcreteSquareMatrix :=
  if negb (n this =? n m)%N then
    (Throw (invalid_argument "Dimension mismatch."), this)
  else
    match t_oper this m func with
    | Ok this' => (Ok (), this')
    | Throw e => (Throw e, this)
    | Terminate => (Terminate, this)
    end.

(** [operator+=] and [operator-=] *)
Definition Concrete_add_assign (this m : ConcreteSquareMatrix) :=
  Concrete_assign this m IntElement_add.

Definition Concrete_sub_assign (this m : ConcreteSquareMatrix) :=
  Concrete_assign this m IntElement_sub.
End t_oper.

(** [std::transform] of [row] and [col] into [iev], which was created
    with [n] zeros. *)
Fixpoint transform (row col iev : list IntElement) : list IntElement :=
  match row, col, iev with
  | ep1 :: row', ep2 :: col', _ :: iev' =>
      IntElement_mul ep1 ep2 :: transform row' col' iev'
  | _, _, _ => iev
  end.

(** One cell of the product: [sum] starts at 0 and takes every entry of
    [iev]. *)
Definition dot (n : N) (row col : list IntElement) : IntElement :=
  let iev := transform row col (replicate (N.to_nat n) 0) in
  fold_left (λ sum e, wrap_int (sum + e)) iev 0.

(** [operator*=] *)
Definition Concrete_mul_assign (this m : ConcreteSquareMatrix)
  : result () * ConcreteSquareMatrix :=
  if negb (n this =? n m)%N then
    (Throw (invalid_argument "Dimension mismatch"), this)
  else
    let tm := transpose m in
    let prodv :=
      map (λ row, map (λ col, dot (n this) row col) (elements tm))
        (elements this) in
    (Ok (), Matrix (n this) prodv).

(** [operator/=] *)
Definition Concrete_div_assign (this m : ConcreteSquareMatrix)
  : result () * ConcreteSquareMatrix :=
  Concrete_mul_assign this (transpose m).

(** The four binary operators copy [m1] and apply the compound
    assignment to the copy. *)
Definition binary
    (op_assign : ConcreteSquareMatrix → ConcreteSquareMatrix →
                 result () * ConcreteSquareMatrix)
    (m1 m2 : ConcreteSquareMatrix) : result ConcreteSquareMatrix :=
  let ret := copy_matrix m1 in
  match op_assign ret m2 with
  | (Ok _, ret') => Ok ret'
  | (Throw e, _) => Throw e
  | (Terminate, _) => Terminate
  end.

Definition Concrete_add (n_threads : N) := binary (Concrete_add_assign n_threads).
Definition Concrete_sub (n_threads : N) := binary (Concrete_sub_assign n_threads).
Definition Concrete_mul := binary Concrete_mul_assign.
Definition Concrete_div := binary Concrete_div_assign.


(** ** std::stringstream, as the parsers use it *)

(** The characters not yet read, and whether [good()] holds: no
    extraction has failed or met the end of the text since the last
    [clear()]. *)
Record sstream : Type := Stream {
  rest : list ascii;
  good : bool;
}.

Definition char_in (lo hi : N) (c : ascii) : bool :=
  ((lo <=? N_of_ascii c) && (N_of_ascii c <=? hi))%N.

(** [isspace], [isdigit] and [isalpha] of the "C" locale. *)
Definition isspace (c : ascii) : bool :=
  char_in 9 13 c || (N_of_ascii c =? 32)%N.
Definition isdigit (c : ascii) : bool := char_in 48 57 c.
Definition isalpha (c : ascii) : bool := char_in 65 90 c || char_in 97 122 c.

Definition digit_value (c : ascii) : Z := Z.of_N (N_of_ascii c) - 48.

(** [std::skipws] *)
Fixpoint skipws (buf : list ascii) : list ascii :=
  match buf with
  | c :: buf' => if isspace c then skipws buf' else buf
  | [] => []
  end.

(** [ss >> std::skipws >> c]: on a stream that is not good, or with only
    white space left, the extraction fails and [c] keeps its value. *)
Definition get_char (ss : sstream) (c : ascii) : sstream * ascii :=
  if good ss then
    match skipws (rest ss) with
    | [] => (Stream [] false, c)
    | x :: buf => (Stream buf true, x)
    end
  else (ss, c).

(** The digits at the head of [buf], accumulated as [num_get] does,
    and what follows them. *)
Fixpoint get_digits (buf : list ascii) (acc : Z) (found : bool)
  : Z * bool * list ascii :=
  match buf with
  | c :: buf' =>
      if isdigit c then get_digits buf' (10 * acc + digit_value c) true
      else (acc, found, buf)
  | [] => (acc, found, [])
  end.

(** [ss >> std::skipws >> a]: an optional sign, then digits up to the
    first other character.  Without a digit the extraction fails and
    stores 0; a value outside [int] fails and stores the nearest bound;
    reaching the end of the text while reading sets [eofbit], after which
    the stream is not good although [a] holds the number. *)
Definition get_int (ss : sstream) (a : Z) : sstream * Z :=
  if good ss then
    match skipws (rest ss) with
    | [] => (Stream [] false, a)
    | c :: buf =>
        let '(negative, buf1) :=
          if Ascii.eqb c "-" then (true, buf)
          else if Ascii.eqb c "+" then (false, buf)
          else (false, c :: buf) in
        let '(v, found, buf2) := get_digits buf1 0 false in
        if negb found then (Stream buf2 false, 0)
        else
          let l := if negative : bool then - v else v in
          if l <? INT_MIN then (Stream buf2 false, INT_MIN)
          else if INT_MAX <? l then (Stream buf2 false, INT_MAX)
          else (Stream buf2 (negb (bool_decide (buf2 = []))), l)
    end
  else (ss, a).

(** [ss.clear()] *)
Definition clear (ss : sstream) : sstream := Stream (rest ss) true.

(** ** squarematrix.cpp: the constructors from text *)

(** The local variables of a constructor from text, with the members
    [n] and [elements] of the matrix under construction. *)
Record locals (T : Type) : Type := Locals {
  l_ss : sstream;
  l_c : ascii;
  l_a : Z;
  l_looped : bool;
  l_n : N;
  l_elements : list (list T);
}.

Arguments Locals {T}.
Arguments l_ss {T}.
Arguments l_c {T}.
Arguments l_a {T}.
Arguments l_looped {T}.
Arguments l_n {T}.
Arguments l_elements {T}.

Definition parse_error {A} (what : string) : option (result A) :=
  Some (Throw (invalid_argument what)).

(** The [do ... while (c == ',')] loop of the integer parser.  [fuel]
    bounds the number of passes; [None] is returned when it runs out. *)
Fixpoint Concrete_row (fuel : nat) (ss : sstream) (c : ascii) (a : Z)
    (row : list IntElement)
  : option (result (sstream * ascii * Z * list IntElement)) :=
  match fuel with
  | O => None
  | S fuel' =>
      let '(ss, a) := get_int ss a in
      let '(ss, c) := get_char ss c in
      if negb (good ss) then parse_error "Invalid string."
      else
        let row := row ++ [a] in
        if Ascii.eqb c "," then Concrete_row fuel' ss c a row
        else Some (Ok (ss, c, a, row))
  end.

(** The same loop of the symbolic parser. *)
Fixpoint Symbolic_row (fuel : nat) (ss : sstream) (c : ascii) (a : Z)
    (row : list Element)
  : option (result (sstream * ascii * Z * list Element)) :=
  match fuel with
  | O => None
  | S fuel' =>
      let '(ss, a) := get_int ss a in
      let step :=
        if negb (good ss) then
          let '(ss, c) := get_char (clear ss) c in
          if negb (good ss) || negb (isalpha c) then
            Throw (invalid_argument "Invalid string.")
          else Ok (ss, c, row ++ [Var c])
        else Ok (ss, c, row ++ [Int a]) in
      match step with
      | Ok (ss, c, row) =>
          let '(ss, c) := get_char ss c in
          if Ascii.eqb c "," then Symbolic_row fuel' ss c a row
          else Some (Ok (ss, c, a, row))
      | Throw e => Some (Throw e)
      | Terminate => Some Terminate
      end
  end.

Section parse.
Context {T : Type}.

(** The row loop of the parser at hand. *)
Variable parse_row :
  nat → sstream → ascii → Z → list T →
  option (result (sstream * ascii * Z * list T)).

(** The message of the check of a row against [n]. *)
Variable row_size_what : string.

(** The [while (c != ']' && ss.good())] loop. *)
Fixpoint parse_rows (fuel : nat) (l : locals T)
  : option (result (locals T)) :=
  match fuel with
  | O => None
  | S fuel' =>
      if negb (Ascii.eqb (l_c l) "]") && good (l_ss l) then
        if negb (Ascii.eqb (l_c l) "[") || negb (good (l_ss l)) then
          parse_error "Invalid string."
        else
          match parse_row fuel (l_ss l) (l_c l) (l_a l) [] with
          | None => None
          | Some (Ok (ss, c, a, row)) =>
              if negb (Ascii.eqb c "]") then parse_error "Invalid string."
              else
                let size := N.of_nat (length row) in
                if (length (l_elements l) =? 0)%nat
                   || (size =? l_n l)%N
                then
                  let n' :=
                    if (length (l_elements l) =? 0)%nat then size
                    else l_n l in
                  let '(ss, c) := get_char ss c in
                  parse_rows fuel'
                    (Locals ss c a true n' (l_elements l ++ [row]))
                else parse_error row_size_what
          | Some (Throw e) => Some (Throw e)
          | Some Terminate => Some Terminate
          end
      else Some (Ok l)
  end.

(** The constructor up to the checks that follow the loop, which the
    two parsers share: [looped], the number of rows, the stream. *)
Definition parse_head (fuel : nat) (str_m : string)
  : option (result (locals T)) :=
  let ss := Stream (list_ascii_of_string str_m) true in
  let '(ss, c) := get_char ss "000"%char in
  if negb (Ascii.eqb c "[") || negb (good ss) then
    parse_error "Invalid string (first bracket)."
  else
    let '(ss, c) := get_char ss c in
    match parse_rows fuel (Locals ss c 0 false 0%N []) with
    | Some (Ok l) =>
        if negb (l_looped l) then parse_error "Invalid string."
        else if negb (N.of_nat (length (l_elements l)) =? l_n l)%N then
          parse_error "Invalid string (elements size)."
        else if negb (good (l_ss l)) then
          parse_error "Invalid string (bad stream)."
        else Some (Ok l)
    | r => r
    end.

(** The last check: nothing but white space is left in the stream. *)
Definition parse_tail (l : locals T)
  : result (ElementarySquareMatrix T) :=
  let '(ss, c) := get_char (l_ss l) (l_c l) in
  if good ss then Throw (invalid_argument "Invalid string.")
  else Ok (Matrix (l_n l) (l_elements l)).
End parse.

(** [str_m.back()] *)
Definition back (str_m : string) : ascii :=
  List.last (list_ascii_of_string str_m) "000"%char.

(** [ElementarySquareMatrix<IntElement>(const std::string&)], with the
    fuel given. *)
Definition Concrete_parse_fuel (fuel : nat) (str_m : string)
  : option (result ConcreteSquareMatrix) :=
  match parse_head Concrete_row "Invalid string (row size)." fuel str_m with
  | Some (Ok l) =>
      if negb (Ascii.eqb (back str_m) "]") then
        parse_error "Invalid string (last bracket)."
      else Some (parse_tail l)
  | Some (Throw e) => Some (Throw e)
  | Some Terminate => Some Terminate
  | None => None
  end.

(** [ElementarySquareMatrix<Element>(const std::string&)], with the fuel
    given. *)
Definition Symbolic_parse_fuel (fuel : nat) (str_m : string)
  : option (result SymbolicSquareMatrix) :=
  match parse_head Symbolic_row "Invalid string." fuel str_m with
  | Some (Ok l) => Some (parse_tail l)
  | Some (Throw e) => Some (Throw e)
  | Some Terminate => Some Terminate
  | None => None
  end.

(** Every pass of either loop reads a character, so that more passes
    than the text has characters, and two, are never needed. *)
Definition parse_fuel (str_m : string) : nat := String.length str_m + 2.

Definition Concrete_parse (str_m : string)
  : option (result ConcreteSquareMatrix) :=
  Concrete_parse_fuel (parse_fuel str_m) str_m.

Definition Symbolic_parse (str_m : string)
  : option (result SymbolicSquareMatrix) :=
  Symbolic_parse_fuel (parse_fuel str_m) str_m.

(** ** Notions the statements use *)

(** Some [Var] cell of [m] has a name without an entry in [val]. *)
Definition undefined_in (m : SymbolicSquareMatrix) (val : Valuation) : Prop :=
  ∃ i j t, cell m i j = Some (Var t) ∧ val !! t = None.


(** ** Matrices of the test suite, used as instances *)

Definition sym_1b3h : SymbolicSquareMatrix :=
  Matrix 2 [[Int 1; Var "b"%char]; [Int 3; Var "h"%char]].


(** Column [j] of a grid, top to bottom. *)
Definition column {T} (j : nat) (rows : list (list T)) : list T :=
  omap (λ row, row !! j) rows.


(** The row-major unrolling of a matrix. *)
Definition unroll {T} (m : ElementarySquareMatrix T) : list T :=
  concat (elements m).

(** The entries [start, start + step) of a sequence. *)
Definition sub_sequence {T} (start step : N) (l : list T) : list T :=
  take (N.to_nat step) (drop (N.to_nat start) l).

Definition m_1234 : ConcreteSquareMatrix := Matrix 2 [[1; 2]; [3; 4]].

(** The matrix of [k] rows of [k] cells that all hold [e], and the
    smallest size at which twice [n * n] is no [unsigned int]. *)
Definition constant_matrix {T} (k : N) (e : T) : ElementarySquareMatrix T :=
  Matrix k (replicate (N.to_nat k) (replicate (N.to_nat k) e)).

Definition m_46341 : ConcreteSquareMatrix := constant_matrix 46341 0.


(** The failure the spec calls DimensionMismatchError: the
    [std::invalid_argument] of the size check of an operator. *)
Definition DimensionMismatchError (e : exn) : Prop :=
  e = invalid_argument "Dimension mismatch." ∨
  e = invalid_argument "Dimension mismatch".

(** The sum of a list of integers, in [Z]. *)
Definition sum_Z (l : list Z) : Z := foldr Z.add 0 l.

(** Row times column, in the words of the spec: the dot product of row
    [i] of the left matrix and column [j] of the right matrix, as an
    [int]. *)
Definition row_times_column (M N : ConcreteSquareMatrix) (i j : nat)
  : option Z :=
  row ← elements M !! i;
  Some (wrap_int (sum_Z (zip_with Z.mul row (column j (elements N))))).

Definition m_123456789 : ConcreteSquareMatrix :=
  Matrix 3 [[1; 2; 3]; [4; 5; 6]; [7; 8; 9]].

Definition identity_3 : ConcreteSquareMatrix :=
  Matrix 3 [[1; 0; 0]; [0; 1; 0]; [0; 0; 1]].


(** Two grids with rows of the same lengths, in the same order. *)
Definition same_shape {T} (rows rows' : list (list T)) : Prop :=
  Forall2 (λ row row', length row = length row') rows rows'.

(** What [t_oper] leaves in the matrix, on the unrolling: [func] applied
    to the first [covered] entries of both operands, the entries of the
    left operand after them. *)
Definition elementwise_upto {T} (func : T → T → T) (covered : nat)
    (lhs rhs : list T) : list T :=
  zip_with func (take covered lhs) (take covered rhs) ++ drop covered lhs.


(** What the row loop of a parser keeps true of its local variables:
    every row stored so far has [n] cells, and a row has been stored once
    the loop has been entered. *)
Definition rows_invariant {T} (l : locals T) : Prop :=
  Forall (λ row, N.of_nat (length row) = l_n l) (l_elements l) ∧
  (l_looped l = true → l_elements l ≠ []).


(** The non-square text of the test suite. *)
Definition text_4x3 : string := "[[1,2,3][4,5,6][7,8,9][10,11,12]]".


(** The number that [get_digits] accumulates over the digits of [d],
    from [acc]. *)
Fixpoint uint_value (d : Decimal.uint) (acc : Z) : Z :=
  match d with
  | Decimal.Nil => acc
  | Decimal.D0 d => uint_value d (10 * acc + 0)
  | Decimal.D1 d => uint_value d (10 * acc + 1)
  | Decimal.D2 d => uint_value d (10 * acc + 2)
  | Decimal.D3 d => uint_value d (10 * acc + 3)
  | Decimal.D4 d => uint_value d (10 * acc + 4)
  | Decimal.D5 d => uint_value d (10 * acc + 5)
  | Decimal.D6 d => uint_value d (10 * acc + 6)
  | Decimal.D7 d => uint_value d (10 * acc + 7)
  | Decimal.D8 d => uint_value d (10 * acc + 8)
  | Decimal.D9 d => uint_value d (10 * acc + 9)
  end.

(** The characters of a text. *)
Abbreviation chars s := (list_ascii_of_string s).

(** The cells a matrix can hold: an [int]; for a symbolic matrix, also
    a variable named by a letter. *)
Definition Element_ok (e : Element) : Prop :=
  match e with
  | Int t => in_int t
  | Var t => isalpha t = true
  end.

(** A matrix as the parsers build them: square, with at least one row,
    over cells that [cell_ok] admits. *)
Definition parseable {T} (cell_ok : T → Prop)
    (m : ElementarySquareMatrix T) : Prop :=
  square m ∧ (1 ≤ n m)%N ∧ Forall (Forall cell_ok) (elements m).


(** A text with white space between its tokens, and one with a leading
    zero. *)
Definition text_spaced : string := "[[1, 2][3, 4]]".
Definition text_zero : string := "[[01]]".

Definition sym_1234 : SymbolicSquareMatrix :=
  Matrix 2 [[Int 1; Int 2]; [Int 3; Int 4]].


(** [parse(T).toString()] *)
Definition parse_then_toString {T} `{!ElementOps T}
    (parse : string → option (result (ElementarySquareMatrix T)))
    (text : string) : option (result string) :=
  match parse text with
  | Some (Ok m) => Some (Ok (matrix_toString m))
  | Some (Throw e) => Some (Throw e)
  | Some Terminate => Some Terminate
  | None => None
  end.


(** What the thread with turn [myturn] has in [results] at the barrier:
    [func] over its block of the two unrollings. *)
Definition t_block (this rhs : ConcreteSquareMatrix) (blocksz : N)
    (func : IntElement → IntElement → IntElement) (myturn : N)
  : list IntElement :=
  zip_with func (sub_sequence (blocksz * myturn) blocksz (unroll this))
    (sub_sequence (blocksz * myturn) blocksz (unroll rhs)).


(** ** squarematrix.hpp: copy assignment *)

(** [operator=(const ElementarySquareMatrix<T>&)]: when [m == *this]
    nothing is done; otherwise [n] and a clone of every cell of [m] are
    taken. *)
Definition copy_assign {T} (eq : T → T → bool)
    (this m : ElementarySquareMatrix T) : ElementarySquareMatrix T :=
  if matrix_eq eq m this then this else copy_matrix m.

Definition Concrete_copy_assign (this m : ConcreteSquareMatrix)
  : ConcreteSquareMatrix :=
  copy_assign Z.eqb this m.

Definition Symbolic_copy_assign (this m : SymbolicSquareMatrix)
  : SymbolicSquareMatrix :=
  copy_assign (λ ep1 e2, String.eqb (toString ep1) (toString e2)) this m.

(** Every cell of a symbolic matrix is an [int] or a letter. *)
Definition cells_ok (m : SymbolicSquareMatrix) : Prop :=
  Forall (Forall Element_ok) (elements m).

Definition sym_int_5 : SymbolicSquareMatrix := Matrix 1 [[Int 5]].
Definition sym_var_5 : SymbolicSquareMatrix := Matrix 1 [[Var "5"%char]].


(** A concrete matrix seen as a symbolic one: the same integers, held
    as [Element]s. *)
Definition as_symbolic (m : ConcreteSquareMatrix) : SymbolicSquareMatrix :=
  Matrix (n m) (map (map Int) (elements m)).

(** The local variables of a parser with every stored cell sent
    through [f]. *)
Definition map_locals {T U} (f : T → U) (l : locals T) : locals U :=
  Locals (l_ss l) (l_c l) (l_a l) (l_looped l) (l_n l)
    (map (map f) (l_elements l)).


(** ** squarematrix.cpp: the random constructor *)

(** [ElementarySquareMatrix<IntElement>(int m)].  [draw k] stands for
    the value of the call number [k] of [distribution(generator)], the
    calls being made row by row; [n] is [m] converted to
    [unsigned int]; the loops run while the counters are below [m]. *)
Definition random_matrix (m : Z) (draw : nat → Z) : ConcreteSquareMatrix :=
  Matrix (Z.to_N (m mod 2 ^ 32))
    (map (λ row, map draw (seq (row * Z.to_nat m) (Z.to_nat m)))
       (seq 0 (Z.to_nat m))).

(** ** compositesquarematrix.hpp, compositesquarematrix.cpp *)

(** A [SquareMatrix] is a concrete matrix, a symbolic matrix or a
    [CompositeSquareMatrix], which owns two of them, the operator
    [oprtor] and its character. *)
Inductive SquareMatrix : Type :=
| Concrete (m : ConcreteSquareMatrix)
| Symbolic (m : SymbolicSquareMatrix)
| Composite (oprnd1 oprnd2 : SquareMatrix)
    (oprtor : ConcreteSquareMatrix → ConcreteSquareMatrix →
              result ConcreteSquareMatrix)
    (op_char : ascii).

(** [getRowSize] *)
Fixpoint getRowSize (m : SquareMatrix) : N :=
  match m with
  | Concrete m => n m
  | Symbolic m => n m
  | Composite oprnd1 _ _ _ => getRowSize oprnd1
  end.

(** [toString] *)
Fixpoint SquareMatrix_toString (m : SquareMatrix) : string :=
  match m with
  | Concrete m => matrix_toString m
  | Symbolic m => matrix_toString m
  | Composite oprnd1 oprnd2 _ op_char =>
      "( " +:+ SquareMatrix_toString oprnd1 +:+ " ) "
      +:+ String op_char (" ( " +:+ SquareMatrix_toString oprnd2 +:+ " )")
  end.

(** [evaluate].  In [oprtor(oprnd1->evaluate(val), oprnd2->evaluate(val))]
    the language leaves open which argument is evaluated first;
    [right_first] says which the compiler chose. *)
Fixpoint SquareMatrix_evaluate (right_first : bool) (m : SquareMatrix)
    (val : Valuation) : result ConcreteSquareMatrix :=
  match m with
  | Concrete m => Concrete_evaluate m val
  | Symbolic m => Symbolic_evaluate m val
  | Composite oprnd1 oprnd2 oprtor _ =>
      if right_first then
        m2 ← SquareMatrix_evaluate right_first oprnd2 val;
        m1 ← SquareMatrix_evaluate right_first oprnd1 val;
        oprtor m1 m2
      else
        m1 ← SquareMatrix_evaluate right_first oprnd1 val;
        m2 ← SquareMatrix_evaluate right_first oprnd2 val;
        oprtor m1 m2
  end.

(** [CompositeSquareMatrix()] *)
Definition empty_composite (n_threads : N) : SquareMatrix :=
  Composite (Concrete empty_matrix) (Concrete empty_matrix)
    (Concrete_add n_threads) "+".

(** The expressions whose leaves are square matrices and whose
    operators are the four of [main]: sum, difference, product and
    quotient. *)
Inductive expression (n_threads : N) : SquareMatrix → Prop :=
| expression_concrete m : square m → expression n_threads (Concrete m)
| expression_symbolic m : square m → expression n_threads (Symbolic m)
| expression_composite oprnd1 oprnd2 oprtor op_char :
    expression n_threads oprnd1 → expression n_threads oprnd2 →
    oprtor ∈ [Concrete_add n_threads; Concrete_sub n_threads;
              Concrete_mul; Concrete_div] →
    expression n_threads (Composite oprnd1 oprnd2 oprtor op_char).

(** A symbolic leaf of an expression. *)
Fixpoint leaf_of (s : SymbolicSquareMatrix) (m : SquareMatrix) : Prop :=
  match m with
  | Concrete _ => False
  | Symbolic m => m = s
  | Composite oprnd1 oprnd2 _ _ => leaf_of s oprnd1 ∨ leaf_of s oprnd2
  end.


(** The expression of the test of [CompositeSquareMatrix], for four
    threads. *)
Definition sym_ab45 : SymbolicSquareMatrix :=
  Matrix 2 [[Var "a"%char; Var "b"%char]; [Int 4; Int 5]].

Definition m_1245 : ConcreteSquareMatrix := Matrix 2 [[1; 2]; [4; 5]].

Definition csm3 : SquareMatrix :=
  Composite (Symbolic sym_ab45) (Concrete m_1245) (Concrete_add 4) "+".

(** * Properties *)

(** ** Results *)

Lemma mapM_cons {A B} (f : A → result B) (x : A) (l : list A) :
  mapM f (x :: l) =
  match f x with
  | Ok y =>
      match mapM f l with
      | Ok k => Ok (y :: k)
      | Throw e => Throw e
      | Terminate => Terminate
      end
  | Throw e => Throw e
  | Terminate => Terminate
  end.
Proof. reflexivity. Qed.

Lemma mapM_Ok {A B} (f : A → result B) (l : list A) (k : list B) :
  mapM f l = Ok k ↔ Forall2 (λ x y, f x = Ok y) l k.
Proof.
  revert k. induction l as [|x l IH]; intros k.
  - split.
    + intros [= <-]. constructor.
    + intros H. inversion H. reflexivity.
  - rewrite mapM_cons. split.
    + destruct (f x) as [y| |] eqn:Hx; try discriminate.
      destruct (mapM f l) as [k'| |] eqn:Hl; try discriminate.
      intros [= <-]. constructor; [assumption|]. apply IH. reflexivity.
    + intros H. inversion H as [|x' y l' k' Hx Hl]; subst.
      apply IH in Hl. rewrite Hx, Hl. reflexivity.
Qed.

Lemma mapM_all_Ok {A B} (f : A → result B) (l : list A) :
  Forall (λ x, is_Ok (f x) = true) l → ∃ k, mapM f l = Ok k.
Proof.
  induction 1 as [|x l Hx _ [k Hk]].
  - eexists. reflexivity.
  - rewrite mapM_cons, Hk.
    destruct (f x) as [y| |] eqn:Hy; try discriminate.
    exists (y :: k). reflexivity.
Qed.

Lemma mapM_Throw {A B} (f : A → result B) (l : list A) (e : exn) :
  mapM f l = Throw e → Exists (λ x, f x = Throw e) l.
Proof.
  induction l as [|x l IH]; [discriminate|].
  rewrite mapM_cons. destruct (f x) as [y| |] eqn:Hy.
  - destruct (mapM f l) as [k| |]; try discriminate.
    intros [= <-]. right. apply IH. reflexivity.
  - intros [= <-]. left. assumption.
  - discriminate.
Qed.

Lemma mapM_Terminate {A B} (f : A → result B) (l : list A) :
  mapM f l = Terminate → Exists (λ x, f x = Terminate) l.
Proof.
  induction l as [|x l IH]; [discriminate|].
  rewrite mapM_cons. destruct (f x) as [y| |] eqn:Hy.
  - destruct (mapM f l) as [k| |]; try discriminate.
    intros _. right. apply IH. reflexivity.
  - discriminate.
  - intros _. left. assumption.
Qed.

Lemma mapM_Ok_length {A B} (f : A → result B) (l : list A) (k : list B) :
  mapM f l = Ok k → length k = length l.
Proof. intros H%mapM_Ok. symmetry. eapply Forall2_length, H. Qed.

(** ** The invariant *)

Lemma square_squareb {T} (m : ElementarySquareMatrix T) :
  squareb m = true ↔ square m.
Proof.
  unfold squareb, square. rewrite andb_true_iff, N.eqb_eq, forallb_forall.
  rewrite Forall_forall. setoid_rewrite N.eqb_eq.
  setoid_rewrite <- list_elem_of_In. reflexivity.
Qed.

Lemma square_rows {T} (m : ElementarySquareMatrix T) :
  square m → length (elements m) = N.to_nat (n m).
Proof. intros [H _]. lia. Qed.

Lemma square_row {T} (m : ElementarySquareMatrix T) i row :
  square m → elements m !! i = Some row → length row = N.to_nat (n m).
Proof.
  intros [_ H] Hi. rewrite Forall_lookup in H. specialize (H _ _ Hi). lia.
Qed.

Lemma square_checks {T} (k : N) (g : list (list T)) :
  square (Matrix k g) ↔
  (k =? N.of_nat (length g))%N = true ∧
  forallb (λ row, (k =? N.of_nat (length row))%N) g = true.
Proof.
  unfold square. simpl. rewrite N.eqb_eq, forallb_forall, Forall_forall.
  setoid_rewrite N.eqb_eq. setoid_rewrite list_elem_of_In.
  split; intros [H1 H2]; split; auto; intros row Hrow; symmetry; auto.
Qed.

Lemma make_matrix_Ok {T} (new_n : N) (g : list (list T)) m :
  make_matrix new_n g = Ok m ↔ m = Matrix new_n g ∧ square (Matrix new_n g).
Proof.
  rewrite square_checks. unfold make_matrix.
  destruct (new_n =? N.of_nat (length g))%N; simpl;
    [destruct (forallb _ g)|]; split;
    first [ intros [= <-]; auto | intros [-> _]; reflexivity
          | discriminate | intros [_ [? ?]]; discriminate ].
Qed.

Lemma make_matrix_throws {T} (new_n : N) (g : list (list T)) :
  ¬ square (Matrix new_n g) →
  is_invalid_argument (make_matrix new_n g) = true.
Proof.
  rewrite square_checks. unfold make_matrix.
  destruct (new_n =? N.of_nat (length g))%N; simpl;
    [destruct (forallb _ g)|]; auto.
Qed.

Lemma copy_matrix_id {T} (m : ElementarySquareMatrix T) : copy_matrix m = m.
Proof.
  destruct m as [k rows]. unfold copy_matrix. simpl. f_equal.
  induction rows as [|row rows IH]; simpl; [reflexivity|].
  rewrite IH. f_equal. apply map_id.
Qed.

(** ** Evaluation *)

Lemma mapM_uniform_Throw {A B} (f : A → result B) (l : list A) (e0 : exn) :
  Forall (λ x, f x = Throw e0 ∨ is_Ok (f x) = true) l →
  Exists (λ x, f x = Throw e0) l →
  mapM f l = Throw e0.
Proof.
  induction 1 as [|x l Hx Hl IH]; intros Hex.
  - inversion Hex.
  - rewrite mapM_cons. destruct Hx as [->|Hx]; [reflexivity|].
    destruct (f x) as [y| |] eqn:Hy; try discriminate.
    inversion Hex as [? ? Hbad|? ? Hbad]; subst; [congruence|].
    rewrite (IH Hbad). reflexivity.
Qed.

Lemma Element_evaluate_cases (e : Element) (val : Valuation) :
  evaluate e val = Throw (domain_error "Undefined variable.") ∨
  is_Ok (evaluate e val) = true.
Proof.
  destruct e as [t|t]; simpl; [right; reflexivity|].
  unfold VariableElement_evaluate. destruct (val !! t); auto.
Qed.

Lemma Element_evaluate_Throw (e : Element) (val : Valuation) (x : exn) :
  evaluate e val = Throw x →
  x = domain_error "Undefined variable." ∧
  ∃ t, e = Var t ∧ val !! t = None.
Proof.
  destruct e as [t|t]; simpl; [discriminate|].
  unfold VariableElement_evaluate. destruct (val !! t) eqn:Ht; [discriminate|].
  intros [= <-]. eauto.
Qed.

Lemma evaluate_cells_Throw (m : SymbolicSquareMatrix) (val : Valuation) :
  undefined_in m val →
  evaluate_cells m val = Throw (domain_error "Undefined variable.").
Proof.
  intros (i & j & t & Hc & Ht). unfold cell in Hc.
  destruct (elements m !! i) as [row|] eqn:Hrow; [|discriminate].
  simpl in Hc. apply mapM_uniform_Throw.
  - apply Forall_forall. intros r _.
    destruct (mapM (λ e, evaluate e val) r) as [k| |] eqn:Hr; auto.
    + apply mapM_Throw, Exists_exists in Hr as (e' & _ & He').
      apply Element_evaluate_Throw in He' as [-> _]. auto.
    + apply mapM_Terminate, Exists_exists in Hr as (e' & _ & He').
      destruct (Element_evaluate_cases e' val) as [H|H]; rewrite He' in H;
        discriminate.
  - apply Exists_exists. exists row. split; [eapply list_elem_of_lookup_2, Hrow|].
    apply mapM_uniform_Throw.
    + apply Forall_forall. intros e' _. apply Element_evaluate_cases.
    + apply Exists_exists. exists (Var t).
      split; [eapply list_elem_of_lookup_2, Hc|].
      simpl. unfold VariableElement_evaluate. rewrite Ht. reflexivity.
Qed.

Lemma evaluate_cells_Ok (m : SymbolicSquareMatrix) (val : Valuation) :
  ¬ undefined_in m val →
  ∃ temp, evaluate_cells m val = Ok temp.
Proof.
  intros Hdef. apply mapM_all_Ok, Forall_lookup. intros i row Hrow.
  destruct (mapM_all_Ok (λ e : Element, evaluate e val) row) as [k ->];
    [|reflexivity].
  apply Forall_lookup. intros j e He.
  destruct (Element_evaluate_cases e val) as [H|H]; [|exact H].
  apply Element_evaluate_Throw in H as (_ & t & -> & Ht).
  destruct Hdef. exists i, j, t. unfold cell. rewrite Hrow. auto.
Qed.

Lemma evaluate_cells_shape (m : SymbolicSquareMatrix) (val : Valuation) temp :
  evaluate_cells m val = Ok temp →
  Forall2 (Forall2 (λ e v, evaluate e val = Ok v)) (elements m) temp.
Proof.
  intros H%mapM_Ok. eapply Forall2_impl; [exact H|].
  intros row row' Hrow. apply mapM_Ok in Hrow. exact Hrow.
Qed.

Lemma Forall2_square {A B} (P : A → B → Prop) k
    (g : list (list A)) (g' : list (list B)) :
  Forall2 (Forall2 P) g g' → square (Matrix k g) → square (Matrix k g').
Proof.
  intros H [Hn Hrows]. simpl in *. split; simpl.
  - rewrite <- (Forall2_length _ _ _ H). exact Hn.
  - clear Hn. induction H as [|r r' g g' Hr _ IH]; [constructor|].
    apply Forall_cons in Hrows as [Hk Hg]. constructor; [|auto].
    rewrite <- (Forall2_length _ _ _ Hr). exact Hk.
Qed.

(** C3. Evaluating a concrete matrix returns an equal copy whatever the
    binding.  Evaluating a square symbolic matrix fails with the
    [domain_error] "Undefined variable." exactly when the name of some
    variable cell has no entry in the binding, and no matrix is returned
    then; otherwise it returns a square concrete matrix of the same size
    whose cell at every position is the value of that cell. *)
Theorem evaluate_matrix (c : ConcreteSquareMatrix) (m : SymbolicSquareMatrix)
    (val : Valuation) :
  square m →
  Concrete_evaluate c val = Ok c ∧
  (is_domain_error (Symbolic_evaluate m val) = true ↔ undefined_in m val) ∧
  (undefined_in m val →
   Symbolic_evaluate m val = Throw (domain_error "Undefined variable.")) ∧
  (¬ undefined_in m val →
   ∃ res, Symbolic_evaluate m val = Ok res ∧ n res = n m ∧ square res ∧
     ∀ i j e, cell m i j = Some e →
       ∃ v, evaluate e val = Ok v ∧ cell res i j = Some v).
Proof.
  intros Hsq.
  assert (Hthrow : undefined_in m val →
    Symbolic_evaluate m val = Throw (domain_error "Undefined variable.")).
  { intros H. unfold Symbolic_evaluate.
    rewrite (evaluate_cells_Throw _ _ H). reflexivity. }
  split; [|split; [|split]].
  - unfold Concrete_evaluate. rewrite copy_matrix_id. reflexivity.
  - split; [|intros H; rewrite (Hthrow H); reflexivity].
    unfold Symbolic_evaluate.
    destruct (evaluate_cells m val) as [temp|x|] eqn:Hcells.
    + change (is_domain_error (make_matrix (n m) temp) = true → undefined_in m val).
      unfold make_matrix. repeat case_match; discriminate.
    + intros _.
      apply mapM_Throw, Exists_exists in Hcells as (row & Hrow & Hx).
      apply mapM_Throw, Exists_exists in Hx as (e & He & Hx).
      apply Element_evaluate_Throw in Hx as (_ & t & -> & Ht).
      apply list_elem_of_lookup in Hrow as [i Hi].
      apply list_elem_of_lookup in He as [j Hj].
      exists i, j, t. unfold cell. rewrite Hi. auto.
    + discriminate.
  - exact Hthrow.
  - intros Hdef. destruct (evaluate_cells_Ok _ _ Hdef) as [temp Htemp].
    pose proof (evaluate_cells_shape _ _ _ Htemp) as Hshape.
    assert (Hsq' : square (Matrix (n m) temp)).
    { eapply Forall2_square; [exact Hshape|]. destruct m; exact Hsq. }
    exists (Matrix (n m) temp). unfold Symbolic_evaluate. rewrite Htemp.
    split; [apply make_matrix_Ok; auto|]. split; [reflexivity|].
    split; [exact Hsq'|].
    intros i j e Hc. unfold cell in *. cbn [elements].
    destruct (elements m !! i) as [row|] eqn:Hrow; [|discriminate].
    cbn in Hc.
    destruct (Forall2_lookup_l _ _ _ _ _ Hshape Hrow) as (row' & -> & Hrr).
    destruct (Forall2_lookup_l _ _ _ _ _ Hrr Hc) as (v & Hv & Hev).
    exists v. auto.
Qed.

Lemma square_sym_1b3h : square sym_1b3h.
Proof. apply square_squareb. reflexivity. Qed.

Lemma evaluate_matrix_witness :
  Symbolic_evaluate sym_1b3h {[ "b"%char := 2 ]}
  = Throw (domain_error "Undefined variable.").
Proof.
  apply (evaluate_matrix empty_matrix sym_1b3h _ square_sym_1b3h).
  exists 1%nat, 1%nat, "h"%char. split; reflexivity.
Defined.

(** ** Transposition *)

Section transpose.
Context {T : Type}.
Implicit Types (row : list T) (rows temp : list (list T)).

Lemma push_column_length row temp :
  length row = length temp →
  length (push_column row temp) = length temp.
Proof.
  revert temp. induction row as [|e row IH]; intros [|it temp] Hlen;
    simpl in *; try reflexivity; try discriminate.
  rewrite IH; [reflexivity|lia].
Qed.

Lemma push_column_lookup row temp j it e :
  length row = length temp →
  temp !! j = Some it → row !! j = Some e →
  push_column row temp !! j = Some (it ++ [e]).
Proof.
  revert temp j. induction row as [|e' row IH]; intros [|it' temp] j Hlen;
    simpl in *; try discriminate.
  destruct j as [|j]; simpl.
  - intros [= ->] [= ->]. reflexivity.
  - apply IH. lia.
Qed.

Lemma column_cons_Some j row rows e :
  row !! j = Some e → column j (row :: rows) = e :: column j rows.
Proof. intros H. unfold column. simpl. rewrite H. reflexivity. Qed.

Lemma column_lookup j rows i :
  Forall (λ row, (j < length row)%nat) rows →
  column j rows !! i = rows !! i ≫= λ row, row !! j.
Proof.
  revert i. induction rows as [|row rows IH]; intros i Hall; [reflexivity|].
  apply Forall_cons in Hall as [Hrow Hall].
  destruct (lookup_lt_is_Some_2 _ _ Hrow) as [e He].
  rewrite (column_cons_Some _ _ _ _ He).
  destruct i as [|i]; simpl; [now rewrite He|]. apply IH, Hall.
Qed.

Lemma column_length j rows :
  Forall (λ row, (j < length row)%nat) rows →
  length (column j rows) = length rows.
Proof.
  induction 1 as [|row rows Hrow _ IH]; [reflexivity|].
  destruct (lookup_lt_is_Some_2 _ _ Hrow) as [e He].
  rewrite (column_cons_Some _ _ _ _ He). simpl. now rewrite IH.
Qed.

Lemma transpose_fold_length rows temp :
  Forall (λ row, length row = length temp) rows →
  length (fold_left (λ temp row, push_column row temp) rows temp)
  = length temp.
Proof.
  revert temp. induction rows as [|row rows IH]; intros temp Hall;
    [reflexivity|].
  apply Forall_cons in Hall as [Hrow Hall]. simpl.
  rewrite IH.
  - now apply push_column_length.
  - rewrite push_column_length by assumption. exact Hall.
Qed.

Lemma transpose_fold_lookup rows temp j it :
  Forall (λ row, length row = length temp) rows →
  temp !! j = Some it →
  fold_left (λ temp row, push_column row temp) rows temp !! j
  = Some (it ++ column j rows).
Proof.
  revert temp it. induction rows as [|row rows IH]; intros temp it Hall Hj.
  - simpl. unfold column. simpl. now rewrite app_nil_r.
  - apply Forall_cons in Hall as [Hrow Hall]. simpl.
    assert (Hlt : (j < length row)%nat).
    { rewrite Hrow. eapply lookup_lt_Some, Hj. }
    destruct (lookup_lt_is_Some_2 _ _ Hlt) as [e He].
    rewrite (IH (push_column row temp) (it ++ [e])).
    + rewrite He, <- app_assoc. reflexivity.
    + rewrite push_column_length by assumption. exact Hall.
    + now apply push_column_lookup.
Qed.

Implicit Types m : ElementarySquareMatrix T.

Lemma square_Forall_length m :
  square m →
  Forall (λ row, length row = N.to_nat (n m)) (elements m).
Proof.
  intros [_ H]. eapply Forall_impl; [exact H|]. simpl. intros; lia.
Qed.

Lemma transpose_rows m j :
  square m → (j < N.to_nat (n m))%nat →
  elements (transpose m) !! j = Some (column j (elements m)).
Proof.
  intros Hsq Hj. unfold transpose. cbn [elements].
  rewrite (transpose_fold_lookup _ _ j []); [reflexivity| |].
  - rewrite length_replicate. now apply square_Forall_length.
  - now apply lookup_replicate_2.
Qed.

Lemma transpose_rows_length m :
  square m → length (elements (transpose m)) = N.to_nat (n m).
Proof.
  intros Hsq. unfold transpose. cbn [elements].
  rewrite transpose_fold_length; rewrite length_replicate; [reflexivity|].
  now apply square_Forall_length.
Qed.

Lemma transpose_n m : n (transpose m) = n m.
Proof. reflexivity. Qed.

Lemma transpose_square m : square m → square (transpose m).
Proof.
  intros Hsq. split.
  - rewrite transpose_rows_length by assumption. rewrite transpose_n. lia.
  - apply Forall_lookup. intros j col Hcol.
    assert (Hj : (j < N.to_nat (n m))%nat).
    { rewrite <- transpose_rows_length by assumption.
      eapply lookup_lt_Some, Hcol. }
    rewrite transpose_rows in Hcol by assumption. injection Hcol as <-.
    rewrite column_length.
    + rewrite transpose_n. destruct Hsq as [<- _]. reflexivity.
    + eapply Forall_impl; [apply square_Forall_length, Hsq|].
      simpl. intros; lia.
Qed.

Lemma transpose_cell m i j :
  square m → cell (transpose m) i j = cell m j i.
Proof.
  intros Hsq. unfold cell.
  destruct (decide (i < N.to_nat (n m))%nat) as [Hi|Hi].
  - rewrite transpose_rows by assumption. simpl.
    apply column_lookup.
    eapply Forall_impl; [apply square_Forall_length, Hsq|].
    simpl. intros; lia.
  - rewrite (lookup_ge_None_2 (elements (transpose m))).
    2:{ rewrite transpose_rows_length by assumption. lia. }
    simpl. destruct (elements m !! j) as [row|] eqn:Hrow; [|reflexivity].
    simpl. symmetry. apply lookup_ge_None_2.
    rewrite (square_row _ _ _ Hsq Hrow). lia.
Qed.

Lemma square_ext m1 m2 :
  square m1 → square m2 → n m1 = n m2 →
  (∀ i j, cell m1 i j = cell m2 i j) → m1 = m2.
Proof.
  destruct m1 as [k1 g1], m2 as [k2 g2]. simpl.
  intros Hsq1 Hsq2 <- Hcell. f_equal.
  apply list_eq. intros i. specialize (Hcell i). unfold cell in Hcell.
  simpl in Hcell.
  pose proof (square_rows _ Hsq1) as Hl1.
  pose proof (square_rows _ Hsq2) as Hl2. simpl in Hl1, Hl2.
  destruct (g1 !! i) as [r1|] eqn:H1.
  - assert (Hi : (i < length g2)%nat).
    { rewrite Hl2, <- Hl1. eapply lookup_lt_Some, H1. }
    destruct (lookup_lt_is_Some_2 _ _ Hi) as [r2 H2]. rewrite H2.
    f_equal. apply list_eq. intros j. specialize (Hcell j).
    rewrite H2 in Hcell. exact Hcell.
  - symmetry. apply lookup_ge_None_2. apply lookup_ge_None_1 in H1. lia.
Qed.

Lemma transpose_involutive m : square m → transpose (transpose m) = m.
Proof.
  intros Hsq. apply square_ext.
  - now apply transpose_square, transpose_square.
  - assumption.
  - reflexivity.
  - intros i j. rewrite transpose_cell by now apply transpose_square.
    now apply transpose_cell.
Qed.

Lemma all_of_eq_refl (eq : T → T → bool) row :
  (∀ e, eq e e = true) → all_of_eq eq row row = true.
Proof.
  intros Hrefl. induction row as [|e row IH]; [reflexivity|].
  simpl. now rewrite Hrefl, IH.
Qed.

Lemma matrix_eq_refl (eq : T → T → bool) m :
  (∀ e, eq e e = true) → matrix_eq eq m m = true.
Proof.
  intros Hrefl. unfold matrix_eq. rewrite N.eqb_refl. simpl.
  induction (elements m) as [|row rows IH]; [reflexivity|].
  simpl. now rewrite all_of_eq_refl.
Qed.
End transpose.

(** C7. For a square matrix, concrete or symbolic, the transpose of the
    transpose compares equal to the matrix under [operator==], and is the
    same value; the transpose is a square matrix of the same size whose
    cell in row [i] and column [j] is the cell of the matrix in row [j]
    and column [i].  [transpose] is a [const] member that clones every
    cell into a new matrix: it is a function of the value of [m]. *)
Theorem transpose_transpose (c : ConcreteSquareMatrix)
    (s : SymbolicSquareMatrix) :
  square c → square s →
  Concrete_eq (transpose (transpose c)) c = true ∧
  Symbolic_eq (transpose (transpose s)) s = true ∧
  transpose (transpose c) = c ∧ transpose (transpose s) = s ∧
  (square (transpose c) ∧ n (transpose c) = n c ∧
   ∀ i j, cell (transpose c) i j = cell c j i) ∧
  (square (transpose s) ∧ n (transpose s) = n s ∧
   ∀ i j, cell (transpose s) i j = cell s j i).
Proof.
  intros Hc Hs.
  rewrite !transpose_involutive by assumption.
  repeat split; auto using transpose_square, transpose_cell.
  - apply matrix_eq_refl, Z.eqb_refl.
  - apply matrix_eq_refl. intros e. apply String.eqb_refl.
  - apply transpose_square; assumption.
  - apply transpose_square; assumption.
  - apply transpose_square; assumption.
  - apply transpose_square; assumption.
Qed.

(** ** Blocks *)

Section block.
Context {T : Type}.
Implicit Types (m : ElementarySquareMatrix T) (unrolled : list T).

Lemma block_loop_Ok unrolled (i : N) (count : nat) :
  (N.to_nat i + count ≤ length unrolled)%nat →
  block_loop unrolled i count = Ok (take count (drop (N.to_nat i) unrolled)).
Proof.
  revert i. induction count as [|count IH]; intros i Hlen; [reflexivity|].
  simpl. destruct (lookup_lt_is_Some_2 unrolled (N.to_nat i)) as [e He];
    [lia|].
  rewrite He, IH by lia. simpl.
  rewrite (drop_S _ _ _ He). simpl.
  replace (N.to_nat (i + 1)) with (S (N.to_nat i)) by lia. reflexivity.
Qed.

Lemma block_loop_Throw unrolled (i : N) (count : nat) :
  (N.to_nat i ≤ length unrolled < N.to_nat i + count)%nat →
  block_loop unrolled i count
  = Throw (out_of_range "vector::_M_range_check").
Proof.
  revert i. induction count as [|count IH]; intros i Hlen; [lia|].
  simpl. destruct (unrolled !! N.to_nat i) as [e|] eqn:He; [|reflexivity].
  apply lookup_lt_Some in He. rewrite IH by lia. reflexivity.
Qed.

Lemma concat_length_uniform (rows : list (list T)) (k : nat) :
  Forall (λ row, length row = k) rows →
  length (concat rows) = (length rows * k)%nat.
Proof.
  induction 1 as [|row rows Hrow _ IH]; [reflexivity|].
  simpl. rewrite length_app, IH, Hrow. reflexivity.
Qed.

Lemma unroll_length m :
  square m → length (unroll m) = N.to_nat (n m * n m).
Proof.
  intros Hsq. unfold unroll.
  rewrite (concat_length_uniform _ (N.to_nat (n m)))
    by now apply square_Forall_length.
  rewrite (square_rows _ Hsq). lia.
Qed.

Lemma uadd_exact (a b : N) : (a + b < UINT_RANGE → uadd a b = a + b)%N.
Proof. intros H. unfold uadd. now apply N.mod_small. Qed.

Lemma umul_exact (a b : N) : (a * b < UINT_RANGE → umul a b = a * b)%N.
Proof. intros H. unfold umul. now apply N.mod_small. Qed.

Lemma block_start_throws m (start step : N) :
  (n m * n m < start)%N →
  block m start step
  = Throw (out_of_range "Start index exceeds elements size.").
Proof.
  intros H. unfold block. apply N.ltb_lt in H. rewrite H. reflexivity.
Qed.

Lemma block_step_throws m (start step : N) :
  (start ≤ n m * n m < step)%N →
  block m start step = Throw (out_of_range "Step exceeds elements size.").
Proof.
  intros [H1 H2]. unfold block.
  apply N.ltb_ge in H1. apply N.ltb_lt in H2. rewrite H1, H2. reflexivity.
Qed.

Lemma block_empty m (start : N) :
  (start ≤ n m * n m)%N → block m start 0 = Ok [].
Proof.
  intros H. unfold block. apply N.ltb_ge in H. rewrite H.
  rewrite (proj2 (N.ltb_ge _ _)) by lia. reflexivity.
Qed.

Lemma block_within m (start step : N) :
  square m → (n m * n m < UINT_RANGE)%N →
  (start + step ≤ n m * n m)%N →
  block m start step = Ok (sub_sequence start step (unroll m)).
Proof.
  intros Hsq Hfit Hle. unfold block, sub_sequence.
  rewrite (proj2 (N.ltb_ge _ _)) by lia.
  rewrite (proj2 (N.ltb_ge _ _)) by lia.
  destruct (N.eqb_spec step 0) as [->|Hstep]; [reflexivity|].
  rewrite uadd_exact by lia.
  fold (unroll m). rewrite block_loop_Ok.
  - do 3 f_equal. lia.
  - rewrite unroll_length by assumption. lia.
Qed.

Lemma block_overrun m (start step : N) :
  square m → (0 < step)%N →
  (start ≤ n m * n m)%N → (step ≤ n m * n m)%N →
  (n m * n m < uadd start step)%N →
  block m start step = Throw (out_of_range "vector::_M_range_check").
Proof.
  intros Hsq Hpos Hstart Hstep Hover. unfold block.
  rewrite (proj2 (N.ltb_ge _ _)) by lia.
  rewrite (proj2 (N.ltb_ge _ _)) by lia.
  destruct (N.eqb_spec step 0) as [->|_]; [lia|].
  fold (unroll m). apply block_loop_Throw.
  rewrite unroll_length by assumption. lia.
Qed.

(** When [start + step] is no [unsigned int] the bound of the loop wraps
    below [start], and the loop body never runs. *)
Lemma block_wraps m (start step : N) :
  (n m * n m < UINT_RANGE)%N → (0 < step)%N →
  (start ≤ n m * n m)%N → (step ≤ n m * n m)%N →
  (UINT_RANGE ≤ start + step)%N →
  block m start step = Ok [].
Proof.
  intros Hfit Hpos Hstart Hstep Hwrap. unfold block.
  rewrite (proj2 (N.ltb_ge _ _)) by lia.
  rewrite (proj2 (N.ltb_ge _ _)) by lia.
  destruct (N.eqb_spec step 0) as [->|_]; [lia|].
  assert (Hsum : (uadd start step = start + step - UINT_RANGE)%N).
  { unfold uadd. symmetry. apply (N.mod_unique _ _ 1); lia. }
  replace (N.to_nat (uadd start step - start)) with 0%nat by lia.
  reflexivity.
Qed.

Lemma constant_matrix_square (k : N) (e : T) : square (constant_matrix k e).
Proof.
  unfold constant_matrix, square. cbn [n elements]. split.
  - rewrite length_replicate. apply N2Nat.id.
  - apply Forall_replicate. rewrite length_replicate. apply N2Nat.id.
Qed.
End block.

(** C5, as the code has it.  For a square matrix whose [n * n] fits
    [unsigned int], and [start + step] at most [n * n], [block] returns
    the entries [start, start + step) of the row-major unrolling; hence
    [block(0, n * n)] is the unrolling and [block(k, 1)] the entry at
    position [k].  [block(start, 0)] is empty for [start] up to [n * n].
    When [start] or [step] exceeds [n * n], [block] throws
    [std::out_of_range]. *)
Theorem block_sub_sequence {T} (m : ElementarySquareMatrix T)
    (start step : N) :
  square m → (n m * n m < UINT_RANGE)%N →
  ((start + step ≤ n m * n m)%N →
   block m start step = Ok (sub_sequence start step (unroll m))) ∧
  block m 0 (n m * n m) = Ok (unroll m) ∧
  (∀ k e, unroll m !! N.to_nat k = Some e → block m k 1 = Ok [e]) ∧
  ((start ≤ n m * n m)%N → block m start 0 = Ok []) ∧
  ((n m * n m < start)%N ∨ (n m * n m < step)%N →
   is_out_of_range (block m start step) = true).
Proof.
  intros Hsq Hfit. split; [|split; [|split; [|split]]].
  - now apply block_within.
  - rewrite block_within by (assumption || lia). unfold sub_sequence.
    rewrite <- unroll_length by assumption. simpl.
    now rewrite firstn_all.
  - intros k e He.
    assert (Hk : (N.to_nat k < N.to_nat (n m * n m))%nat).
    { rewrite <- unroll_length by assumption. eapply lookup_lt_Some, He. }
    rewrite block_within by (assumption || lia). unfold sub_sequence.
    rewrite (drop_S _ _ _ He). reflexivity.
  - apply block_empty.
  - intros [H|H].
    + rewrite block_start_throws by assumption. reflexivity.
    + destruct (N.le_gt_cases start (n m * n m)) as [Hs|Hs].
      * rewrite block_step_throws by lia. reflexivity.
      * rewrite block_start_throws by assumption. reflexivity.
Qed.

Lemma square_m_1234 : square m_1234.
Proof. apply square_squareb. reflexivity. Qed.

Lemma block_sub_sequence_witness :
  block m_1234 1 2 = Ok [2; 3].
Proof.
  refine (proj1 (block_sub_sequence m_1234 1 2 square_m_1234 _) _).
  - reflexivity.
  - vm_compute. discriminate.
Defined.

(** C5 as stated fails: with [start] and [step] both at most [n * n],
    [block] need not return a sequence. *)
Lemma block_sub_sequence_counterexample :
  ¬ ∀ (m : ConcreteSquareMatrix) (start step : N),
      square m → (start ≤ n m * n m)%N → (step ≤ n m * n m)%N →
      ∃ l, block m start step = Ok l.
Proof.
  intros H.
  destruct (H m_1234 3%N 2%N square_m_1234) as [l Hl];
    [vm_compute; discriminate..|].
  discriminate Hl.
Qed.

(** C10, as the code has it.  On a square matrix, with [step] positive,
    [start] and [step] at most [n * n] and [start + step] above [n * n]:
    when [start + step] is an [unsigned int], which it always is for
    [n] up to 46340, [block] throws [std::out_of_range] from the checked
    access [unrolled.at] and returns neither a clipped nor a padded
    sequence; when it is not (and [n * n] is an [unsigned int]), the
    bound of the loop wraps below [start] and [block] returns the empty
    sequence. *)
Theorem block_past_the_end {T} (m : ElementarySquareMatrix T)
    (start step : N) :
  square m → (0 < step)%N →
  (start ≤ n m * n m)%N → (step ≤ n m * n m)%N →
  (n m * n m < start + step)%N →
  ((start + step < UINT_RANGE)%N →
   is_out_of_range (block m start step) = true ∧
   is_Ok (block m start step) = false) ∧
  ((n m ≤ 46340)%N → is_out_of_range (block m start step) = true) ∧
  ((n m * n m < UINT_RANGE)%N → (UINT_RANGE ≤ start + step)%N →
   block m start step = Ok []).
Proof.
  intros Hsq Hpos Hstart Hstep Hover.
  assert (Hthrow : (start + step < UINT_RANGE)%N →
    block m start step = Throw (out_of_range "vector::_M_range_check")).
  { intros Hfit. apply block_overrun; auto. now rewrite uadd_exact. }
  split; [|split].
  - intros Hfit. now rewrite Hthrow.
  - intros Hn. rewrite Hthrow; [reflexivity|].
    assert (n m * n m ≤ 46340 * 46340)%N by (apply N.mul_le_mono; exact Hn).
    unfold UINT_RANGE. change (2 ^ 32)%N with 4294967296%N.
    change (46340 * 46340)%N with 2147395600%N in *. lia.
  - intros Hfit Hwrap. now apply block_wraps.
Qed.

Lemma block_past_the_end_witness :
  square m_1234 ∧ (0 < 2)%N ∧ (3 ≤ n m_1234 * n m_1234)%N ∧
  (2 ≤ n m_1234 * n m_1234)%N ∧ (n m_1234 * n m_1234 < 3 + 2)%N ∧
  (3 + 2 < UINT_RANGE)%N ∧
  is_out_of_range (block m_1234 3 2) = true.
Proof.
  assert (H1 : (0 < 2)%N) by reflexivity.
  assert (H2 : (3 ≤ n m_1234 * n m_1234)%N) by (vm_compute; discriminate).
  assert (H3 : (2 ≤ n m_1234 * n m_1234)%N) by (vm_compute; discriminate).
  assert (H4 : (n m_1234 * n m_1234 < 3 + 2)%N) by reflexivity.
  assert (H5 : (3 + 2 < UINT_RANGE)%N) by reflexivity.
  split; [exact square_m_1234|]. repeat (split; [assumption|]).
  exact (proj1 (proj1 (block_past_the_end m_1234 3 2 square_m_1234
                         H1 H2 H3 H4) H5)).
Defined.

(** C10 as stated fails: on the matrix of 46341 rows, where [n * n] is
    2147488281, [start] and [step] both equal to [n * n] meet every
    condition of the claim, and [block] returns the empty sequence
    without an exception. *)
Lemma block_past_the_end_counterexample :
  square m_46341 ∧ n m_46341 = 46341%N ∧ (0 < 2147488281)%N ∧
  (2147488281 ≤ n m_46341 * n m_46341)%N ∧
  (n m_46341 * n m_46341 < 2147488281 + 2147488281)%N ∧
  block m_46341 2147488281 2147488281 = Ok [] ∧
  is_out_of_range (block m_46341 2147488281 2147488281) = false.
Proof.
  assert (Hn : n m_46341 = 46341%N) by reflexivity.
  assert (Hblock : block m_46341 2147488281 2147488281 = Ok []).
  { apply block_wraps; rewrite ?Hn; unfold UINT_RANGE;
      first [reflexivity | discriminate]. }
  split; [apply constant_matrix_square|]. split; [exact Hn|].
  split; [reflexivity|]. rewrite Hblock, Hn.
  split; [discriminate|]. split; [reflexivity|]. split; reflexivity.
Qed.

(** ** Arithmetic of [int] *)

Lemma wrap_int_mod (z : Z) : wrap_int z mod 2 ^ 32 = z mod 2 ^ 32.
Proof.
  unfold wrap_int.
  rewrite Zminus_mod_idemp_l. f_equal. lia.
Qed.

Lemma wrap_int_congr (a b : Z) :
  a mod 2 ^ 32 = b mod 2 ^ 32 → wrap_int a = wrap_int b.
Proof.
  intros H. unfold wrap_int. f_equal.
  rewrite <- (Zplus_mod_idemp_l a), H, Zplus_mod_idemp_l. reflexivity.
Qed.

Lemma wrap_int_range (z : Z) : in_int (wrap_int z).
Proof.
  unfold in_int, wrap_int, INT_MIN, INT_MAX.
  pose proof (Z.mod_pos_bound (z + 2 ^ 31) (2 ^ 32)). lia.
Qed.

Lemma wrap_int_id (z : Z) : in_int z → wrap_int z = z.
Proof.
  unfold in_int, wrap_int, INT_MIN, INT_MAX. intros H.
  rewrite Z.mod_small; lia.
Qed.

Lemma wrap_int_add (a b : Z) :
  wrap_int (wrap_int a + b) = wrap_int (a + b).
Proof.
  apply wrap_int_congr.
  rewrite <- (Zplus_mod_idemp_l (wrap_int a)), wrap_int_mod.
  apply Zplus_mod_idemp_l.
Qed.

Lemma wrap_int_add_r (a b : Z) :
  wrap_int (a + wrap_int b) = wrap_int (a + b).
Proof. rewrite (Z.add_comm a), wrap_int_add. f_equal. lia. Qed.

(** ** Operators on matrices of different sizes *)

(** C9. Applied to concrete matrices of different sizes, each of the
    compound assignments [+=], [-=], [*=], [/=] throws the
    [std::invalid_argument] of its size check before it writes to the
    left-hand matrix, which is left as it was; each of the binary
    operators [+], [-], [*], [/] throws the same exception and returns
    no matrix. *)
Theorem operators_dimension_mismatch (n_threads : N)
    (this m : ConcreteSquareMatrix) :
  n this ≠ n m →
  (∀ op_assign,
     op_assign ∈ [Concrete_add_assign n_threads;
                  Concrete_sub_assign n_threads;
                  Concrete_mul_assign; Concrete_div_assign] →
     ∃ e, DimensionMismatchError e ∧ op_assign this m = (Throw e, this)) ∧
  (∀ op,
     op ∈ [Concrete_add n_threads; Concrete_sub n_threads;
           Concrete_mul; Concrete_div] →
     ∃ e, DimensionMismatchError e ∧ op this m = Throw e).
Proof.
  intros Hne. apply N.eqb_neq in Hne.
  assert (Hadd : ∀ x func, n x = n this →
    Concrete_assign n_threads x m func
    = (Throw (invalid_argument "Dimension mismatch."), x)).
  { intros x func Hx. unfold Concrete_assign. rewrite Hx, Hne. reflexivity. }
  assert (Hmul : ∀ x, n x = n this →
    Concrete_mul_assign x m
    = (Throw (invalid_argument "Dimension mismatch"), x)).
  { intros x Hx. unfold Concrete_mul_assign. rewrite Hx, Hne. reflexivity. }
  assert (Hdiv : ∀ x, n x = n this →
    Concrete_div_assign x m
    = (Throw (invalid_argument "Dimension mismatch"), x)).
  { intros x Hx. unfold Concrete_div_assign, Concrete_mul_assign.
    rewrite transpose_n, Hx, Hne. reflexivity. }
  split; intros op Hop; repeat (apply elem_of_cons in Hop as [->|Hop]);
    try (apply elem_of_nil in Hop; contradiction).
  - eexists; split; [left; reflexivity|]. now apply Hadd.
  - eexists; split; [left; reflexivity|]. now apply Hadd.
  - eexists; split; [right; reflexivity|]. now apply Hmul.
  - eexists; split; [right; reflexivity|]. now apply Hdiv.
  - eexists; split; [left; reflexivity|].
    unfold Concrete_add, binary, Concrete_add_assign. now rewrite Hadd.
  - eexists; split; [left; reflexivity|].
    unfold Concrete_sub, binary, Concrete_sub_assign. now rewrite Hadd.
  - eexists; split; [right; reflexivity|].
    unfold Concrete_mul, binary. now rewrite Hmul.
  - eexists; split; [right; reflexivity|].
    unfold Concrete_div, binary. now rewrite Hdiv.
Qed.

Lemma operators_dimension_mismatch_witness :
  n m_1234 ≠ n m_123456789 ∧
  ∃ e, DimensionMismatchError e ∧
       Concrete_div_assign m_1234 m_123456789 = (Throw e, m_1234).
Proof.
  assert (Hne : n m_1234 ≠ n m_123456789) by discriminate.
  split; [exact Hne|].
  apply (proj1 (operators_dimension_mismatch 4 m_1234 m_123456789 Hne)).
  set_solver.
Defined.

(** ** Multiplication and division *)

Lemma transform_zip_with (row col iev : list IntElement) :
  length col = length row → length iev = length row →
  transform row col iev = zip_with IntElement_mul row col.
Proof.
  revert col iev. induction row as [|a row IH]; intros [|b col] [|z iev];
    simpl; try discriminate; try reflexivity.
  intros [= Hc] [= Hi]. now rewrite IH.
Qed.

Lemma fold_sum_wrap (xs ys : list Z) (acc : Z) :
  fold_left (λ sum e, wrap_int (sum + e)) (zip_with IntElement_mul xs ys)
    (wrap_int acc)
  = wrap_int (acc + sum_Z (zip_with Z.mul xs ys)).
Proof.
  revert ys acc. induction xs as [|x xs IH]; intros [|y ys] acc; simpl;
    try (f_equal; lia).
  unfold IntElement_mul at 2. rewrite wrap_int_add, wrap_int_add_r, IH.
  f_equal. lia.
Qed.

Lemma dot_sum (k : N) (row col : list IntElement) :
  length row = N.to_nat k → length col = N.to_nat k →
  dot k row col = wrap_int (sum_Z (zip_with Z.mul row col)).
Proof.
  intros Hrow Hcol. unfold dot.
  rewrite transform_zip_with by (rewrite ?length_replicate; lia).
  apply (fold_sum_wrap row col 0).
Qed.

Lemma Concrete_mul_assign_Ok (M N : ConcreteSquareMatrix) :
  n M = n N →
  Concrete_mul_assign M N
  = (Ok (),
     Matrix (n M)
       (map (λ row, map (λ col, dot (n M) row col) (elements (transpose N)))
          (elements M))).
Proof.
  intros H. unfold Concrete_mul_assign. rewrite H, N.eqb_refl. reflexivity.
Qed.

Lemma Concrete_mul_Ok (M N : ConcreteSquareMatrix) :
  n M = n N →
  Concrete_mul M N
  = Ok (Matrix (n M)
          (map (λ row, map (λ col, dot (n M) row col) (elements (transpose N)))
             (elements M))).
Proof.
  intros H. unfold Concrete_mul, binary.
  rewrite copy_matrix_id, Concrete_mul_assign_Ok by assumption. reflexivity.
Qed.

Lemma product_square (M N : ConcreteSquareMatrix) (f : list Z → list Z → Z) :
  square M → square N → n M = n N →
  square (Matrix (n M)
            (map (λ row, map (λ col, f row col) (elements (transpose N)))
               (elements M))).
Proof.
  intros HM HN Hn. split; cbn [n elements].
  - rewrite length_map. apply HM.
  - apply Forall_forall. intros r Hr.
    apply list_elem_of_fmap in Hr as (row & -> & _).
    rewrite length_map, transpose_rows_length by assumption. lia.
Qed.

Lemma product_cell (M N : ConcreteSquareMatrix) (i j : nat) :
  square M → square N → n M = n N →
  (i < N.to_nat (n M))%nat → (j < N.to_nat (n M))%nat →
  cell (Matrix (n M)
          (map (λ row, map (λ col, dot (n M) row col)
                         (elements (transpose N)))
             (elements M))) i j
  = row_times_column M N i j.
Proof.
  intros HM HN Hn Hi Hj. unfold cell, row_times_column. cbn [elements].
  rewrite list_lookup_fmap.
  destruct (elements M !! i) as [row|] eqn:Hrow; [|reflexivity]. cbn.
  rewrite list_lookup_fmap, transpose_rows by (assumption || lia). cbn.
  f_equal. apply dot_sum.
  - apply (square_row _ _ _ HM Hrow).
  - rewrite column_length.
    + rewrite (square_rows _ HN). lia.
    + eapply Forall_impl; [apply square_Forall_length, HN|].
      simpl. intros; lia.
Qed.

(** C4. For square concrete matrices [M] and [N] of one size, [M / N]
    is [M * transpose(N)]; the product is a square matrix of that size
    whose cell in row [i] and column [j] is the dot product of row [i] of
    the left matrix and column [j] of the right one; so [M / M] is
    [M * transpose(M)], which for the matrix 1..9 of the test suite is
    [[14,32,50][32,77,122][50,122,194]] and not the identity. *)
Theorem division_is_product_by_transpose (M N : ConcreteSquareMatrix) :
  square M → square N → n M = n N →
  Concrete_div M N = Concrete_mul M (transpose N) ∧
  (∃ P, Concrete_mul M N = Ok P ∧ square P ∧ n P = n M ∧
     ∀ i j, (i < N.to_nat (n M))%nat → (j < N.to_nat (n M))%nat →
       cell P i j = row_times_column M N i j) ∧
  (∃ Q, Concrete_div M N = Ok Q ∧ square Q ∧ n Q = n M ∧
     ∀ i j, (i < N.to_nat (n M))%nat → (j < N.to_nat (n M))%nat →
       cell Q i j = row_times_column M (transpose N) i j) ∧
  Concrete_div M M = Concrete_mul M (transpose M) ∧
  Concrete_div m_123456789 m_123456789
  = Ok (Matrix 3 [[14; 32; 50]; [32; 77; 122]; [50; 122; 194]]) ∧
  Concrete_div m_123456789 m_123456789 ≠ Ok identity_3.
Proof.
  intros HM HN Hn.
  assert (Hprod : ∀ N', square N' → n M = n N' →
    ∃ P, Concrete_mul M N' = Ok P ∧ square P ∧ n P = n M ∧
      ∀ i j, (i < N.to_nat (n M))%nat → (j < N.to_nat (n M))%nat →
        cell P i j = row_times_column M N' i j).
  { intros N' HN' Hn'. eexists. split; [now apply Concrete_mul_Ok|].
    split; [now apply product_square|]. split; [reflexivity|].
    intros i j Hi Hj. now apply product_cell. }
  split; [reflexivity|]. split; [now apply Hprod|].
  split; [apply (Hprod (transpose N)); [now apply transpose_square|exact Hn]|].
  split; [reflexivity|]. split; [reflexivity|discriminate].
Qed.

Lemma square_m_123456789 : square m_123456789.
Proof. apply square_squareb. reflexivity. Qed.

Lemma division_is_product_by_transpose_witness :
  Concrete_div m_1234 m_1234 = Concrete_mul m_1234 (transpose m_1234).
Proof.
  exact (proj1 (division_is_product_by_transpose m_1234 m_1234
                  square_m_1234 square_m_1234 eq_refl)).
Defined.

(** ** The block engine *)

Section write.
Context {T : Type}.
Implicit Types (rows : list (list T)) (results : list T).

Lemma same_shape_refl rows : same_shape rows rows.
Proof. induction rows; constructor; auto. Qed.

Lemma same_shape_trans rows1 rows2 rows3 :
  same_shape rows1 rows2 → same_shape rows2 rows3 → same_shape rows1 rows3.
Proof.
  intros H. revert rows3. induction H as [|r1 r2 g1 g2 Hr _ IH];
    intros rows3 H23; inversion H23; subst; constructor.
  - congruence.
  - apply IH. assumption.
Qed.

Lemma same_shape_square (k : N) rows rows' :
  same_shape rows rows' → square (Matrix k rows) → square (Matrix k rows').
Proof.
  intros H [Hn Hrows]. split; cbn [n elements] in *.
  - rewrite <- (Forall2_length _ _ _ H). exact Hn.
  - clear Hn. induction H as [|r r' g g' Hr _ IH]; [constructor|].
    apply Forall_cons in Hrows as [Hk Hg]. constructor; [|auto].
    rewrite <- Hr. exact Hk.
Qed.

Lemma write_flat_concat rows (i : nat) (v : T) :
  concat (write_flat rows i v) = <[i := v]> (concat rows).
Proof.
  revert i. induction rows as [|row rows IH]; intros i; [reflexivity|].
  simpl. destruct (Nat.ltb_spec i (length row)) as [Hlt|Hge]; simpl.
  - symmetry. now apply insert_app_l.
  - rewrite IH. symmetry. now apply insert_app_r_alt.
Qed.

Lemma write_flat_shape rows (i : nat) (v : T) :
  same_shape rows (write_flat rows i v).
Proof.
  revert i. induction rows as [|row rows IH]; intros i; [constructor|].
  simpl. destruct (i <? length row)%nat.
  - constructor; [now rewrite length_insert|apply same_shape_refl].
  - constructor; [reflexivity|apply IH].
Qed.

Lemma write_back_shape rows (i : nat) results :
  same_shape rows (write_back rows i results).
Proof.
  revert rows i. induction results as [|res results IH]; intros rows i.
  - apply same_shape_refl.
  - simpl. eapply same_shape_trans; [apply write_flat_shape|apply IH].
Qed.

Lemma write_back_concat rows (i : nat) results :
  (i + length results ≤ length (concat rows))%nat →
  concat (write_back rows i results)
  = take i (concat rows) ++ results ++ drop (i + length results) (concat rows).
Proof.
  revert rows i. induction results as [|res results IH]; intros rows i Hlen.
  - simpl. now rewrite Nat.add_0_r, take_drop.
  - simpl in *. rewrite IH; rewrite write_flat_concat;
      [|rewrite length_insert; lia].
    rewrite drop_insert_lt by lia.
    rewrite insert_take_drop by lia.
    replace (S i) with (i + 1)%nat at 1 by lia.
    rewrite take_app_add' by (rewrite length_take_le; lia).
    simpl. rewrite take_0, <- app_assoc. simpl.
    now rewrite Nat.add_succ_r.
Qed.
End write.

Lemma mapM_fmap_Ok {A B} (f : A → result B) (g : A → B) (l : list A) :
  (∀ x, x ∈ l → f x = Ok (g x)) → mapM f l = Ok (g <$> l).
Proof.
  induction l as [|x l IH]; intros H; [reflexivity|].
  rewrite mapM_cons, (H x), IH by set_solver. reflexivity.
Qed.

Lemma ceil_div_le (a b : N) : (0 < b → a ≤ ceil_div a b * b)%N.
Proof.
  intros Hb. unfold ceil_div.
  pose proof (N.div_mod a b ltac:(lia)) as Hdm.
  pose proof (N.mod_lt a b ltac:(lia)) as Hlt.
  destruct (N.eqb_spec (a mod b) 0); lia.
Qed.

(** The entries that [t_oper] reaches: [blockct] blocks of [blocksz]. *)
Lemma t_covered (n_threads m_size : N) :
  (t_blocksz n_threads m_size * t_blockct n_threads m_size ≤ m_size)%N.
Proof.
  unfold t_blockct.
  destruct (N.eqb_spec (t_blocksz n_threads m_size) 0) as [->|Hne]; [lia|].
  now apply N.Div0.mul_div_le.
Qed.

Section t_oper_facts.
Variable n_threads : N.
Variables this rhs : ConcreteSquareMatrix.
Variable func : IntElement → IntElement → IntElement.
Hypothesis square_this : square this.
Hypothesis square_rhs : square rhs.
Hypothesis same_n : n this = n rhs.
Hypothesis m_size_fits : (n this * n this < UINT_RANGE)%N.

#[local] Abbreviation m_size := (n this * n this)%N.
#[local] Abbreviation blocksz := (t_blocksz n_threads m_size).
#[local] Abbreviation blockct := (t_blockct n_threads m_size).
#[local] Abbreviation blk := (t_block this rhs blocksz func).

Lemma t_compute_Ok (myturn : N) :
  (myturn < blockct)%N →
  t_compute this rhs blocksz func myturn = Ok (blk myturn).
Proof.
  intros Hturn. pose proof (t_covered n_threads m_size) as Hcov.
  assert (Hend : (blocksz * myturn + blocksz ≤ m_size)%N) by nia.
  unfold t_compute. rewrite umul_exact by nia.
  rewrite (block_within this) by (assumption || exact Hend).
  rewrite (block_within rhs);
    [reflexivity|assumption|rewrite <- same_n; assumption
    |rewrite <- same_n; exact Hend].
Qed.

Lemma blk_length (myturn : N) :
  (myturn < blockct)%N → length (blk myturn) = N.to_nat blocksz.
Proof.
  intros Hturn. pose proof (t_covered n_threads m_size) as Hcov.
  assert (Hend : (blocksz * myturn + blocksz ≤ m_size)%N) by nia.
  unfold t_block, sub_sequence.
  rewrite length_zip_with_l_eq; rewrite !length_take_le; try reflexivity;
    rewrite length_drop, unroll_length by assumption;
    rewrite <- ?same_n; lia.
Qed.

Lemma t_writes (count : nat) :
  (N.of_nat count ≤ blockct)%N →
  let rows :=
    fold_left (λ rows myturn,
                 write_back rows (N.to_nat (umul blocksz myturn))
                   (blk myturn))
      (t_turns (N.of_nat count)) (elements this) in
  same_shape (elements this) rows ∧
  concat rows
  = elementwise_upto func (N.to_nat blocksz * count)
      (unroll this) (unroll rhs).
Proof.
  pose proof (t_covered n_threads m_size) as Hcov.
  pose proof (unroll_length this square_this) as HlenA.
  pose proof (unroll_length rhs square_rhs) as HlenB.
  rewrite <- same_n in HlenB.
  induction count as [|count IH]; intros Hle rows.
  - subst rows. simpl. split; [apply same_shape_refl|].
    unfold elementwise_upto. now rewrite Nat.mul_0_r.
  - destruct IH as [IHshape IHconcat]; [lia|].
    assert (Hturn : (N.of_nat count < blockct)%N) by lia.
    assert (Hend : (N.to_nat blocksz * count + N.to_nat blocksz
                    ≤ N.to_nat m_size)%nat) by nia.
    subst rows. unfold t_turns in *.
    rewrite Nat2N.id in *. rewrite seq_S, map_app, fold_left_app.
    simpl. set (rows := fold_left _ _ _) in *.
    rewrite umul_exact by nia.
    split; [eapply same_shape_trans; [exact IHshape|apply write_back_shape]|].
    rewrite write_back_concat; rewrite IHconcat, blk_length by assumption;
      unfold elementwise_upto.
    2:{ rewrite length_app, length_zip_with_l_eq, length_take_le, length_drop;
          rewrite ?length_take_le; lia. }
    replace (N.to_nat (blocksz * N.of_nat count))
      with (N.to_nat blocksz * count)%nat by lia.
    rewrite take_app_length'
      by (rewrite length_zip_with_l_eq; rewrite !length_take_le; lia).
    rewrite drop_app_add'
      by (rewrite length_zip_with_l_eq; rewrite !length_take_le; lia).
    rewrite drop_drop, app_assoc. f_equal; [|f_equal; lia].
    unfold t_block, sub_sequence.
    replace (N.to_nat (blocksz * N.of_nat count))
      with (N.to_nat blocksz * count)%nat by lia.
    rewrite <- zip_with_app by (rewrite !length_take_le; lia).
    rewrite !take_take_drop. do 2 f_equal; lia.
Qed.

(** What [t_oper] returns, for every number of threads. *)
Lemma t_oper_Ok :
  ∃ this',
    t_oper n_threads this rhs func = Ok this' ∧
    n this' = n this ∧ square this' ∧
    unroll this'
    = elementwise_upto func (N.to_nat (blocksz * blockct))
        (unroll this) (unroll rhs).
Proof.
  unfold t_oper. cbv zeta.
  rewrite (mapM_fmap_Ok _ blk).
  2:{ intros myturn Hin. apply t_compute_Ok. unfold t_turns in Hin.
      apply list_elem_of_fmap in Hin as (k & -> & Hk).
      apply elem_of_seq in Hk. lia. }
  eexists. split; [reflexivity|]. split; [reflexivity|].
  destruct (t_writes (N.to_nat blockct)) as [Hshape Hconcat]; [lia|].
  rewrite N2Nat.id in *.
  assert (Hfold : ∀ turns rows,
    fold_left (t_write blocksz) (zip turns (blk <$> turns)) rows
    = fold_left (λ rows myturn,
                   write_back rows (N.to_nat (umul blocksz myturn))
                     (blk myturn)) turns rows).
  { induction turns as [|t turns IHt]; intros rows; [reflexivity|].
    simpl. rewrite IHt. reflexivity. }
  rewrite Hfold. split.
  - eapply same_shape_square; [exact Hshape|].
    destruct this; exact square_this.
  - unfold unroll at 1. cbn [elements]. rewrite Hconcat.
    f_equal. lia.
Qed.
End t_oper_facts.

(** With one thread there is one block, the whole matrix, and [t_oper]
    leaves [func] of every pair of entries. *)
Lemma t_oper_one_thread (this rhs : ConcreteSquareMatrix)
    (func : IntElement → IntElement → IntElement) :
  square this → square rhs → n this = n rhs →
  (n this * n this < UINT_RANGE)%N →
  ∃ this', t_oper 1 this rhs func = Ok this' ∧ n this' = n this ∧
    square this' ∧
    unroll this' = zip_with func (unroll this) (unroll rhs).
Proof.
  intros Hthis Hrhs Hn Hfit.
  destruct (t_oper_Ok 1 this rhs func Hthis Hrhs Hn Hfit)
    as (this' & Hok & Hn' & Hsq & Hflat).
  exists this'. repeat split; try assumption; try apply Hsq.
  rewrite Hflat. unfold elementwise_upto.
  assert (Hall : (t_blocksz 1 (n this * n this)
                  * t_blockct 1 (n this * n this) = n this * n this)%N).
  { unfold t_blockct, t_blocksz, ceil_div. rewrite N.mod_1_r, N.div_1_r.
    simpl. destruct (N.eqb_spec (n this * n this) 0) as [->|Hne];
      [reflexivity|].
    rewrite N.div_same by assumption. lia. }
  rewrite Hall, !take_ge, drop_ge, app_nil_r;
    rewrite ?unroll_length by assumption; rewrite <- ?Hn; try lia.
  reflexivity.
Qed.

(** C1, at two threads.  For the 3×3 matrix 1..9 the engine takes
    [blocksz = 5] and [blockct = 1], where the ceiling of 9 / 5 is 2:
    the quotient is taken in [unsigned int] before [ceil] sees it.  One
    block is processed, and [m += m] leaves the entries 5 to 8 of the
    unrolling as they were. *)
Theorem add_assign_two_threads :
  t_blocksz 2 9 = 5%N ∧ t_blockct 2 9 = 1%N ∧ ceil_div 9 5 = 2%N ∧
  Concrete_add_assign 2 m_123456789 m_123456789
  = (Ok (), Matrix 3 [[2; 4; 6]; [8; 10; 6]; [7; 8; 9]]) ∧
  Concrete_sub_assign 2 m_123456789 m_123456789
  = (Ok (), Matrix 3 [[0; 0; 0]; [0; 0; 6]; [7; 8; 9]]).
Proof. repeat split; reflexivity. Qed.

(** C6, at one and two threads.  The sum and the difference of the 3×3
    matrix 1..9 with itself depend on [n_threads]. *)
Theorem add_depends_on_n_threads :
  Concrete_add 1 m_123456789 m_123456789
  = Ok (Matrix 3 [[2; 4; 6]; [8; 10; 12]; [14; 16; 18]]) ∧
  Concrete_add 2 m_123456789 m_123456789
  = Ok (Matrix 3 [[2; 4; 6]; [8; 10; 6]; [7; 8; 9]]) ∧
  Concrete_sub 1 m_123456789 m_123456789
  = Ok (Matrix 3 [[0; 0; 0]; [0; 0; 0]; [0; 0; 0]]) ∧
  Concrete_sub 2 m_123456789 m_123456789
  = Ok (Matrix 3 [[0; 0; 0]; [0; 0; 6]; [7; 8; 9]]).
Proof. repeat split; reflexivity. Qed.

(** ** The stream *)

Lemma skipws_length (buf : list ascii) :
  (length (skipws buf) ≤ length buf)%nat.
Proof.
  induction buf as [|c buf IH]; simpl; [lia|].
  destruct (isspace c); simpl; lia.
Qed.

Lemma get_char_rest (ss ss' : sstream) (c c' : ascii) :
  get_char ss c = (ss', c') →
  (length (rest ss') ≤ length (rest ss))%nat ∧
  (good ss' = true → (length (rest ss') < length (rest ss))%nat).
Proof.
  unfold get_char. pose proof (skipws_length (rest ss)) as Hws.
  destruct (good ss) eqn:Hgood.
  - destruct (skipws (rest ss)) as [|x buf]; intros [= <- <-]; simpl in *;
      split; try lia; discriminate.
  - intros [= <- <-]. split; [lia|congruence].
Qed.

Lemma get_digits_rest (buf buf' : list ascii) (acc v : Z) (found found' : bool) :
  get_digits buf acc found = (v, found', buf') →
  (length buf' ≤ length buf)%nat ∧
  (found = false → found' = true → (length buf' < length buf)%nat).
Proof.
  revert acc found. induction buf as [|c buf IH]; intros acc found; simpl.
  - intros [= <- <- <-]. simpl. split; [lia|congruence].
  - destruct (isdigit c).
    + intros H. apply IH in H as [H1 H2]. simpl. split; lia.
    + intros [= <- <- <-]. simpl. split; [lia|congruence].
Qed.

Lemma get_int_rest (ss ss' : sstream) (a a' : Z) :
  get_int ss a = (ss', a') →
  (length (rest ss') ≤ length (rest ss))%nat ∧
  (good ss' = true → (length (rest ss') < length (rest ss))%nat).
Proof.
  unfold get_int. pose proof (skipws_length (rest ss)) as Hws.
  destruct (good ss) eqn:Hgood; [|intros [= <- <-]; split; [lia|congruence]].
  destruct (skipws (rest ss)) as [|c buf];
    [intros [= <- <-]; simpl; split; [lia|discriminate]|].
  simpl in Hws.
  destruct (if Ascii.eqb c "-" then (true, buf)
            else if Ascii.eqb c "+" then (false, buf)
            else (false, c :: buf)) as [negative buf1] eqn:Hsign.
  assert (Hbuf1 : (length buf1 ≤ S (length buf))%nat).
  { destruct (Ascii.eqb c "-"); [|destruct (Ascii.eqb c "+")];
      injection Hsign as <- <-; simpl; lia. }
  destruct (get_digits buf1 0 false) as [[v found] buf2] eqn:Hdigits.
  apply get_digits_rest in Hdigits as [Hle Hlt].
  destruct found; simpl.
  - specialize (Hlt eq_refl eq_refl).
    repeat case_match; intros [= <- <-]; simpl; split; lia || discriminate.
  - intros [= <- <-]. simpl. split; [lia|discriminate].
Qed.

(** ** The parsers return *)

Lemma Concrete_row_returns (fuel : nat) (ss : sstream) (c : ascii) (a : Z)
    (row : list IntElement) :
  (length (rest ss) < fuel)%nat →
  ∃ r, Concrete_row fuel ss c a row = Some r ∧
    ∀ ss' c' a' row', r = Ok (ss', c', a', row') →
      (length (rest ss') < length (rest ss))%nat.
Proof.
  revert ss c a row. induction fuel as [|fuel IH]; intros ss c a row Hfuel;
    [lia|].
  simpl. destruct (get_int ss a) as [ss1 a1] eqn:Hint.
  destruct (get_char ss1 c) as [ss2 c2] eqn:Hchar.
  apply get_int_rest in Hint as [Hint _].
  apply get_char_rest in Hchar as [_ Hchar].
  destruct (good ss2); simpl.
  - specialize (Hchar eq_refl). destruct (Ascii.eqb c2 ",").
    + destruct (IH ss2 c2 a1 (row ++ [a1])) as (r & -> & Hr); [lia|].
      exists r. split; [reflexivity|]. intros ss' c' a' row' Heq.
      specialize (Hr _ _ _ _ Heq). lia.
    + eexists. split; [reflexivity|]. intros ss' c' a' row' [= <- _ _ _]. lia.
  - eexists. split; [reflexivity|]. discriminate.
Qed.

Lemma Symbolic_row_returns (fuel : nat) (ss : sstream) (c : ascii) (a : Z)
    (row : list Element) :
  (length (rest ss) < fuel)%nat →
  ∃ r, Symbolic_row fuel ss c a row = Some r ∧
    ∀ ss' c' a' row', r = Ok (ss', c', a', row') →
      (length (rest ss') < length (rest ss))%nat.
Proof.
  revert ss c a row. induction fuel as [|fuel IH]; intros ss c a row Hfuel;
    [lia|].
  simpl. destruct (get_int ss a) as [ss1 a1] eqn:Hint.
  apply get_int_rest in Hint as [Hint1 Hint2].
  assert (Hstep : ∀ ss2 c2 row2 ss3 c3,
    (length (rest ss2) < length (rest ss))%nat →
    get_char ss2 c2 = (ss3, c3) →
    ∃ r, (if Ascii.eqb c3 "," then Symbolic_row fuel ss3 c3 a1 row2
          else Some (Ok (ss3, c3, a1, row2))) = Some r ∧
      ∀ ss' c' a' row', r = Ok (ss', c', a', row') →
        (length (rest ss') < length (rest ss))%nat).
  { intros ss2 c2 row2 ss3 c3 Hlt Hchar.
    apply get_char_rest in Hchar as [Hchar _].
    destruct (Ascii.eqb c3 ",").
    - destruct (IH ss3 c3 a1 row2) as (r & -> & Hr); [lia|].
      exists r. split; [reflexivity|]. intros ss' c' a' row' Heq.
      specialize (Hr _ _ _ _ Heq). lia.
    - eexists. split; [reflexivity|].
      intros ss' c' a' row' [= <- _ _ _]. lia. }
  destruct (good ss1) eqn:Hgood1; simpl.
  - destruct (get_char ss1 c) as [ss3 c3] eqn:Hchar.
    eapply Hstep; [|exact Hchar]. auto.
  - destruct (get_char (clear ss1) c) as [ss2 c2] eqn:Hclear.
    apply get_char_rest in Hclear as [_ Hclear]. simpl in Hclear.
    destruct (good ss2); simpl.
    + destruct (isalpha c2); simpl.
      * destruct (get_char ss2 c2) as [ss3 c3] eqn:Hchar.
        eapply Hstep; [|exact Hchar]. specialize (Hclear eq_refl). lia.
      * eexists. split; [reflexivity|]. discriminate.
    + eexists. split; [reflexivity|]. discriminate.
Qed.

Lemma length_list_ascii_of_string (s : string) :
  length (list_ascii_of_string s) = String.length s.
Proof. induction s as [|c s IH]; simpl; [reflexivity|now rewrite IH]. Qed.

Section parse_facts.
Context {T : Type}.
Variable parse_row :
  nat → sstream → ascii → Z → list T →
  option (result (sstream * ascii * Z * list T)).
Variable what : string.

Hypothesis parse_row_returns : ∀ fuel ss c a row,
  (length (rest ss) < fuel)%nat →
  ∃ r, parse_row fuel ss c a row = Some r ∧
    ∀ ss' c' a' row', r = Ok (ss', c', a', row') →
      (length (rest ss') < length (rest ss))%nat.

Lemma parse_rows_returns (fuel : nat) (l : locals T) :
  (length (rest (l_ss l)) < fuel)%nat →
  ∃ r, parse_rows parse_row what fuel l = Some r.
Proof.
  revert l. induction fuel as [|fuel IH]; intros l Hfuel; [lia|].
  simpl. destruct (negb (Ascii.eqb (l_c l) "]") && good (l_ss l));
    [|eexists; reflexivity].
  destruct (negb (Ascii.eqb (l_c l) "[") || negb (good (l_ss l)));
    [eexists; reflexivity|].
  destruct (parse_row_returns (S fuel) (l_ss l) (l_c l) (l_a l) [] Hfuel)
    as (r & -> & Hr).
  destruct r as [[[[ss c] a] row]|e|]; try (eexists; reflexivity).
  specialize (Hr _ _ _ _ eq_refl).
  destruct (negb (Ascii.eqb c "]")); [eexists; reflexivity|].
  destruct ((length (l_elements l) =? 0)%nat
            || (N.of_nat (length row) =? l_n l)%N);
    [|eexists; reflexivity].
  destruct (get_char ss c) as [ss' c'] eqn:Hchar.
  apply get_char_rest in Hchar as [Hchar _].
  apply IH. simpl. lia.
Qed.

Lemma parse_rows_invariant (fuel : nat) (l l' : locals T) :
  rows_invariant l →
  parse_rows parse_row what fuel l = Some (Ok l') →
  rows_invariant l'.
Proof.
  revert l. induction fuel as [|fuel IH]; intros l Hinv; [discriminate|].
  simpl. destruct (negb (Ascii.eqb (l_c l) "]") && good (l_ss l));
    [|intros [= <-]; exact Hinv].
  destruct (negb (Ascii.eqb (l_c l) "[") || negb (good (l_ss l)));
    [discriminate|].
  destruct (parse_row (S fuel) (l_ss l) (l_c l) (l_a l) [])
    as [[[[[ss c] a] row]|e|]|]; try discriminate.
  destruct (negb (Ascii.eqb c "]")); [discriminate|].
  destruct (Nat.eqb_spec (length (l_elements l)) 0) as [Hnil|Hcons]; simpl.
  - destruct (get_char ss c) as [ss' c']. apply IH.
    apply length_zero_iff_nil in Hnil. rewrite Hnil.
    split; simpl; [repeat constructor|discriminate].
  - destruct (N.eqb_spec (N.of_nat (length row)) (l_n l)) as [Hrow|];
      [|discriminate].
    destruct (get_char ss c) as [ss' c']. apply IH.
    destruct Hinv as [Hall _]. split; simpl.
    + apply Forall_app. split; [exact Hall|]. repeat constructor. exact Hrow.
    + intros _ Happ. apply app_eq_nil in Happ as [_ [=]].
Qed.

Lemma parse_head_returns (str_m : string) :
  ∃ r, parse_head parse_row what (parse_fuel str_m) str_m = Some r.
Proof.
  unfold parse_head.
  destruct (get_char _ "000") as [ss c] eqn:H1.
  apply get_char_rest in H1 as [H1 _]. simpl in H1.
  rewrite length_list_ascii_of_string in H1.
  destruct (negb (Ascii.eqb c "[") || negb (good ss));
    [eexists; reflexivity|].
  destruct (get_char ss c) as [ss' c'] eqn:H2.
  apply get_char_rest in H2 as [H2 _].
  destruct (parse_rows_returns (parse_fuel str_m)
              (Locals ss' c' 0 false 0%N [])) as [r ->];
    [unfold parse_fuel; simpl; lia|].
  destruct r as [l|e|]; try (eexists; reflexivity).
  repeat case_match; eexists; reflexivity.
Qed.

Lemma parse_head_square (fuel : nat) (str_m : string) (l : locals T) :
  parse_head parse_row what fuel str_m = Some (Ok l) →
  square (Matrix (l_n l) (l_elements l)) ∧ (1 ≤ l_n l)%N ∧
  good (l_ss l) = true.
Proof.
  unfold parse_head.
  destruct (get_char _ "000") as [ss c].
  destruct (negb (Ascii.eqb c "[") || negb (good ss)); [discriminate|].
  destruct (get_char ss c) as [ss' c'].
  destruct (parse_rows parse_row what fuel (Locals ss' c' 0 false 0%N []))
    as [[l'|e|]|] eqn:Hrows; try discriminate.
  apply parse_rows_invariant in Hrows as [Hall Hlooped];
    [|split; simpl; [constructor|discriminate]].
  destruct (l_looped l') eqn:Hl; [|discriminate]. simpl.
  destruct (N.eqb_spec (N.of_nat (length (l_elements l'))) (l_n l'))
    as [Hn|]; [|discriminate]. simpl.
  destruct (good (l_ss l')) eqn:Hgood; [|discriminate]. simpl.
  intros [= <-]. split; [split; assumption|]. split; [|exact Hgood].
  specialize (Hlooped eq_refl).
  destruct (l_elements l'); [contradiction|]. simpl in Hn. lia.
Qed.

Lemma parse_tail_matrix (l : locals T) (m : ElementarySquareMatrix T) :
  parse_tail l = Ok m → m = Matrix (l_n l) (l_elements l).
Proof.
  unfold parse_tail. destruct (get_char (l_ss l) (l_c l)) as [ss c].
  destruct (good ss); [discriminate|]. now intros [= <-].
Qed.
End parse_facts.

(** The constructors from text return on every text: [None], which
    stands for a loop that has not ended, is not their result. *)
Lemma Concrete_parse_returns (str_m : string) :
  ∃ r, Concrete_parse str_m = Some r.
Proof.
  unfold Concrete_parse, Concrete_parse_fuel.
  destruct (parse_head_returns Concrete_row "Invalid string (row size)."
              Concrete_row_returns str_m) as [r ->].
  destruct r as [l|e|]; try (eexists; reflexivity).
  destruct (negb (Ascii.eqb (back str_m) "]")); eexists; reflexivity.
Qed.

Lemma Symbolic_parse_returns (str_m : string) :
  ∃ r, Symbolic_parse str_m = Some r.
Proof.
  unfold Symbolic_parse, Symbolic_parse_fuel.
  destruct (parse_head_returns Symbolic_row "Invalid string."
              Symbolic_row_returns str_m) as [r ->].
  destruct r as [l|e|]; eexists; reflexivity.
Qed.

Lemma Concrete_parse_square (str_m : string) (m : ConcreteSquareMatrix) :
  Concrete_parse str_m = Some (Ok m) → square m ∧ (1 ≤ n m)%N.
Proof.
  unfold Concrete_parse, Concrete_parse_fuel.
  destruct (parse_head _ _ _ _) as [[l|e|]|] eqn:Hhead; try discriminate.
  apply parse_head_square in Hhead as (Hsq & Hn & _).
  destruct (negb (Ascii.eqb (back str_m) "]")); [discriminate|].
  intros [= Htail]. apply parse_tail_matrix in Htail as ->. auto.
Qed.

Lemma Symbolic_parse_square (str_m : string) (m : SymbolicSquareMatrix) :
  Symbolic_parse str_m = Some (Ok m) → square m ∧ (1 ≤ n m)%N.
Proof.
  unfold Symbolic_parse, Symbolic_parse_fuel.
  destruct (parse_head _ _ _ _) as [[l|e|]|] eqn:Hhead; try discriminate.
  apply parse_head_square in Hhead as (Hsq & Hn & _).
  intros [= Htail]. apply parse_tail_matrix in Htail as ->. auto.
Qed.

(** ** The arithmetic operators return square matrices *)

Lemma Concrete_assign_Ok (n_threads : N) (this m : ConcreteSquareMatrix)
    (func : IntElement → IntElement → IntElement) :
  square this → square m → n this = n m →
  (n this * n this < UINT_RANGE)%N →
  ∃ this', Concrete_assign n_threads this m func = (Ok (), this') ∧
    n this' = n this ∧ square this' ∧
    unroll this'
    = elementwise_upto func
        (N.to_nat (t_blocksz n_threads (n this * n this)
                   * t_blockct n_threads (n this * n this)))
        (unroll this) (unroll m).
Proof.
  intros Hthis Hm Hn Hfit.
  destruct (t_oper_Ok n_threads this m func Hthis Hm Hn Hfit)
    as (this' & Hok & Hrest).
  exists this'. split; [|exact Hrest].
  unfold Concrete_assign. rewrite Hn, N.eqb_refl, Hok. reflexivity.
Qed.

Lemma binary_assign_Ok
    (op_assign : ConcreteSquareMatrix → ConcreteSquareMatrix →
                 result () * ConcreteSquareMatrix)
    (m1 m2 r : ConcreteSquareMatrix) :
  op_assign m1 m2 = (Ok (), r) → binary op_assign m1 m2 = Ok r.
Proof. intros H. unfold binary. rewrite copy_matrix_id, H. reflexivity. Qed.

(** X21. A matrix accepted by either parser is square, and the 4-row,
    3-column text of the test suite is rejected by both with
    [std::invalid_argument]; the structural constructor accepts a grid
    exactly when it has [new_n] rows of [new_n] cells and throws
    [std::invalid_argument] otherwise; the empty matrix is square; and
    on square operands transposition, copying, evaluation, the product,
    the quotient and (with [n * n] in the range of [unsigned int]) the
    sum and the difference return a square matrix. *)
Theorem square_everywhere (n_threads : N) (a b : ConcreteSquareMatrix)
    (s : SymbolicSquareMatrix) (val : Valuation) :
  square a → square b → n a = n b → (n a * n a < UINT_RANGE)%N → square s →
  (∀ str_m, (∃ r, Concrete_parse str_m = Some r) ∧
            (∃ r, Symbolic_parse str_m = Some r)) ∧
  (∀ str_m m, Concrete_parse str_m = Some (Ok m) → square m) ∧
  (∀ str_m m, Symbolic_parse str_m = Some (Ok m) → square m) ∧
  is_invalid_argument <$> Concrete_parse text_4x3 = Some true ∧
  is_invalid_argument <$> Symbolic_parse text_4x3 = Some true ∧
  (∀ new_n (g : list (list IntElement)),
     (square (Matrix new_n g) → make_matrix new_n g = Ok (Matrix new_n g)) ∧
     (¬ square (Matrix new_n g) →
      is_invalid_argument (make_matrix new_n g) = true)) ∧
  (∀ new_n (g : list (list Element)),
     (square (Matrix new_n g) → make_matrix new_n g = Ok (Matrix new_n g)) ∧
     (¬ square (Matrix new_n g) →
      is_invalid_argument (make_matrix new_n g) = true)) ∧
  square (@empty_matrix IntElement) ∧ square (@empty_matrix Element) ∧
  square (transpose a) ∧ square (transpose s) ∧
  square (copy_matrix a) ∧ square (copy_matrix s) ∧
  (∃ r, Concrete_evaluate a val = Ok r ∧ square r) ∧
  (∀ r, Symbolic_evaluate s val = Ok r → square r) ∧
  (∃ r, Concrete_mul a b = Ok r ∧ square r) ∧
  (∃ r, Concrete_div a b = Ok r ∧ square r) ∧
  (∃ r, Concrete_add n_threads a b = Ok r ∧ square r) ∧
  (∃ r, Concrete_sub n_threads a b = Ok r ∧ square r).
Proof.
  intros Ha Hb Hn Hfit Hs.
  assert (Hmake : ∀ T new_n (g : list (list T)),
    (square (Matrix new_n g) → make_matrix new_n g = Ok (Matrix new_n g)) ∧
    (¬ square (Matrix new_n g) →
     is_invalid_argument (make_matrix new_n g) = true)).
  { intros T new_n g. split; [|apply make_matrix_throws].
    intros H. apply make_matrix_Ok. auto. }
  assert (Hmul : ∀ b', square b' → n a = n b' →
    ∃ r, Concrete_mul a b' = Ok r ∧ square r).
  { intros b' Hb' Hn'. eexists. split; [now apply Concrete_mul_Ok|].
    now apply product_square. }
  assert (Hadd : ∀ func,
    ∃ r, binary (λ this m, Concrete_assign n_threads this m func) a b = Ok r
         ∧ square r).
  { intros func.
    destruct (Concrete_assign_Ok n_threads a b func Ha Hb Hn Hfit)
      as (r & Hr & _ & Hsq & _).
    exists r. split; [|exact Hsq].
    now apply (binary_assign_Ok (λ this m, Concrete_assign n_threads this m func)). }
  split; [intros str_m; split;
          [apply Concrete_parse_returns|apply Symbolic_parse_returns]|].
  split; [intros str_m m H; now apply Concrete_parse_square in H|].
  split; [intros str_m m H; now apply Symbolic_parse_square in H|].
  split; [reflexivity|]. split; [reflexivity|].
  split; [apply Hmake|]. split; [apply Hmake|].
  split; [apply square_squareb; reflexivity|].
  split; [apply square_squareb; reflexivity|].
  split; [now apply transpose_square|]. split; [now apply transpose_square|].
  rewrite !copy_matrix_id. split; [assumption|]. split; [assumption|].
  split.
  { exists a. split; [|assumption]. unfold Concrete_evaluate.
    now rewrite copy_matrix_id. }
  split.
  { intros r. unfold Symbolic_evaluate.
    destruct (evaluate_cells s val) as [temp| |]; try discriminate.
    intros H. change (make_matrix (n s) temp = Ok r) in H.
    apply make_matrix_Ok in H as [-> H]. exact H. }
  split; [now apply Hmul|].
  split; [apply (Hmul (transpose b)); [now apply transpose_square|exact Hn]|].
  split; apply Hadd.
Qed.

Lemma square_everywhere_witness :
  ∃ r, Concrete_add 4 m_123456789 m_123456789 = Ok r ∧ square r.
Proof.
  refine (proj1 (proj2 (proj2 (proj2 (proj2 (proj2 (proj2 (proj2 (proj2
    (proj2 (proj2 (proj2 (proj2 (proj2 (proj2 (proj2 (proj2 (proj2
      (square_everywhere 4 m_123456789 m_123456789 sym_1b3h ∅
         square_m_123456789 square_m_123456789 eq_refl _ square_sym_1b3h
      ))))))))))))))))))).
  reflexivity.
Defined.

(** C8, at the input where the code breaks it.  [ConcreteSquareMatrix{-1}],
    the random constructor at the size -1, returns a matrix value that
    is not square, whatever the generator draws: its loops run no pass,
    so it has no row, while [n] is -1 converted to [unsigned int],
    4294967295.  The structural constructor, given that [n] and those
    rows, throws [std::invalid_argument]. *)
Theorem random_constructor_not_square (draw : nat → Z) :
  n (random_matrix (-1) draw) = 4294967295%N ∧
  elements (random_matrix (-1) draw) = [] ∧
  ¬ square (random_matrix (-1) draw) ∧
  matrix_toString (random_matrix (-1) draw) = "[]" ∧
  is_invalid_argument
    (make_matrix (n (random_matrix (-1) draw))
       (elements (random_matrix (-1) draw))) = true.
Proof.
  split; [reflexivity|]. split; [reflexivity|]. split.
  - intros [Hrows _]. discriminate Hrows.
  - split; reflexivity.
Qed.

(** ** Reading back what [std::to_string] writes *)

Lemma chars_app (s1 s2 : string) : chars (s1 +:+ s2) = chars s1 ++ chars s2.
Proof. induction s1 as [|c s1 IH]; simpl; [reflexivity|now rewrite IH]. Qed.

Lemma uint_value_pos (d : Decimal.uint) (p : positive) :
  uint_value d (Z.pos p) = Z.pos (Pos.of_uint_acc d p).
Proof.
  revert p. induction d; intros p; simpl; try reflexivity;
    rewrite <- IHd; f_equal; lia.
Qed.

Lemma uint_value_0 (d : Decimal.uint) :
  uint_value d 0 = Z.of_N (Pos.of_uint d).
Proof.
  induction d; simpl; try reflexivity; try exact IHd;
    match goal with
    | |- uint_value _ (10 * 0 + Z.pos ?k) = _ =>
        change (10 * 0 + Z.pos k) with (Z.pos k)
    end; apply uint_value_pos.
Qed.

Lemma uint_value_to_uint (p : positive) :
  uint_value (Pos.to_uint p) 0 = Z.pos p.
Proof. now rewrite uint_value_0, DecimalPos.Unsigned.of_to. Qed.

Lemma get_digits_stop (c : ascii) (tail : list ascii) (acc : Z)
    (found : bool) :
  isdigit c = false →
  get_digits (c :: tail) acc found = (acc, found, c :: tail).
Proof. intros H. simpl. now rewrite H. Qed.

Lemma get_digits_uint (d : Decimal.uint) (c : ascii) (tail : list ascii)
    (acc : Z) (found : bool) :
  isdigit c = false →
  get_digits (chars (NilEmpty.string_of_uint d) ++ c :: tail) acc found
  = (uint_value d acc,
     found || match d with Decimal.Nil => false | _ => true end,
     c :: tail).
Proof.
  intros Hc. revert acc found.
  induction d; intros acc found;
    try (cbn [NilEmpty.string_of_uint list_ascii_of_string app get_digits
              uint_value];
         match goal with
         | |- context [isdigit ?x] =>
             change (isdigit x) with true; cbv iota
         end;
         rewrite IHd, orb_true_r; reflexivity).
  simpl NilEmpty.string_of_uint. simpl chars. simpl app.
  rewrite get_digits_stop by assumption. now rewrite orb_false_r.
Qed.

Lemma uint_chars_head (d : Decimal.uint) :
  d ≠ Decimal.Nil →
  ∃ c cs, chars (NilEmpty.string_of_uint d) = c :: cs ∧ isdigit c = true.
Proof. destruct d; intros H; try contradiction; simpl; eauto. Qed.

Lemma isdigit_plain (c : ascii) :
  isdigit c = true →
  isspace c = false ∧ Ascii.eqb c "-" = false ∧ Ascii.eqb c "+" = false.
Proof.
  destruct c as [[] [] [] [] [] [] [] []]; vm_compute; intros H;
    try discriminate; auto.
Qed.

Lemma to_string_pos (p : positive) :
  to_string (Z.pos p) = NilEmpty.string_of_uint (Pos.to_uint p).
Proof.
  unfold to_string. simpl.
  pose proof (Unsigned.to_uint_nonnil p) as H.
  destruct (Pos.to_uint p); try reflexivity. contradiction.
Qed.

Lemma to_string_neg (p : positive) :
  to_string (Z.neg p)
  = String "-" (NilEmpty.string_of_uint (Pos.to_uint p)).
Proof.
  unfold to_string. simpl.
  pose proof (Unsigned.to_uint_nonnil p) as H.
  destruct (Pos.to_uint p); try reflexivity. contradiction.
Qed.

Lemma get_int_unsigned (p : positive) (c : ascii) (tail : list ascii) :
  isdigit c = false →
  get_digits (chars (NilEmpty.string_of_uint (Pos.to_uint p)) ++ c :: tail)
    0 false
  = (Z.pos p, true, c :: tail).
Proof.
  intros Hc. rewrite get_digits_uint by assumption.
  rewrite uint_value_to_uint.
  pose proof (Unsigned.to_uint_nonnil p) as H.
  destruct (Pos.to_uint p); try reflexivity. contradiction.
Qed.

(** [ss >> a] reads back the [int] that [std::to_string] wrote, when a
    character other than a digit follows. *)
Lemma get_int_to_string (t : Z) (c : ascii) (tail : list ascii) (a : Z) :
  in_int t → isdigit c = false →
  get_int (Stream (chars (to_string t) ++ c :: tail) true) a
  = (Stream (c :: tail) true, t).
Proof.
  unfold in_int, INT_MIN, INT_MAX. intros Ht Hc.
  assert (Hrange : ∀ l, - 2 ^ 31 <= l <= 2 ^ 31 - 1 →
    (if l <? INT_MIN then (Stream (c :: tail) false, INT_MIN)
     else if INT_MAX <? l then (Stream (c :: tail) false, INT_MAX)
     else (Stream (c :: tail) (negb (bool_decide (c :: tail = []))), l))
    = (Stream (c :: tail) true, l)).
  { intros l Hl. unfold INT_MIN, INT_MAX.
    rewrite (proj2 (Z.ltb_ge _ _)) by lia.
    rewrite (proj2 (Z.ltb_ge _ _)) by lia. reflexivity. }
  unfold get_int. cbn [good rest].
  destruct t as [|p|p].
  - change (chars (to_string 0)) with ["0"%char]. cbn [app skipws].
    change (isspace "0") with false. cbv iota.
    change (Ascii.eqb "0" "-") with false.
    change (Ascii.eqb "0" "+") with false. cbv iota.
    cbn [get_digits]. change (isdigit "0") with true. cbv iota.
    rewrite Hc. change (10 * 0 + digit_value "0") with 0. cbn [negb].
    apply (Hrange 0). lia.
  - rewrite to_string_pos.
    destruct (uint_chars_head (Pos.to_uint p) (Unsigned.to_uint_nonnil p))
      as (d & ds & Hds & Hd).
    pose proof (get_int_unsigned p c tail Hc) as Hdigits.
    rewrite Hds in *. cbn [app skipws] in *.
    destruct (isdigit_plain d Hd) as (-> & -> & ->).
    rewrite Hdigits. cbn [negb]. now apply Hrange.
  - rewrite to_string_neg. cbn [list_ascii_of_string app skipws].
    change (isspace "-") with false. cbv iota.
    change (Ascii.eqb "-" "-") with true. cbv iota.
    rewrite get_int_unsigned by assumption. cbn [negb].
    apply (Hrange (- Z.pos p)). lia.
Qed.

(** ** Parsing what [toString] writes *)

Lemma get_char_plain (x : ascii) (buf : list ascii) (c : ascii) :
  isspace x = false →
  get_char (Stream (x :: buf) true) c = (Stream buf true, x).
Proof. intros H. unfold get_char. simpl. now rewrite H. Qed.

Section row_toString.
Context {T : Type} `{!ElementOps T}.

Lemma chars_row_first (e : T) (vec : list T) :
  chars (row_toString true (e :: vec))
  = chars (toString e) ++ chars (row_toString false vec).
Proof. cbn [row_toString]. now rewrite !chars_app. Qed.

Lemma chars_row_next (e : T) (vec : list T) :
  chars (row_toString false (e :: vec))
  = ","%char :: chars (toString e) ++ chars (row_toString false vec).
Proof. cbn [row_toString]. now rewrite !chars_app. Qed.

Lemma chars_rows_cons (vec : list T) (rows : list (list T)) :
  chars (rows_toString (vec :: rows))
  = "["%char :: chars (row_toString true vec)
    ++ "]"%char :: chars (rows_toString rows).
Proof. cbn [rows_toString]. now rewrite !chars_app. Qed.

Lemma chars_matrix (m : ElementarySquareMatrix T) :
  chars (matrix_toString m)
  = "["%char :: chars (rows_toString (elements m)) ++ ["]"%char].
Proof. unfold matrix_toString. now rewrite !chars_app. Qed.
End row_toString.

Lemma Concrete_row_S (fuel : nat) (ss : sstream) (c : ascii) (a : Z)
    (row : list IntElement) :
  Concrete_row (S fuel) ss c a row
  = let '(ss, a) := get_int ss a in
    let '(ss, c) := get_char ss c in
    if negb (good ss) then parse_error "Invalid string."
    else
      let row := row ++ [a] in
      if Ascii.eqb c "," then Concrete_row fuel ss c a row
      else Some (Ok (ss, c, a, row)).
Proof. reflexivity. Qed.

Lemma Concrete_row_cells (vec : list IntElement) (e : IntElement)
    (fuel : nat) (c : ascii) (a : Z) (row : list IntElement)
    (tail : list ascii) :
  Forall in_int (e :: vec) → (length vec < fuel)%nat →
  ∃ a',
    Concrete_row fuel
      (Stream (chars (to_string e) ++ chars (row_toString false vec)
               ++ "]"%char :: tail) true) c a row
    = Some (Ok (Stream tail true, "]"%char, a', row ++ e :: vec)).
Proof.
  revert e fuel c a row.
  induction vec as [|e2 vec IH]; intros e fuel c a row Hok Hfuel;
    (destruct fuel as [|fuel]; [simpl in Hfuel; lia|]);
    apply Forall_cons in Hok as [He Hok]; rewrite Concrete_row_S.
  - simpl chars. simpl app.
    rewrite get_int_to_string by (assumption || reflexivity).
    rewrite get_char_plain by reflexivity. cbv beta iota zeta.
    exists e. reflexivity.
  - rewrite chars_row_next. cbn [app].
    change (@toString Z IntElement_ops e2) with (to_string e2).
    rewrite get_int_to_string by (assumption || reflexivity).
    rewrite get_char_plain by reflexivity. cbv beta iota zeta.
    cbn [good negb]. change (Ascii.eqb "," ",") with true. cbv iota.
    destruct (IH e2 fuel ","%char e (row ++ [e]) Hok) as [a' Ha'];
      [simpl in Hfuel; lia|].
    rewrite <- (app_assoc (chars (to_string e2))), Ha'.
    exists a'. now rewrite <- app_assoc.
Qed.

Lemma isalpha_plain (c : ascii) :
  isalpha c = true →
  isspace c = false ∧ isdigit c = false ∧
  Ascii.eqb c "-" = false ∧ Ascii.eqb c "+" = false.
Proof.
  destruct c as [[] [] [] [] [] [] [] []]; vm_compute; intros H;
    try discriminate; auto.
Qed.

Lemma get_int_alpha (v : ascii) (tail : list ascii) (a : Z) :
  isalpha v = true →
  get_int (Stream (v :: tail) true) a = (Stream (v :: tail) false, 0).
Proof.
  intros (Hs & Hd & Hm & Hp)%isalpha_plain.
  unfold get_int. cbn [good rest skipws]. rewrite Hs, Hm, Hp.
  cbn [get_digits]. rewrite Hd. reflexivity.
Qed.

Lemma Symbolic_row_S (fuel : nat) (ss : sstream) (c : ascii) (a : Z)
    (row : list Element) :
  Symbolic_row (S fuel) ss c a row
  = let '(ss, a) := get_int ss a in
    let step :=
      if negb (good ss) then
        let '(ss, c) := get_char (clear ss) c in
        if negb (good ss) || negb (isalpha c) then
          Throw (invalid_argument "Invalid string.")
        else Ok (ss, c, row ++ [Var c])
      else Ok (ss, c, row ++ [Int a]) in
    match step with
    | Ok (ss, c, row) =>
        let '(ss, c) := get_char ss c in
        if Ascii.eqb c "," then Symbolic_row fuel ss c a row
        else Some (Ok (ss, c, a, row))
    | Throw e => Some (Throw e)
    | Terminate => Some Terminate
    end.
Proof. reflexivity. Qed.

(** One cell of a symbolic row, with the character [d] after it. *)
Lemma Symbolic_row_cell (e : Element) (d : ascii) (tail : list ascii)
    (fuel : nat) (c : ascii) (a : Z) (row : list Element) :
  Element_ok e → isdigit d = false → isspace d = false →
  ∃ a',
    Symbolic_row (S fuel) (Stream (chars (toString e) ++ d :: tail) true)
      c a row
    = if Ascii.eqb d ","
      then Symbolic_row fuel (Stream tail true) d a' (row ++ [e])
      else Some (Ok (Stream tail true, d, a', row ++ [e])).
Proof.
  intros He Hd Hs. rewrite Symbolic_row_S. destruct e as [t|v].
  - change (toString (Int t)) with (to_string t).
    rewrite get_int_to_string by assumption. cbv beta iota zeta.
    cbn [good negb]. rewrite get_char_plain by assumption.
    exists t. reflexivity.
  - change (chars (toString (Var v)) ++ d :: tail) with (v :: d :: tail).
    simpl in He. rewrite get_int_alpha by assumption. cbv beta iota zeta.
    cbn [good negb]. unfold clear. cbn [rest].
    destruct (isalpha_plain v He) as (Hvs & _).
    rewrite get_char_plain by assumption. cbn [good negb orb].
    rewrite He. cbn [negb]. rewrite get_char_plain by assumption.
    exists 0. reflexivity.
Qed.

Lemma Symbolic_row_cells (vec : list Element) (e : Element)
    (fuel : nat) (c : ascii) (a : Z) (row : list Element)
    (tail : list ascii) :
  Forall Element_ok (e :: vec) → (length vec < fuel)%nat →
  ∃ a',
    Symbolic_row fuel
      (Stream (chars (toString e) ++ chars (row_toString false vec)
               ++ "]"%char :: tail) true) c a row
    = Some (Ok (Stream tail true, "]"%char, a', row ++ e :: vec)).
Proof.
  revert e fuel c a row.
  induction vec as [|e2 vec IH]; intros e fuel c a row Hok Hfuel;
    (destruct fuel as [|fuel]; [simpl in Hfuel; lia|]);
    apply Forall_cons in Hok as [He Hok].
  - change (chars (row_toString false []) ++ "]"%char :: tail)
      with ("]"%char :: tail).
    destruct (Symbolic_row_cell e "]" tail fuel c a row He eq_refl eq_refl)
      as [a' ->].
    exists a'. reflexivity.
  - rewrite chars_row_next. cbn [app].
    destruct (Symbolic_row_cell e ","
                ((chars (toString e2) ++ chars (row_toString false vec))
                 ++ "]"%char :: tail) fuel c a row He eq_refl eq_refl)
      as [a' ->].
    change (Ascii.eqb "," ",") with true. cbv iota.
    destruct (IH e2 fuel ","%char a' (row ++ [e]) Hok) as [a'' Ha''];
      [simpl in Hfuel; lia|].
    rewrite <- (app_assoc (chars (toString e2))), Ha''.
    exists a''. now rewrite <- app_assoc.
Qed.

Section parse_toString.
Context {T : Type} `{!ElementOps T}.
Variable parse_row :
  nat → sstream → ascii → Z → list T →
  option (result (sstream * ascii * Z * list T)).
Variable what : string.
Variable cell_ok : T → Prop.

Hypothesis parse_row_cells : ∀ vec e fuel c a tail,
  Forall cell_ok (e :: vec) → (length vec < fuel)%nat →
  ∃ a',
    parse_row fuel
      (Stream (chars (toString e) ++ chars (row_toString false vec)
               ++ "]"%char :: tail) true) c a []
    = Some (Ok (Stream tail true, "]"%char, a', e :: vec)).

Lemma parse_rows_S (fuel : nat) (l : locals T) :
  parse_rows parse_row what (S fuel) l
  = if negb (Ascii.eqb (l_c l) "]") && good (l_ss l) then
      if negb (Ascii.eqb (l_c l) "[") || negb (good (l_ss l)) then
        parse_error "Invalid string."
      else
        match parse_row (S fuel) (l_ss l) (l_c l) (l_a l) [] with
        | None => None
        | Some (Ok (ss, c, a, row)) =>
            if negb (Ascii.eqb c "]") then parse_error "Invalid string."
            else
              let size := N.of_nat (length row) in
              if (length (l_elements l) =? 0)%nat || (size =? l_n l)%N
              then
                let n' :=
                  if (length (l_elements l) =? 0)%nat then size
                  else l_n l in
                let '(ss, c) := get_char ss c in
                parse_rows parse_row what fuel
                  (Locals ss c a true n' (l_elements l ++ [row]))
              else parse_error what
        | Some (Throw e) => Some (Throw e)
        | Some Terminate => Some Terminate
        end
    else Some (Ok l).
Proof. reflexivity. Qed.

Lemma parse_rows_toString (rows : list (list T)) (row : list T)
    (fuel : nat) (a : Z) (looped : bool) (n0 : N) (acc : list (list T))
    (k : nat) :
  Forall (λ r, length r = k) (row :: rows) → (1 ≤ k)%nat →
  Forall (Forall cell_ok) (row :: rows) →
  acc = [] ∨ n0 = N.of_nat k →
  (k + length rows + 2 ≤ fuel)%nat →
  ∃ a',
    parse_rows parse_row what fuel
      (Locals
         (Stream (chars (row_toString true row)
                  ++ "]"%char :: chars (rows_toString rows) ++ ["]"%char])
            true)
         "[" a looped n0 acc)
    = Some (Ok (Locals (Stream [] true) "]" a' true (N.of_nat k)
                  (acc ++ row :: rows))).
Proof.
  revert row fuel a looped n0 acc.
  induction rows as [|row2 rows IH];
    intros row fuel a looped n0 acc Hlen Hk Hok Hacc Hfuel;
    apply Forall_cons in Hlen as [Hrow Hlen];
    apply Forall_cons in Hok as [Hcells Hok];
    (destruct fuel as [|fuel]; [lia|]);
    (destruct row as [|e vec]; [simpl in Hrow; lia|]);
    rewrite parse_rows_S; cbn [l_c l_ss l_a l_n l_elements good];
    change (negb (Ascii.eqb "[" "]") && true) with true;
    change (negb (Ascii.eqb "[" "[") || negb true) with false;
    cbv iota; rewrite chars_row_first, <- app_assoc;
    assert (Hrow' : ∀ tail, ∃ a',
      parse_row (S fuel)
        (Stream (chars (toString e) ++ chars (row_toString false vec)
                 ++ "]"%char :: tail) true) "[" a []
      = Some (Ok (Stream tail true, "]"%char, a', e :: vec)))
      by (intros tail; apply parse_row_cells;
          [exact Hcells|simpl in Hrow; lia]);
    assert (Hcheck : ((length acc =? 0)%nat
                      || (N.of_nat (length (e :: vec)) =? n0)%N) = true)
      by (destruct Hacc as [->| ->]; [reflexivity|];
          rewrite Hrow, N.eqb_refl; apply orb_true_r);
    assert (Hn' : (if (length acc =? 0)%nat
                   then N.of_nat (length (e :: vec)) else n0)
                  = N.of_nat k)
      by (destruct Hacc as [->| ->]; [now rewrite <- Hrow|];
          now destruct (length acc =? 0)%nat; rewrite ?Hrow).
  - destruct (Hrow' (chars (rows_toString []) ++ ["]"%char])) as [a' ->].
    change (negb (Ascii.eqb "]" "]")) with false.
    cbv beta iota zeta. rewrite Hcheck, Hn'.
    change (chars (rows_toString []) ++ ["]"%char]) with ["]"%char].
    rewrite get_char_plain by reflexivity.
    destruct fuel as [|fuel]; [simpl in Hfuel; lia|].
    rewrite parse_rows_S. cbn [l_c].
    change (negb (Ascii.eqb "]" "]")) with false.
    exists a'. reflexivity.
  - destruct (Hrow' (chars (rows_toString (row2 :: rows)) ++ ["]"%char]))
      as [a' ->].
    change (negb (Ascii.eqb "]" "]")) with false.
    cbv beta iota zeta. rewrite Hcheck, Hn'.
    rewrite chars_rows_cons. cbn [app].
    rewrite get_char_plain by reflexivity.
    destruct (IH row2 fuel a' true (N.of_nat k) (acc ++ [e :: vec]))
      as [a'' Ha'']; auto; [simpl in Hfuel; lia|].
    rewrite <- app_assoc. cbn [app]. rewrite Ha''.
    exists a''. now rewrite <- app_assoc.
Qed.
End parse_toString.

Section parse_matrix.
Context {T : Type} `{!ElementOps T}.
Variable parse_row :
  nat → sstream → ascii → Z → list T →
  option (result (sstream * ascii * Z * list T)).
Variable what : string.
Variable cell_ok : T → Prop.

Hypothesis parse_row_cells : ∀ vec e fuel c a tail,
  Forall cell_ok (e :: vec) → (length vec < fuel)%nat →
  ∃ a',
    parse_row fuel
      (Stream (chars (toString e) ++ chars (row_toString false vec)
               ++ "]"%char :: tail) true) c a []
    = Some (Ok (Stream tail true, "]"%char, a', e :: vec)).

Lemma rows_toString_length (rows : list (list T)) :
  (2 * length rows ≤ length (chars (rows_toString rows)))%nat.
Proof.
  induction rows as [|row rows IH]; [simpl; lia|].
  rewrite chars_rows_cons. simpl. rewrite length_app. simpl. lia.
Qed.

Lemma parse_head_toString (m : ElementarySquareMatrix T) :
  parseable cell_ok m →
  ∃ l,
    parse_head parse_row what (parse_fuel (matrix_toString m))
      (matrix_toString m) = Some (Ok l) ∧
    l_ss l = Stream [] true ∧ l_n l = n m ∧ l_elements l = elements m.
Proof.
  intros (Hsq & Hn & Hok).
  pose proof (square_rows _ Hsq) as Hrows.
  pose proof (square_Forall_length _ Hsq) as Hlen.
  assert (Hfuel : (2 * length (elements m) + 2
                   ≤ parse_fuel (matrix_toString m))%nat).
  { unfold parse_fuel. rewrite <- length_list_ascii_of_string, chars_matrix.
    simpl. rewrite length_app.
    pose proof (rows_toString_length (elements m)). simpl. lia. }
  unfold parse_head. rewrite chars_matrix.
  rewrite get_char_plain by reflexivity.
  change (negb (Ascii.eqb "[" "[") || negb (good (Stream _ true)))
    with false. cbv iota.
  destruct (elements m) as [|row rows] eqn:Helements;
    [simpl in Hrows; lia|].
  rewrite chars_rows_cons. cbn [app].
  rewrite get_char_plain by reflexivity.
  destruct (parse_rows_toString parse_row what cell_ok parse_row_cells
              rows row (parse_fuel (matrix_toString m)) 0 false 0%N []
              (N.to_nat (n m))) as [a' Ha'];
    [assumption|lia|assumption|now left|simpl in *; lia|].
  rewrite <- app_assoc. cbn [app]. rewrite Ha'.
  cbn [l_looped l_elements l_n l_ss good negb app].
  rewrite N2Nat.id.
  replace (N.of_nat (length (row :: rows)) =? n m)%N with true
    by (symmetry; apply N.eqb_eq; lia).
  eexists. split; [reflexivity|]. auto.
Qed.

Lemma parse_tail_toString (l : locals T) (m : ElementarySquareMatrix T) :
  l_ss l = Stream [] true → l_n l = n m → l_elements l = elements m →
  parse_tail l = Ok m.
Proof.
  intros Hss Hn Helements. unfold parse_tail. rewrite Hss, Hn, Helements.
  destruct m. reflexivity.
Qed.
End parse_matrix.

Lemma back_matrix_toString {T} `{!ElementOps T}
    (m : ElementarySquareMatrix T) :
  back (matrix_toString m) = "]"%char.
Proof.
  unfold back. rewrite chars_matrix.
  change ("["%char :: ?l ++ ["]"%char]) with (("["%char :: l) ++ ["]"%char]).
  apply last_last.
Qed.

(** What [toString] writes for a matrix that a parser can build, the
    parser reads back as that matrix. *)
Lemma Concrete_parse_toString (m : ConcreteSquareMatrix) :
  parseable in_int m → Concrete_parse (matrix_toString m) = Some (Ok m).
Proof.
  intros Hm. unfold Concrete_parse, Concrete_parse_fuel.
  destruct (parse_head_toString Concrete_row "Invalid string (row size)."
              in_int) with (m := m) as (l & -> & Hss & Hn & Helements).
  - intros vec e fuel c a tail Hok Hfuel.
    apply (Concrete_row_cells vec e fuel c a [] tail Hok Hfuel).
  - exact Hm.
  - rewrite back_matrix_toString.
    change (negb (Ascii.eqb "]" "]")) with false. cbv iota.
    f_equal. now apply parse_tail_toString.
Qed.

Lemma Symbolic_parse_toString (m : SymbolicSquareMatrix) :
  parseable Element_ok m → Symbolic_parse (matrix_toString m) = Some (Ok m).
Proof.
  intros Hm. unfold Symbolic_parse, Symbolic_parse_fuel.
  destruct (parse_head_toString Symbolic_row "Invalid string."
              Element_ok) with (m := m) as (l & -> & Hss & Hn & Helements).
  - intros vec e fuel c a tail Hok Hfuel.
    apply (Symbolic_row_cells vec e fuel c a [] tail Hok Hfuel).
  - exact Hm.
  - f_equal. now apply parse_tail_toString.
Qed.

(** ** The cells that the parsers store *)

Lemma get_char_good (ss ss' : sstream) (c c' : ascii) :
  get_char ss c = (ss', c') → good ss' = true → good ss = true.
Proof.
  unfold get_char. destruct (good ss) eqn:Hgood; [reflexivity|].
  intros [= <- <-]. congruence.
Qed.

Lemma get_int_in_int (ss ss' : sstream) (a a' : Z) :
  get_int ss a = (ss', a') → good ss' = true → in_int a'.
Proof.
  unfold get_int.
  destruct (good ss) eqn:Hgood; [|intros [= <- <-]; congruence].
  destruct (skipws (rest ss)) as [|c buf]; [intros [= <- <-]; discriminate|].
  destruct (if Ascii.eqb c "-" then (true, buf)
            else if Ascii.eqb c "+" then (false, buf)
            else (false, c :: buf)) as [negative buf1].
  destruct (get_digits buf1 0 false) as [[v found] buf2].
  destruct found; simpl; [|intros [= <- <-]; discriminate].
  set (l := if negative then - v else v).
  destruct (Z.ltb_spec l INT_MIN); [intros [= <- <-]; discriminate|].
  destruct (Z.ltb_spec INT_MAX l); [intros [= <- <-]; discriminate|].
  intros [= <- <-] _. split; assumption.
Qed.

Lemma Concrete_row_in_int (fuel : nat) (ss ss' : sstream) (c c' : ascii)
    (a a' : Z) (row row' : list IntElement) :
  Forall in_int row →
  Concrete_row fuel ss c a row = Some (Ok (ss', c', a', row')) →
  Forall in_int row'.
Proof.
  revert ss c a row. induction fuel as [|fuel IH]; intros ss c a row Hrow;
    [discriminate|].
  rewrite Concrete_row_S.
  destruct (get_int ss a) as [ss1 a1] eqn:Hint.
  destruct (get_char ss1 c) as [ss2 c2] eqn:Hchar.
  destruct (good ss2) eqn:Hgood2; [|discriminate]. cbn [negb].
  pose proof (get_char_good _ _ _ _ Hchar Hgood2) as Hgood1.
  pose proof (get_int_in_int _ _ _ _ Hint Hgood1) as Ha1.
  assert (Hrow1 : Forall in_int (row ++ [a1])).
  { apply Forall_app. split; [assumption|]. now apply Forall_singleton. }
  cbv zeta. destruct (Ascii.eqb c2 ",").
  - now apply IH.
  - now intros [= _ _ _ <-].
Qed.

Lemma Symbolic_row_ok (fuel : nat) (ss ss' : sstream) (c c' : ascii)
    (a a' : Z) (row row' : list Element) :
  Forall Element_ok row →
  Symbolic_row fuel ss c a row = Some (Ok (ss', c', a', row')) →
  Forall Element_ok row'.
Proof.
  revert ss c a row. induction fuel as [|fuel IH]; intros ss c a row Hrow;
    [discriminate|].
  rewrite Symbolic_row_S.
  destruct (get_int ss a) as [ss1 a1] eqn:Hint.
  assert (Hnext : ∀ ss2 c2 row2, Forall Element_ok row2 →
    (let '(ss3, c3) := get_char ss2 c2 in
     if Ascii.eqb c3 "," then Symbolic_row fuel ss3 c3 a1 row2
     else Some (Ok (ss3, c3, a1, row2))) = Some (Ok (ss', c', a', row')) →
    Forall Element_ok row').
  { intros ss2 c2 row2 Hrow2.
    destruct (get_char ss2 c2) as [ss3 c3].
    destruct (Ascii.eqb c3 ","); [now apply IH|].
    now intros [= _ _ _ <-]. }
  cbv zeta. destruct (good ss1) eqn:Hgood1; cbn [negb].
  - apply Hnext. apply Forall_app. split; [assumption|].
    apply Forall_singleton. exact (get_int_in_int _ _ _ _ Hint Hgood1).
  - destruct (get_char (clear ss1) c) as [ss2 c2].
    destruct (good ss2); cbn [negb orb]; [|discriminate].
    destruct (isalpha c2) eqn:Halpha; cbn [negb]; [|discriminate].
    apply Hnext. apply Forall_app. split; [assumption|].
    apply Forall_singleton. exact Halpha.
Qed.

Section parse_cells.
Context {T : Type}.
Variable parse_row :
  nat → sstream → ascii → Z → list T →
  option (result (sstream * ascii * Z * list T)).
Variable what : string.
Variable cell_ok : T → Prop.

Hypothesis parse_row_ok : ∀ fuel ss c a ss' c' a' row',
  parse_row fuel ss c a [] = Some (Ok (ss', c', a', row')) →
  Forall cell_ok row'.

Lemma parse_rows_ok (fuel : nat) (l l' : locals T) :
  Forall (Forall cell_ok) (l_elements l) →
  parse_rows parse_row what fuel l = Some (Ok l') →
  Forall (Forall cell_ok) (l_elements l').
Proof.
  revert l. induction fuel as [|fuel IH]; intros l Hl; [discriminate|].
  simpl. destruct (negb (Ascii.eqb (l_c l) "]") && good (l_ss l));
    [|now intros [= <-]].
  destruct (negb (Ascii.eqb (l_c l) "[") || negb (good (l_ss l)));
    [discriminate|].
  destruct (parse_row (S fuel) (l_ss l) (l_c l) (l_a l) [])
    as [[[[[ss c] a] row]|e|]|] eqn:Hrow; try discriminate.
  apply parse_row_ok in Hrow.
  destruct (negb (Ascii.eqb c "]")); [discriminate|].
  destruct ((length (l_elements l) =? 0)%nat
            || (N.of_nat (length row) =? l_n l)%N); [|discriminate].
  destruct (get_char ss c) as [ss' c']. apply IH. simpl.
  apply Forall_app. split; [assumption|]. now apply Forall_singleton.
Qed.

Lemma parse_head_ok (fuel : nat) (str_m : string) (l : locals T) :
  parse_head parse_row what fuel str_m = Some (Ok l) →
  Forall (Forall cell_ok) (l_elements l).
Proof.
  unfold parse_head.
  destruct (get_char _ "000") as [ss c].
  destruct (negb (Ascii.eqb c "[") || negb (good ss)); [discriminate|].
  destruct (get_char ss c) as [ss' c'].
  destruct (parse_rows parse_row what fuel (Locals ss' c' 0 false 0%N []))
    as [[l'|e|]|] eqn:Hrows; try discriminate.
  apply parse_rows_ok in Hrows; [|constructor].
  repeat case_match; try discriminate. now intros [= <-].
Qed.
End parse_cells.

(** A matrix that a parser returns is one that it can build. *)
Lemma Concrete_parse_parseable (str_m : string) (m : ConcreteSquareMatrix) :
  Concrete_parse str_m = Some (Ok m) → parseable in_int m.
Proof.
  intros H. destruct (Concrete_parse_square _ _ H) as [Hsq Hn].
  split; [assumption|]. split; [assumption|]. revert H.
  unfold Concrete_parse, Concrete_parse_fuel.
  destruct (parse_head _ _ _ _) as [[l|e|]|] eqn:Hhead; try discriminate.
  apply (parse_head_ok _ _ in_int) in Hhead.
  - destruct (negb (Ascii.eqb (back str_m) "]")); [discriminate|].
    intros [= Htail]. apply parse_tail_matrix in Htail as ->. exact Hhead.
  - intros fuel ss c a ss' c' a' row'. apply Concrete_row_in_int. constructor.
Qed.

Lemma Symbolic_parse_parseable (str_m : string) (m : SymbolicSquareMatrix) :
  Symbolic_parse str_m = Some (Ok m) → parseable Element_ok m.
Proof.
  intros H. destruct (Symbolic_parse_square _ _ H) as [Hsq Hn].
  split; [assumption|]. split; [assumption|]. revert H.
  unfold Symbolic_parse, Symbolic_parse_fuel.
  destruct (parse_head _ _ _ _) as [[l|e|]|] eqn:Hhead; try discriminate.
  apply (parse_head_ok _ _ Element_ok) in Hhead.
  - intros [= Htail]. apply parse_tail_matrix in Htail as ->. exact Hhead.
  - intros fuel ss c a ss' c' a' row'. apply Symbolic_row_ok. constructor.
Qed.

(** ** Round trip *)

(** C2, as the code has it.  The rendering of a matrix that a parser
    can build (square, with at least one row, its integers in [int], and
    for the symbolic parser its variables letters) is accepted by the
    parser, which returns that matrix, so that rendering the result gives
    the text back.  For any text [T] that a parser accepts, rendering the
    result gives [T] back exactly when [T] is such a rendering. *)
Theorem parse_toString_round_trip (c : ConcreteSquareMatrix)
    (s : SymbolicSquareMatrix) :
  parseable in_int c → parseable Element_ok s →
  Concrete_parse (matrix_toString c) = Some (Ok c) ∧
  Symbolic_parse (matrix_toString s) = Some (Ok s) ∧
  parse_then_toString Concrete_parse (matrix_toString c)
  = Some (Ok (matrix_toString c)) ∧
  parse_then_toString Symbolic_parse (matrix_toString s)
  = Some (Ok (matrix_toString s)) ∧
  (∀ T m, Concrete_parse T = Some (Ok m) →
     (matrix_toString m = T ↔
      ∃ m', parseable in_int m' ∧ T = matrix_toString m')) ∧
  (∀ T m, Symbolic_parse T = Some (Ok m) →
     (matrix_toString m = T ↔
      ∃ m', parseable Element_ok m' ∧ T = matrix_toString m')).
Proof.
  intros Hc Hs. unfold parse_then_toString.
  rewrite (Concrete_parse_toString c Hc), (Symbolic_parse_toString s Hs).
  repeat split; try reflexivity.
  - intros <-. exists m. split; [|reflexivity].
    eapply Concrete_parse_parseable; eassumption.
  - intros (m' & Hm' & ->).
    rewrite (Concrete_parse_toString m' Hm') in H. now injection H as ->.
  - intros <-. exists m. split; [|reflexivity].
    eapply Symbolic_parse_parseable; eassumption.
  - intros (m' & Hm' & ->).
    rewrite (Symbolic_parse_toString m' Hm') in H. now injection H as ->.
Qed.

Lemma parseable_m_1234 : parseable in_int m_1234.
Proof.
  split; [exact square_m_1234|]. split; [vm_compute; discriminate|].
  repeat constructor; vm_compute; discriminate.
Qed.

Lemma parseable_sym_1b3h : parseable Element_ok sym_1b3h.
Proof.
  split; [exact square_sym_1b3h|]. split; [vm_compute; discriminate|].
  repeat constructor; vm_compute; discriminate.
Qed.

Lemma parse_toString_round_trip_witness :
  Concrete_parse (matrix_toString m_1234) = Some (Ok m_1234) ∧
  Symbolic_parse (matrix_toString sym_1b3h) = Some (Ok sym_1b3h).
Proof.
  pose proof (parse_toString_round_trip m_1234 sym_1b3h
                parseable_m_1234 parseable_sym_1b3h) as (H1 & H2 & _).
  exact (conj H1 H2).
Defined.

(** C2 as stated fails: both parsers accept a text with a blank after a
    comma, and the integer parser a text with a leading zero; the
    rendering of the result has neither. *)
Lemma parse_toString_counterexample :
  Concrete_parse text_spaced = Some (Ok m_1234) ∧
  Symbolic_parse text_spaced = Some (Ok sym_1234) ∧
  matrix_toString m_1234 = "[[1,2][3,4]]" ∧
  matrix_toString sym_1234 = "[[1,2][3,4]]" ∧
  matrix_toString m_1234 ≠ text_spaced ∧
  matrix_toString sym_1234 ≠ text_spaced ∧
  parse_then_toString Concrete_parse text_zero = Some (Ok "[[1]]").
Proof. repeat split; try reflexivity; discriminate. Qed.

Lemma transpose_transpose_witness :
  square m_1234 ∧ square sym_1b3h ∧
  Concrete_eq (transpose (transpose m_1234)) m_1234 = true ∧
  Symbolic_eq (transpose (transpose sym_1b3h)) sym_1b3h = true.
Proof.
  pose proof (transpose_transpose m_1234 sym_1b3h
                square_m_1234 square_sym_1b3h) as (H1 & H2 & _).
  exact (conj square_m_1234 (conj square_sym_1b3h (conj H1 H2))).
Defined.

(** * Further properties of the code *)

(** ** The block engine on every number of threads *)

Lemma concat_same_shape_inj {T} (rows rows' : list (list T)) :
  same_shape rows rows' → concat rows = concat rows' → rows = rows'.
Proof.
  induction 1 as [|row row' rows rows' Hlen _ IH]; [reflexivity|].
  simpl. intros Heq. apply app_inj_1 in Heq as [-> Heq]; [|assumption].
  now rewrite IH.
Qed.

Lemma square_same_shape {T} (a b : ElementarySquareMatrix T) :
  square a → square b → n a = n b → same_shape (elements a) (elements b).
Proof.
  intros Ha Hb Hn.
  pose proof (square_rows _ Ha) as Hra. pose proof (square_rows _ Hb) as Hrb.
  pose proof (square_Forall_length _ Ha) as Hla.
  pose proof (square_Forall_length _ Hb) as Hlb.
  rewrite <- Hn in Hrb, Hlb. clear Ha Hb Hn.
  revert Hra Hla Hrb Hlb. generalize (N.to_nat (n a)) at 2 4 as k.
  generalize (N.to_nat (n a)) as r. intros r.
  generalize (elements b) as gb. revert r.
  induction (elements a) as [|ra ga IH]; intros r [|rb gb] k Hra Hla Hrb Hlb;
    simpl in *; try lia; constructor.
  - apply Forall_cons in Hla as [-> _]. apply Forall_cons in Hlb as [-> _].
    reflexivity.
  - apply Forall_cons in Hla as [_ Hla]. apply Forall_cons in Hlb as [_ Hlb].
    apply (IH (pred r) gb k); auto; lia.
Qed.

Lemma unroll_inj {T} (a b : ElementarySquareMatrix T) :
  square a → square b → n a = n b → unroll a = unroll b → a = b.
Proof.
  intros Ha Hb Hn Hflat. destruct a as [na ga], b as [nb gb].
  simpl in Hn. subst nb. f_equal.
  apply concat_same_shape_inj; [|exact Hflat].
  now apply (square_same_shape (Matrix na ga) (Matrix na gb)).
Qed.

Lemma t_covered_all (n_threads m_size : N) :
  (m_size mod t_blocksz n_threads m_size = 0)%N →
  (t_blocksz n_threads m_size * t_blockct n_threads m_size = m_size)%N.
Proof.
  intros Hmod. unfold t_blockct.
  destruct (N.eqb_spec (t_blocksz n_threads m_size) 0) as [Hz|Hnz].
  - rewrite Hz in *. rewrite N.mod_0_r in Hmod. lia.
  - pose proof (N.div_mod m_size _ Hnz). lia.
Qed.

Lemma t_blocksz_divides (n_threads m_size : N) :
  (0 < n_threads)%N → (m_size mod n_threads = 0)%N →
  (m_size mod t_blocksz n_threads m_size = 0)%N.
Proof.
  intros Hpos Hmod. unfold t_blocksz, ceil_div. rewrite Hmod. simpl.
  pose proof (N.div_mod m_size n_threads ltac:(lia)) as Hdm.
  rewrite Hmod, N.add_0_r in Hdm.
  remember (m_size / n_threads)%N as q eqn:Hq. clear Hq. subst m_size.
  destruct (N.eqb_spec q 0) as [->|Hnz].
  - rewrite N.mod_0_r. lia.
  - apply N.Div0.mod_mul.
Qed.

Lemma elementwise_upto_all {T} (func : T → T → T) (covered : nat)
    (lhs rhs : list T) :
  (length lhs ≤ covered)%nat → (length rhs ≤ covered)%nat →
  elementwise_upto func covered lhs rhs = zip_with func lhs rhs.
Proof.
  intros Hl Hr. unfold elementwise_upto.
  rewrite !take_ge, drop_ge, app_nil_r by assumption. reflexivity.
Qed.

Lemma elementwise_upto_lookup {T} (func : T → T → T) (covered : nat)
    (lhs rhs : list T) (i : nat) :
  length lhs = length rhs → (covered ≤ length lhs)%nat →
  elementwise_upto func covered lhs rhs !! i
  = if decide (i < covered)%nat then zip_with func lhs rhs !! i
    else lhs !! i.
Proof.
  intros Hlen Hcov. unfold elementwise_upto.
  assert (Hpre : length (zip_with func (take covered lhs) (take covered rhs))
                 = covered).
  { rewrite length_zip_with_l_eq; rewrite !length_take_le; lia. }
  destruct (decide (i < covered)%nat) as [Hi|Hi].
  - rewrite lookup_app_l by lia.
    rewrite !lookup_zip_with, !lookup_take_lt by lia. reflexivity.
  - rewrite lookup_app_r by lia. rewrite Hpre, lookup_drop.
    f_equal. lia.
Qed.

(** X1. [operator+=], [operator-=] and every other use of [t_oper] on
    square operands of one size (with [n * n] an [unsigned int]) return:
    the left-hand matrix keeps its size and shape; with [blocksz] and
    [blockct] as [t_oper] computes them, the first [blocksz * blockct]
    cells of its row-major unrolling hold [func] of the two original
    cells, and every later cell is unchanged. *)
Theorem assign_updates_prefix (n_threads : N)
    (this m : ConcreteSquareMatrix)
    (func : IntElement → IntElement → IntElement) :
  square this → square m → n this = n m →
  (n this * n this < UINT_RANGE)%N →
  let covered :=
    N.to_nat (t_blocksz n_threads (n this * n this)
              * t_blockct n_threads (n this * n this)) in
  (covered ≤ length (unroll this))%nat ∧
  ∃ this', Concrete_assign n_threads this m func = (Ok (), this') ∧
    n this' = n this ∧ square this' ∧
    (∀ i, (i < covered)%nat →
       unroll this' !! i = zip_with func (unroll this) (unroll m) !! i) ∧
    (∀ i, (covered ≤ i)%nat → unroll this' !! i = unroll this !! i).
Proof.
  intros Hthis Hm Hn Hfit covered.
  pose proof (t_covered n_threads (n this * n this)) as Hcov.
  pose proof (unroll_length this Hthis) as HlenA.
  pose proof (unroll_length m Hm) as HlenB. rewrite <- Hn in HlenB.
  assert (Hle : (covered ≤ length (unroll this))%nat) by (subst covered; lia).
  split; [exact Hle|].
  destruct (Concrete_assign_Ok n_threads this m func Hthis Hm Hn Hfit)
    as (this' & Hok & Hn' & Hsq & Hflat).
  exists this'. repeat split; try assumption; try apply Hsq.
  - intros i Hi. rewrite Hflat, elementwise_upto_lookup by lia.
    fold covered. now rewrite decide_True.
  - intros i Hi. rewrite Hflat, elementwise_upto_lookup by lia.
    fold covered. rewrite decide_False by lia. reflexivity.
Qed.

Lemma assign_updates_prefix_witness :
  ∃ this', Concrete_assign 2 m_123456789 m_123456789 IntElement_add
           = (Ok (), this') ∧
    (∀ i, (5 ≤ i)%nat → unroll this' !! i = unroll m_123456789 !! i).
Proof.
  destruct (assign_updates_prefix 2 m_123456789 m_123456789 IntElement_add
              square_m_123456789 square_m_123456789 eq_refl eq_refl)
    as (_ & this' & Hok & _ & _ & _ & Hrest).
  exists this'. split; [exact Hok|exact Hrest].
Defined.

(** X2. When [blocksz] divides [n * n] (with one thread, or whenever
    the number of threads divides [n * n]), [operator+=] and
    [operator-=] on square operands of one size leave [func] of the two
    original cells at every position of the left-hand matrix. *)
Theorem assign_updates_all (n_threads : N) (this m : ConcreteSquareMatrix)
    (func : IntElement → IntElement → IntElement) :
  square this → square m → n this = n m →
  (n this * n this < UINT_RANGE)%N →
  ((n this * n this) mod t_blocksz n_threads (n this * n this) = 0)%N
  ∨ n_threads = 1%N
  ∨ ((0 < n_threads)%N ∧ ((n this * n this) mod n_threads = 0)%N) →
  ∃ this', Concrete_assign n_threads this m func = (Ok (), this') ∧
    n this' = n this ∧ square this' ∧
    unroll this' = zip_with func (unroll this) (unroll m).
Proof.
  intros Hthis Hm Hn Hfit Hdiv.
  assert (Hmod : ((n this * n this)
                  mod t_blocksz n_threads (n this * n this) = 0)%N).
  { destruct Hdiv as [H|[->|[Hpos H]]]; [exact H| |].
    - apply t_blocksz_divides; [lia|apply N.mod_1_r].
    - now apply t_blocksz_divides. }
  destruct (Concrete_assign_Ok n_threads this m func Hthis Hm Hn Hfit)
    as (this' & Hok & Hn' & Hsq & Hflat).
  exists this'. repeat split; try assumption; try apply Hsq.
  rewrite Hflat, (t_covered_all _ _ Hmod).
  apply elementwise_upto_all; rewrite unroll_length by assumption;
    rewrite <- ?Hn; lia.
Qed.

Lemma assign_updates_all_witness :
  ∃ this', Concrete_assign 3 m_123456789 m_123456789 IntElement_add
           = (Ok (), this') ∧
    unroll this'
    = zip_with IntElement_add (unroll m_123456789) (unroll m_123456789).
Proof.
  destruct (assign_updates_all 3 m_123456789 m_123456789 IntElement_add
              square_m_123456789 square_m_123456789 eq_refl eq_refl)
    as (this' & Hok & _ & _ & Hflat).
  - left. reflexivity.
  - exists this'. split; [exact Hok|exact Hflat].
Defined.

Lemma Concrete_assign_full (n_threads : N) (this m : ConcreteSquareMatrix)
    (func : IntElement → IntElement → IntElement) :
  square this → square m → n this = n m →
  (n this * n this < UINT_RANGE)%N →
  ((n this * n this) mod t_blocksz n_threads (n this * n this) = 0)%N →
  ∃ this', binary (λ x y, Concrete_assign n_threads x y func) this m
           = Ok this' ∧
    n this' = n this ∧ square this' ∧
    unroll this' = zip_with func (unroll this) (unroll m).
Proof.
  intros Hthis Hm Hn Hfit Hmod.
  destruct (Concrete_assign_Ok n_threads this m func Hthis Hm Hn Hfit)
    as (this' & Hok & Hn' & Hsq & Hflat).
  exists this'. split.
  { now apply (binary_assign_Ok
                 (λ x y, Concrete_assign n_threads x y func)). }
  repeat split; try assumption; try apply Hsq.
  rewrite Hflat, (t_covered_all _ _ Hmod).
  apply elementwise_upto_all; rewrite unroll_length by assumption;
    rewrite <- ?Hn; lia.
Qed.

Lemma zip_with_comm {A B} (f : A → A → B) (l k : list A) :
  (∀ x y, f x y = f y x) → zip_with f l k = zip_with f k l.
Proof.
  intros Hf. revert k. induction l as [|x l IH]; intros [|y k]; simpl;
    try reflexivity. now rewrite Hf, IH.
Qed.

(** X3. When [blocksz] divides [n * n], the sum of two square concrete
    matrices of one size does not depend on the order of the operands:
    [a + b] and [b + a] return the same matrix. *)
Theorem add_commutes (n_threads : N) (a b : ConcreteSquareMatrix) :
  square a → square b → n a = n b → (n a * n a < UINT_RANGE)%N →
  ((n a * n a) mod t_blocksz n_threads (n a * n a) = 0)%N →
  ∃ r, Concrete_add n_threads a b = Ok r ∧
       Concrete_add n_threads b a = Ok r.
Proof.
  intros Ha Hb Hn Hfit Hmod.
  destruct (Concrete_assign_full n_threads a b IntElement_add
              Ha Hb Hn Hfit Hmod) as (r & Hr & Hnr & Hsqr & Hflat).
  destruct (Concrete_assign_full n_threads b a IntElement_add Hb Ha)
    as (r' & Hr' & Hnr' & Hsqr' & Hflat'); rewrite <- ?Hn; auto.
  exists r. split; [exact Hr|].
  replace r with r'; [exact Hr'|].
  apply unroll_inj; try assumption; [congruence|].
  rewrite Hflat, Hflat'. apply zip_with_comm.
  intros x y. unfold IntElement_add. f_equal. lia.
Qed.

Lemma add_commutes_witness :
  ∃ r, Concrete_add 1 m_1234 (transpose m_1234) = Ok r ∧
       Concrete_add 1 (transpose m_1234) m_1234 = Ok r.
Proof.
  apply (add_commutes 1 m_1234 (transpose m_1234) square_m_1234
           (transpose_square _ square_m_1234) eq_refl eq_refl eq_refl).
Defined.

(** X4. When [blocksz] divides [n * n], [m - m] is the matrix of the
    size of [m] whose cells are all 0. *)
Theorem sub_self_is_zero (n_threads : N) (m : ConcreteSquareMatrix) :
  square m → (n m * n m < UINT_RANGE)%N →
  ((n m * n m) mod t_blocksz n_threads (n m * n m) = 0)%N →
  ∃ r, Concrete_sub n_threads m m = Ok r ∧ n r = n m ∧ square r ∧
       Forall (Forall (λ e, e = 0)) (elements r).
Proof.
  intros Hm Hfit Hmod.
  destruct (Concrete_assign_full n_threads m m IntElement_sub
              Hm Hm eq_refl Hfit Hmod) as (r & Hr & Hnr & Hsqr & Hflat).
  exists r. repeat split; try assumption; try apply Hsqr.
  apply Forall_concat. fold (unroll r). rewrite Hflat. clear.
  induction (unroll m) as [|x l IH]; simpl; constructor; [|exact IH].
  unfold IntElement_sub. now rewrite Z.sub_diag.
Qed.

Lemma sub_self_is_zero_witness :
  ∃ r, Concrete_sub 3 m_123456789 m_123456789 = Ok r ∧ n r = 3%N ∧
       square r ∧ Forall (Forall (λ e, e = 0)) (elements r).
Proof.
  apply (sub_self_is_zero 3 m_123456789 square_m_123456789 eq_refl eq_refl).
Defined.

(** ** Equality and copy assignment *)

Lemma all_of_eq_Forall2 {T} (eq : T → T → bool) (row eit : list T) :
  length row = length eit →
  all_of_eq eq row eit = true ↔ Forall2 (λ x y, eq x y = true) row eit.
Proof.
  revert eit. induction row as [|x row IH]; intros [|y eit] Hlen;
    simpl in *; try discriminate.
  - split; [constructor|reflexivity].
  - rewrite andb_true_iff, IH by lia. split.
    + intros [Hx Hrow]. now constructor.
    + intros H. inversion H; subst. auto.
Qed.

Lemma rows_eq_Forall2 {T} (eq : T → T → bool) (rows rowit : list (list T)) :
  same_shape rows rowit →
  rows_eq eq rows rowit = true
  ↔ Forall2 (Forall2 (λ x y, eq x y = true)) rows rowit.
Proof.
  induction 1 as [|row r2 rows rowit Hlen _ IH]; simpl.
  - split; [constructor|reflexivity].
  - destruct (all_of_eq eq row r2) eqn:Hrow.
    + apply all_of_eq_Forall2 in Hrow; [|assumption]. rewrite IH. split.
      * intros H. now constructor.
      * intros H. now inversion H.
    + split; [discriminate|]. intros H. inversion H as [|? ? ? ? Hr _]; subst.
      apply all_of_eq_Forall2 in Hr; [congruence|assumption].
Qed.

Lemma matrix_eq_iff {T} (eq : T → T → bool)
    (this m : ElementarySquareMatrix T) :
  square this → square m →
  matrix_eq eq this m = true
  ↔ n this = n m ∧
    Forall2 (Forall2 (λ x y, eq x y = true)) (elements this) (elements m).
Proof.
  intros Hthis Hm. unfold matrix_eq.
  destruct (N.eqb_spec (n m) (n this)) as [Hn|Hn]; simpl.
  - rewrite rows_eq_Forall2 by now apply square_same_shape.
    split; [now split|now intros [_ H]].
  - split; [discriminate|]. intros [H _]. congruence.
Qed.

Lemma Forall2_Forall2_eq {T} (ok : T → Prop) (R : T → T → Prop)
    (g g' : list (list T)) :
  (∀ x y, ok x → ok y → R x y → x = y) →
  Forall (Forall ok) g → Forall (Forall ok) g' →
  Forall2 (Forall2 R) g g' → g = g'.
Proof.
  intros HR Hg Hg' H. revert Hg Hg'.
  induction H as [|r r' g g' Hr _ IH]; intros Hg Hg'; [reflexivity|].
  apply Forall_cons in Hg as [Hok Hg]. apply Forall_cons in Hg' as [Hok' Hg'].
  f_equal; [|now apply IH]. clear IH Hg Hg'. revert Hok Hok'.
  induction Hr as [|x y r r' Hxy _ IH]; intros Hok Hok'; [reflexivity|].
  apply Forall_cons in Hok as [Hx Hok].
  apply Forall_cons in Hok' as [Hy Hok'].
  f_equal; [now apply HR|now apply IH].
Qed.

Lemma Forall_Forall_True {T} (g : list (list T)) :
  Forall (Forall (λ _, True)) g.
Proof. apply Forall_forall. intros r _. now apply Forall_forall. Qed.

(** X5. On square concrete matrices [operator==] decides equality: it
    returns true exactly when the two matrices have the same size and
    the same integer in every cell. *)
Theorem Concrete_eq_decides (a b : ConcreteSquareMatrix) :
  square a → square b → (Concrete_eq a b = true ↔ a = b).
Proof.
  intros Ha Hb. unfold Concrete_eq. split.
  - intros [Hn Hcells]%matrix_eq_iff; [|assumption..].
    destruct a as [na ga], b as [nb gb]. simpl in *. subst nb. f_equal.
    apply (Forall2_Forall2_eq (λ _, True) (λ x y, Z.eqb x y = true));
      auto using Forall_Forall_True.
    intros x y _ _. apply Z.eqb_eq.
  - intros <-. apply matrix_eq_refl, Z.eqb_refl.
Qed.

Lemma Concrete_eq_decides_witness :
  Concrete_eq m_1234 (transpose m_1234) = true
  ↔ m_1234 = transpose m_1234.
Proof.
  apply (Concrete_eq_decides m_1234 (transpose m_1234) square_m_1234
           (transpose_square _ square_m_1234)).
Defined.

Lemma to_string_inj (a b : Z) :
  in_int a → in_int b → to_string a = to_string b → a = b.
Proof.
  intros Ha Hb Heq.
  pose proof (get_int_to_string a "]" [] 0 Ha eq_refl) as H1.
  pose proof (get_int_to_string b "]" [] 0 Hb eq_refl) as H2.
  rewrite Heq in H1. congruence.
Qed.

Lemma Element_toString_inj (e1 e2 : Element) :
  Element_ok e1 → Element_ok e2 → toString e1 = toString e2 → e1 = e2.
Proof.
  assert (Hmixed : ∀ t v, in_int t → isalpha v = true →
    to_string t ≠ String v EmptyString).
  { intros t v Ht Hv Heq.
    pose proof (get_int_to_string t "]" [] 0 Ht eq_refl) as H1.
    rewrite Heq in H1. simpl in H1.
    rewrite get_int_alpha in H1 by assumption. discriminate. }
  destruct e1 as [t1|v1], e2 as [t2|v2]; simpl; intros H1 H2 Heq.
  - f_equal. now apply to_string_inj.
  - now apply Hmixed in Heq.
  - symmetry in Heq. now apply Hmixed in Heq.
  - now injection Heq as ->.
Qed.

(** X6. On square symbolic matrices whose cells are [int]s or letters
    (as the parser builds them) [operator==], which compares the
    renderings of the cells, decides equality.  Without that condition
    it does not: the integer 5 and a variable named by the character 5
    compare equal. *)
Theorem Symbolic_eq_decides (a b : SymbolicSquareMatrix) :
  square a → square b → cells_ok a → cells_ok b →
  (Symbolic_eq a b = true ↔ a = b) ∧
  Symbolic_eq sym_int_5 sym_var_5 = true ∧ sym_int_5 ≠ sym_var_5.
Proof.
  intros Ha Hb Hoka Hokb. split; [|split; [reflexivity|discriminate]].
  unfold Symbolic_eq. split.
  - intros [Hn Hcells]%matrix_eq_iff; [|assumption..].
    destruct a as [na ga], b as [nb gb]. simpl in *. subst nb. f_equal.
    apply (Forall2_Forall2_eq Element_ok
             (λ x y, String.eqb (toString x) (toString y) = true));
      auto.
    intros x y Hx Hy Heq. apply String.eqb_eq in Heq.
    now apply Element_toString_inj.
  - intros <-. apply matrix_eq_refl. intros e. apply String.eqb_refl.
Qed.

Lemma cells_ok_sym_1b3h : cells_ok sym_1b3h.
Proof. apply parseable_sym_1b3h. Qed.

Lemma Symbolic_eq_decides_witness :
  Symbolic_eq sym_1b3h sym_1b3h = true ↔ sym_1b3h = sym_1b3h.
Proof.
  apply (Symbolic_eq_decides sym_1b3h sym_1b3h square_sym_1b3h
           square_sym_1b3h cells_ok_sym_1b3h cells_ok_sym_1b3h).
Defined.

Lemma matrix_eq_sym {T} (eq : T → T → bool)
    (a b : ElementarySquareMatrix T) :
  (∀ x y, eq x y = eq y x) → square a → square b →
  matrix_eq eq a b = true → matrix_eq eq b a = true.
Proof.
  intros Hsym Ha Hb [Hn Hcells]%matrix_eq_iff; [|assumption..].
  apply matrix_eq_iff; [assumption..|]. split; [congruence|].
  apply Forall2_flip. eapply Forall2_impl; [exact Hcells|].
  intros r r' Hr. apply Forall2_flip. eapply Forall2_impl; [exact Hr|].
  intros x y Hxy. simpl. now rewrite Hsym.
Qed.

(** X7. After the copy assignment [this = m] of square matrices, [this]
    compares equal to [m].  A concrete [this] then is [m]; so is a
    symbolic one when the cells of both are [int]s or letters.  In
    general a symbolic [this] that compared equal to [m] beforehand is
    left as it was: assigning the matrix of the variable named 5 to the
    matrix of the integer 5 changes nothing. *)
Theorem copy_assign_takes_value (this m : ConcreteSquareMatrix)
    (sthis sm : SymbolicSquareMatrix) :
  square this → square m → square sthis → square sm →
  Concrete_copy_assign this m = m ∧
  Symbolic_eq (Symbolic_copy_assign sthis sm) sm = true ∧
  (cells_ok sthis → cells_ok sm → Symbolic_copy_assign sthis sm = sm) ∧
  Symbolic_copy_assign sym_int_5 sym_var_5 = sym_int_5.
Proof.
  intros Hthis Hm Hsthis Hsm.
  split; [|split; [|split; [|reflexivity]]].
  - unfold Concrete_copy_assign, copy_assign.
    destruct (matrix_eq Z.eqb m this) eqn:Heq; [|apply copy_matrix_id].
    apply matrix_eq_iff in Heq as [Hn Hcells]; [|assumption..].
    destruct this as [na ga], m as [nb gb]. simpl in *. subst nb. f_equal.
    symmetry.
    apply (Forall2_Forall2_eq (λ _, True) (λ x y, Z.eqb x y = true));
      auto using Forall_Forall_True.
    intros x y _ _. apply Z.eqb_eq.
  - unfold Symbolic_copy_assign, copy_assign, Symbolic_eq.
    destruct (matrix_eq _ sm sthis) eqn:Heq.
    + apply matrix_eq_sym; try assumption.
      intros x y. apply String.eqb_sym.
    + rewrite copy_matrix_id. apply matrix_eq_refl.
      intros e. apply String.eqb_refl.
  - intros Hoks Hokm. unfold Symbolic_copy_assign, copy_assign.
    destruct (matrix_eq _ sm sthis) eqn:Heq; [|apply copy_matrix_id].
    apply matrix_eq_iff in Heq as [Hn Hcells]; [|assumption..].
    destruct sthis as [na ga], sm as [nb gb]. simpl in *. subst nb. f_equal.
    symmetry.
    apply (Forall2_Forall2_eq Element_ok
             (λ x y, String.eqb (toString x) (toString y) = true));
      auto.
    intros x y Hx Hy Hxy. apply String.eqb_eq in Hxy.
    now apply Element_toString_inj.
Qed.

Lemma copy_assign_takes_value_witness :
  Concrete_copy_assign (transpose m_1234) m_1234 = m_1234.
Proof.
  apply (copy_assign_takes_value (transpose m_1234) m_1234
           sym_1b3h sym_1234 (transpose_square _ square_m_1234)
           square_m_1234 square_sym_1b3h).
  apply square_squareb. reflexivity.
Defined.

(** ** Products and transposes *)

Lemma cell_outside {T} (m : ElementarySquareMatrix T) (i j : nat) :
  square m → (N.to_nat (n m) ≤ i ∨ N.to_nat (n m) ≤ j)%nat →
  cell m i j = None.
Proof.
  intros Hsq Hout. unfold cell.
  destruct (elements m !! i) as [row|] eqn:Hrow; [|reflexivity]. simpl.
  pose proof (lookup_lt_Some _ _ _ Hrow) as Hi.
  rewrite (square_rows _ Hsq) in Hi.
  apply lookup_ge_None_2. rewrite (square_row _ _ _ Hsq Hrow). lia.
Qed.

Lemma square_ext_inside {T} (m1 m2 : ElementarySquareMatrix T) :
  square m1 → square m2 → n m1 = n m2 →
  (∀ i j, (i < N.to_nat (n m1))%nat → (j < N.to_nat (n m1))%nat →
     cell m1 i j = cell m2 i j) →
  m1 = m2.
Proof.
  intros H1 H2 Hn Hcell. apply square_ext; try assumption. intros i j.
  destruct (decide (i < N.to_nat (n m1))%nat) as [Hi|Hi];
    [destruct (decide (j < N.to_nat (n m1))%nat) as [Hj|Hj]|];
    [now apply Hcell|..];
    rewrite !cell_outside by (assumption || rewrite <- ?Hn; lia);
    reflexivity.
Qed.

Lemma column_of_transpose {T} (m : ElementarySquareMatrix T) (j : nat)
    (row : list T) :
  square m → elements m !! j = Some row →
  column j (elements (transpose m)) = row.
Proof.
  intros Hsq Hrow.
  pose proof (lookup_lt_Some _ _ _ Hrow) as Hj.
  rewrite (square_rows _ Hsq) in Hj.
  pose proof (transpose_rows (transpose m) j (transpose_square _ Hsq) Hj)
    as Htt.
  rewrite transpose_involutive in Htt by assumption. congruence.
Qed.

Lemma row_times_column_transposes (A B : ConcreteSquareMatrix) (i j : nat) :
  square A → square B → n A = n B →
  (i < N.to_nat (n A))%nat → (j < N.to_nat (n A))%nat →
  row_times_column (transpose B) (transpose A) i j
  = row_times_column A B j i.
Proof.
  intros HA HB Hn Hi Hj. unfold row_times_column.
  destruct (lookup_lt_is_Some_2 (elements A) j) as [row Hrow];
    [rewrite (square_rows _ HA); lia|].
  rewrite transpose_rows by (assumption || lia).
  rewrite Hrow, (column_of_transpose A j row HA Hrow). simpl.
  do 3 f_equal. apply zip_with_comm. intros; lia.
Qed.

Lemma transpose_product (A B : ConcreteSquareMatrix) :
  square A → square B → n A = n B →
  ∃ P Q, Concrete_mul A B = Ok P ∧
         Concrete_mul (transpose B) (transpose A) = Ok Q ∧
         square P ∧ n P = n A ∧ transpose P = Q.
Proof.
  intros HA HB Hn.
  pose proof (transpose_square _ HA) as HtA.
  pose proof (transpose_square _ HB) as HtB.
  eexists. eexists. split; [now apply Concrete_mul_Ok|].
  split; [apply Concrete_mul_Ok; rewrite !transpose_n; congruence|].
  split; [now apply product_square|]. split; [reflexivity|].
  apply square_ext_inside.
  - now apply transpose_square, product_square.
  - apply product_square; rewrite ?transpose_n; congruence || assumption.
  - rewrite !transpose_n. simpl. congruence.
  - rewrite transpose_n. cbn [n]. intros i j Hi Hj.
    rewrite transpose_cell by now apply product_square.
    rewrite product_cell by assumption.
    rewrite (product_cell (transpose B) (transpose A));
      rewrite ?transpose_n; try congruence; try lia; try assumption.
    symmetry. now apply row_times_column_transposes.
Qed.

(** X8. For square concrete matrices of one size the transpose of the
    product [A * B] is the product [transpose(B) * transpose(A)]. *)
Theorem transpose_of_product (A B : ConcreteSquareMatrix) :
  square A → square B → n A = n B →
  ∃ P, Concrete_mul A B = Ok P ∧
       Concrete_mul (transpose B) (transpose A) = Ok (transpose P).
Proof.
  intros HA HB Hn.
  destruct (transpose_product A B HA HB Hn) as (P & Q & HP & HQ & _ & _ & <-).
  exists P. split; assumption.
Qed.

Lemma transpose_of_product_witness :
  ∃ P, Concrete_mul m_1234 m_1234 = Ok P ∧
       Concrete_mul (transpose m_1234) (transpose m_1234)
       = Ok (transpose P).
Proof.
  apply (transpose_of_product m_1234 m_1234 square_m_1234 square_m_1234
           eq_refl).
Defined.

(** X9. For square concrete matrices of one size the transpose of the
    quotient [M / N] is the quotient [N / M]; so [M / M] is a symmetric
    matrix. *)
Theorem transpose_of_quotient (M N : ConcreteSquareMatrix) :
  square M → square N → n M = n N →
  (∃ P, Concrete_div M N = Ok P ∧ Concrete_div N M = Ok (transpose P)) ∧
  (∃ S, Concrete_div M M = Ok S ∧ transpose S = S).
Proof.
  intros HM HN Hn.
  assert (Hdiv : ∀ X Y, square X → square Y → n X = n Y →
    ∃ P, Concrete_div X Y = Ok P ∧ Concrete_div Y X = Ok (transpose P)).
  { intros X Y HX HY HXY.
    destruct (transpose_product X (transpose Y) HX (transpose_square _ HY))
      as (P & Q & HP & HQ & _ & _ & <-); [rewrite transpose_n; exact HXY|].
    rewrite transpose_involutive in HQ by assumption.
    exists P. split; [exact HP|exact HQ]. }
  split; [now apply Hdiv|].
  destruct (Hdiv M M HM HM eq_refl) as (S & HS & HS').
  exists S. split; [exact HS|]. congruence.
Qed.

Lemma transpose_of_quotient_witness :
  ∃ S, Concrete_div m_123456789 m_123456789 = Ok S ∧ transpose S = S.
Proof.
  apply (transpose_of_quotient m_123456789 m_123456789
           square_m_123456789 square_m_123456789 eq_refl).
Defined.

(** ** The two parsers on one text *)

Lemma Concrete_row_Symbolic_row (fuel : nat) (ss ss' : sstream)
    (c c' : ascii) (a a' : Z) (row row' : list IntElement) :
  Concrete_row fuel ss c a row = Some (Ok (ss', c', a', row')) →
  Symbolic_row fuel ss c a (map Int row)
  = Some (Ok (ss', c', a', map Int row')).
Proof.
  revert ss c a row. induction fuel as [|fuel IH]; intros ss c a row;
    [discriminate|].
  rewrite Concrete_row_S, Symbolic_row_S.
  destruct (get_int ss a) as [ss1 a1].
  destruct (get_char ss1 c) as [ss2 c2] eqn:Hchar.
  destruct (good ss2) eqn:Hgood2; [|discriminate]. cbn [negb].
  rewrite (get_char_good _ _ _ _ Hchar Hgood2). cbn [negb]. cbv zeta.
  rewrite Hchar.
  replace (map Int row ++ [Int a1]) with (map Int (row ++ [a1]))
    by apply map_app.
  destruct (Ascii.eqb c2 ","); [apply IH|].
  now intros [= <- <- <- <-].
Qed.

Section parse_simulation.
Context {T U : Type}.
Variable f : T → U.
Variable rowT :
  nat → sstream → ascii → Z → list T →
  option (result (sstream * ascii * Z * list T)).
Variable rowU :
  nat → sstream → ascii → Z → list U →
  option (result (sstream * ascii * Z * list U)).
Variables whatT whatU : string.

Hypothesis row_simulation : ∀ fuel ss c a ss' c' a' row',
  rowT fuel ss c a [] = Some (Ok (ss', c', a', row')) →
  rowU fuel ss c a [] = Some (Ok (ss', c', a', map f row')).

Lemma parse_rows_simulation (fuel : nat) (l l' : locals T) :
  parse_rows rowT whatT fuel l = Some (Ok l') →
  parse_rows rowU whatU fuel (map_locals f l) = Some (Ok (map_locals f l')).
Proof.
  revert l. induction fuel as [|fuel IH]; intros l; [discriminate|].
  simpl. destruct (negb (Ascii.eqb (l_c l) "]") && good (l_ss l));
    [|now intros [= <-]].
  destruct (negb (Ascii.eqb (l_c l) "[") || negb (good (l_ss l)));
    [discriminate|].
  destruct (rowT (S fuel) (l_ss l) (l_c l) (l_a l) [])
    as [[[[[ss c] a] row]|e|]|] eqn:Hrow; try discriminate.
  rewrite (row_simulation _ _ _ _ _ _ _ _ Hrow).
  destruct (negb (Ascii.eqb c "]")); [discriminate|].
  rewrite !length_map.
  destruct ((length (l_elements l) =? 0)%nat
            || (N.of_nat (length row) =? l_n l)%N); [|discriminate].
  destruct (get_char ss c) as [ss' c']. intros H. apply IH in H.
  unfold map_locals in *. simpl in *. rewrite map_app in H. exact H.
Qed.

Lemma parse_head_simulation (fuel : nat) (str_m : string) (l : locals T) :
  parse_head rowT whatT fuel str_m = Some (Ok l) →
  parse_head rowU whatU fuel str_m = Some (Ok (map_locals f l)).
Proof.
  unfold parse_head.
  destruct (get_char _ "000") as [ss c].
  destruct (negb (Ascii.eqb c "[") || negb (good ss)); [discriminate|].
  destruct (get_char ss c) as [ss' c'].
  destruct (parse_rows rowT whatT fuel (Locals ss' c' 0 false 0%N []))
    as [[l0|e|]|] eqn:Hrows; try discriminate.
  apply parse_rows_simulation in Hrows. unfold map_locals at 1 in Hrows.
  simpl in Hrows. rewrite Hrows. simpl. rewrite !length_map.
  repeat case_match; try discriminate. now intros [= <-].
Qed.

Lemma parse_tail_simulation (l : locals T) (m : ElementarySquareMatrix T) :
  parse_tail l = Ok m →
  parse_tail (map_locals f l)
  = Ok (Matrix (n m) (map (map f) (elements m))).
Proof.
  unfold parse_tail, map_locals. simpl.
  destruct (get_char (l_ss l) (l_c l)) as [ss c].
  destruct (good ss); [discriminate|]. now intros [= <-].
Qed.
End parse_simulation.

Lemma as_symbolic_evaluate (m : ConcreteSquareMatrix) (val : Valuation) :
  square m → Symbolic_evaluate (as_symbolic m) val = Ok m.
Proof.
  intros Hsq. unfold Symbolic_evaluate, evaluate_cells.
  rewrite (proj2 (mapM_Ok _ _ (elements m))).
  - change (make_matrix (n m) (elements m) = Ok m).
    apply make_matrix_Ok. destruct m. auto.
  - simpl. apply Forall2_fmap_l, Forall_Forall2_diag, Forall_forall.
    intros row _. apply mapM_Ok.
    apply Forall2_fmap_l, Forall_Forall2_diag, Forall_forall.
    intros e _. reflexivity.
Qed.

(** X10. A text that the integer parser accepts is accepted by the
    symbolic parser too, which returns the same matrix with its
    integers held as elements; evaluating that symbolic matrix under
    any binding gives the matrix of the integer parser. *)
Theorem Concrete_parse_Symbolic_parse (str_m : string)
    (m : ConcreteSquareMatrix) (val : Valuation) :
  Concrete_parse str_m = Some (Ok m) →
  Symbolic_parse str_m = Some (Ok (as_symbolic m)) ∧
  Symbolic_evaluate (as_symbolic m) val = Ok m.
Proof.
  intros H. split.
  - revert H. unfold Concrete_parse, Concrete_parse_fuel, Symbolic_parse,
      Symbolic_parse_fuel.
    destruct (parse_head Concrete_row _ _ _) as [[l|e|]|] eqn:Hhead;
      try discriminate.
    apply (parse_head_simulation Int Concrete_row Symbolic_row
             "Invalid string (row size)." "Invalid string.") in Hhead.
    + rewrite Hhead.
      destruct (negb (Ascii.eqb (back str_m) "]")); [discriminate|].
      intros [= Htail]. f_equal. now apply parse_tail_simulation.
    + intros fuel ss c a ss' c' a' row'.
      apply (Concrete_row_Symbolic_row fuel ss ss' c c' a a' [] row').
  - apply as_symbolic_evaluate. now apply Concrete_parse_square in H.
Qed.

Lemma Concrete_parse_Symbolic_parse_witness :
  Symbolic_parse text_spaced = Some (Ok (as_symbolic m_1234)) ∧
  Symbolic_evaluate (as_symbolic m_1234) ∅ = Ok m_1234.
Proof.
  apply (Concrete_parse_Symbolic_parse text_spaced m_1234 ∅). reflexivity.
Defined.

(** ** What the parsers build, and what [toString] tells apart *)

Lemma Concrete_parse_back (str_m : string) (m : ConcreteSquareMatrix) :
  Concrete_parse str_m = Some (Ok m) → back str_m = "]"%char.
Proof.
  unfold Concrete_parse, Concrete_parse_fuel.
  destruct (parse_head _ _ _ _) as [[l|e|]|]; try discriminate.
  destruct (Ascii.eqb (back str_m) "]") eqn:Hback; [|discriminate].
  intros _. now apply Ascii.eqb_eq.
Qed.

(** X11. A matrix returned by a parser is square and has at least one
    row; its integers lie in the range of [int] and its variables are
    letters.  A text accepted by the integer parser ends with the
    closing bracket.  So neither parser returns the empty matrix, whose
    rendering both reject. *)
Theorem parse_builds (str_c str_s : string) (c : ConcreteSquareMatrix)
    (s : SymbolicSquareMatrix) :
  Concrete_parse str_c = Some (Ok c) →
  Symbolic_parse str_s = Some (Ok s) →
  (square c ∧ (1 ≤ n c)%N ∧ Forall (Forall in_int) (elements c)) ∧
  back str_c = "]"%char ∧
  (square s ∧ (1 ≤ n s)%N ∧ cells_ok s) ∧
  c ≠ empty_matrix ∧ s ≠ empty_matrix ∧
  is_invalid_argument <$> Concrete_parse (matrix_toString (@empty_matrix Z))
  = Some true ∧
  is_invalid_argument
    <$> Symbolic_parse (matrix_toString (@empty_matrix Element))
  = Some true.
Proof.
  intros Hc Hs.
  pose proof (Concrete_parse_parseable _ _ Hc) as Hpc.
  pose proof (Symbolic_parse_parseable _ _ Hs) as Hps.
  split; [exact Hpc|]. split; [now apply Concrete_parse_back in Hc|].
  split; [exact Hps|].
  destruct Hpc as (_ & Hnc & _), Hps as (_ & Hns & _).
  repeat split; try reflexivity; intros ->; simpl in *; lia.
Qed.

Lemma parse_builds_witness :
  square m_1234 ∧ (1 ≤ n m_1234)%N ∧ Forall (Forall in_int) (elements m_1234).
Proof.
  apply (parse_builds text_spaced text_spaced m_1234 sym_1234);
    reflexivity.
Defined.

(** X12. [toString] tells matrices apart: two matrices that a parser
    can build and that have the same rendering are the same matrix. *)
Theorem toString_injective (c1 c2 : ConcreteSquareMatrix)
    (s1 s2 : SymbolicSquareMatrix) :
  parseable in_int c1 → parseable in_int c2 →
  parseable Element_ok s1 → parseable Element_ok s2 →
  (matrix_toString c1 = matrix_toString c2 → c1 = c2) ∧
  (matrix_toString s1 = matrix_toString s2 → s1 = s2).
Proof.
  intros Hc1 Hc2 Hs1 Hs2. split; intros Heq.
  - pose proof (Concrete_parse_toString c1 Hc1) as H1.
    pose proof (Concrete_parse_toString c2 Hc2) as H2.
    rewrite Heq in H1. congruence.
  - pose proof (Symbolic_parse_toString s1 Hs1) as H1.
    pose proof (Symbolic_parse_toString s2 Hs2) as H2.
    rewrite Heq in H1. congruence.
Qed.

Lemma toString_injective_witness :
  transpose (transpose m_1234) = m_1234 ∧
  transpose (transpose sym_1b3h) = sym_1b3h.
Proof.
  destruct (toString_injective (transpose (transpose m_1234)) m_1234
              (transpose (transpose sym_1b3h)) sym_1b3h
              parseable_m_1234 parseable_m_1234
              parseable_sym_1b3h parseable_sym_1b3h) as [Hc Hs].
  split; [apply Hc|apply Hs]; reflexivity.
Defined.

(** ** Evaluation, bindings and transposition *)

Lemma Element_evaluate_weaken (e : Element) (val val' : Valuation) (v : Z) :
  val ⊆ val' → evaluate e val = Ok v → evaluate e val' = Ok v.
Proof.
  intros Hsub. destruct e as [t|t]; simpl; [auto|].
  unfold VariableElement_evaluate.
  destruct (val !! t) as [x|] eqn:Ht; [|discriminate].
  intros [= <-]. now rewrite (lookup_weaken _ _ _ _ Ht Hsub).
Qed.

(** X13. Adding entries to a binding does not change a result: when a
    symbolic matrix evaluates to a matrix under a binding, it evaluates
    to the same matrix under every binding that extends it. *)
Theorem evaluate_extended_binding (m : SymbolicSquareMatrix)
    (val val' : Valuation) (res : ConcreteSquareMatrix) :
  val ⊆ val' → Symbolic_evaluate m val = Ok res →
  Symbolic_evaluate m val' = Ok res.
Proof.
  intros Hsub. unfold Symbolic_evaluate.
  destruct (evaluate_cells m val) as [temp| |] eqn:Hcells; try discriminate.
  intros Hmake. change (make_matrix (n m) temp = Ok res) in Hmake.
  apply evaluate_cells_shape in Hcells.
  assert (Hcells' : evaluate_cells m val' = Ok temp).
  { apply mapM_Ok. eapply Forall2_impl; [exact Hcells|].
    intros row row' Hrow. apply mapM_Ok.
    eapply Forall2_impl; [exact Hrow|].
    intros e v. now apply Element_evaluate_weaken. }
  rewrite Hcells'. exact Hmake.
Qed.

Lemma evaluate_extended_binding_witness :
  Symbolic_evaluate sym_1b3h {[ "b"%char := 2; "h"%char := 4; "x"%char := 7 ]}
  = Ok (Matrix 2 [[1; 2]; [3; 4]]).
Proof.
  apply (evaluate_extended_binding sym_1b3h
           {[ "b"%char := 2; "h"%char := 4 ]}).
  - apply insert_mono. apply (insert_mono ∅). apply map_empty_subseteq.
  - reflexivity.
Defined.

Lemma cell_inside {T} (m : ElementarySquareMatrix T) (i j : nat) :
  square m → (i < N.to_nat (n m))%nat → (j < N.to_nat (n m))%nat →
  ∃ e, cell m i j = Some e.
Proof.
  intros Hsq Hi Hj. unfold cell.
  destruct (lookup_lt_is_Some_2 (elements m) i) as [row Hrow];
    [rewrite (square_rows _ Hsq); lia|].
  rewrite Hrow. simpl. apply lookup_lt_is_Some_2.
  rewrite (square_row _ _ _ Hsq Hrow). lia.
Qed.

Lemma Symbolic_evaluate_cases (m : SymbolicSquareMatrix) (val : Valuation) :
  square m →
  (undefined_in m val ∧
   Symbolic_evaluate m val = Throw (domain_error "Undefined variable.")) ∨
  (∃ res, Symbolic_evaluate m val = Ok res ∧ n res = n m ∧ square res ∧
     ∀ i j e, cell m i j = Some e →
       ∃ v, evaluate e val = Ok v ∧ cell res i j = Some v).
Proof.
  intros Hsq. unfold Symbolic_evaluate.
  destruct (evaluate_cells m val) as [temp|x|] eqn:Hcells.
  - right. pose proof (evaluate_cells_shape _ _ _ Hcells) as Hshape.
    assert (Hsq' : square (Matrix (n m) temp)).
    { eapply Forall2_square; [exact Hshape|]. destruct m; exact Hsq. }
    exists (Matrix (n m) temp).
    split; [apply make_matrix_Ok; auto|]. split; [reflexivity|].
    split; [exact Hsq'|].
    intros i j e Hc. unfold cell in *. cbn [elements].
    destruct (elements m !! i) as [row|] eqn:Hrow; [|discriminate].
    cbn in Hc.
    destruct (Forall2_lookup_l _ _ _ _ _ Hshape Hrow) as (row' & -> & Hrr).
    destruct (Forall2_lookup_l _ _ _ _ _ Hrr Hc) as (v & Hv & Hev).
    exists v. auto.
  - left.
    assert (Hundef : undefined_in m val).
    { apply mapM_Throw, Exists_exists in Hcells as (row & Hrow & Hx).
      apply mapM_Throw, Exists_exists in Hx as (e & He & Hx).
      apply Element_evaluate_Throw in Hx as (_ & t & -> & Ht).
      apply list_elem_of_lookup in Hrow as [i Hi].
      apply list_elem_of_lookup in He as [j Hj].
      exists i, j, t. unfold cell. rewrite Hi. auto. }
    split; [exact Hundef|].
    rewrite (evaluate_cells_Throw _ _ Hundef) in Hcells.
    injection Hcells as <-. reflexivity.
  - apply mapM_Terminate, Exists_exists in Hcells as (row & _ & Hx).
    apply mapM_Terminate, Exists_exists in Hx as (e & _ & Hx).
    destruct (Element_evaluate_cases e val) as [H|H]; rewrite Hx in H;
      discriminate.
Qed.

Lemma undefined_in_transpose (m : SymbolicSquareMatrix) (val : Valuation) :
  square m → undefined_in m val → undefined_in (transpose m) val.
Proof.
  intros Hsq (i & j & t & Hc & Ht). exists j, i, t.
  rewrite transpose_cell by assumption. auto.
Qed.

(** X14. Evaluation and transposition commute on a square symbolic
    matrix: evaluating the transpose returns the transpose of what
    evaluating the matrix returns, and throws when that throws. *)
Theorem evaluate_transpose (m : SymbolicSquareMatrix) (val : Valuation) :
  square m →
  Symbolic_evaluate (transpose m) val
  = transpose <$> Symbolic_evaluate m val.
Proof.
  intros Hsq. pose proof (transpose_square _ Hsq) as Hsqt.
  destruct (Symbolic_evaluate_cases m val Hsq)
    as [[Hundef ->]|(res & Hres & Hn & Hsqres & Hcells)].
  - apply (undefined_in_transpose _ _ Hsq) in Hundef.
    destruct (Symbolic_evaluate_cases (transpose m) val Hsqt)
      as [[_ ->]|(res' & Hres' & _)]; [reflexivity|].
    unfold Symbolic_evaluate in Hres'.
    rewrite (evaluate_cells_Throw _ _ Hundef) in Hres'. discriminate.
  - rewrite Hres.
    destruct (Symbolic_evaluate_cases (transpose m) val Hsqt)
      as [[Hundef _]|(res' & -> & Hn' & Hsqres' & Hcells')].
    + apply (undefined_in_transpose _ _ Hsqt) in Hundef.
      rewrite transpose_involutive in Hundef by assumption.
      unfold Symbolic_evaluate in Hres.
      rewrite (evaluate_cells_Throw _ _ Hundef) in Hres. discriminate.
    + change (Ok res' = Ok (transpose res)). f_equal.
      rewrite transpose_n in Hn'.
      apply square_ext_inside; try assumption.
      * now apply transpose_square.
      * rewrite transpose_n. congruence.
      * rewrite Hn'. intros i j Hi Hj.
        rewrite (transpose_cell res) by assumption.
        destruct (cell_inside m j i Hsq Hj Hi) as [e He].
        destruct (Hcells j i e He) as (v & Hv & ->).
        destruct (Hcells' i j e) as (v' & Hv' & ->);
          [rewrite transpose_cell by assumption; exact He|].
        congruence.
Qed.

Lemma evaluate_transpose_witness :
  Symbolic_evaluate (transpose sym_1b3h) {[ "b"%char := 2; "h"%char := 4 ]}
  = transpose
      <$> Symbolic_evaluate sym_1b3h {[ "b"%char := 2; "h"%char := 4 ]}.
Proof. apply (evaluate_transpose sym_1b3h _ square_sym_1b3h). Defined.

(** ** Adjacent blocks *)

(** X15. Adjacent blocks join: within the matrix, the block of [a]
    cells from [start] followed by the block of [b] cells from
    [start + a] is the block of [a + b] cells from [start]. *)
Theorem block_adjacent {T} (m : ElementarySquareMatrix T)
    (start a b : N) :
  square m → (n m * n m < UINT_RANGE)%N →
  (start + a + b ≤ n m * n m)%N →
  ∃ l1 l2, block m start a = Ok l1 ∧ block m (start + a) b = Ok l2 ∧
           block m start (a + b) = Ok (l1 ++ l2).
Proof.
  intros Hsq Hfit Hle.
  exists (sub_sequence start a (unroll m)),
         (sub_sequence (start + a) b (unroll m)).
  rewrite !block_within by (assumption || lia).
  split; [reflexivity|]. split; [reflexivity|]. f_equal.
  unfold sub_sequence.
  replace (N.to_nat (start + a)) with (N.to_nat start + N.to_nat a)%nat
    by lia.
  rewrite <- drop_drop, take_take_drop. f_equal. lia.
Qed.

Lemma block_adjacent_witness :
  ∃ l1 l2, block m_123456789 2 3 = Ok l1 ∧ block m_123456789 (2 + 3) 4 = Ok l2
           ∧ block m_123456789 2 (3 + 4) = Ok (l1 ++ l2).
Proof.
  apply (block_adjacent m_123456789 2 3 4 square_m_123456789).
  - reflexivity.
  - vm_compute. discriminate.
Defined.

(** ** Expressions *)

Lemma bind_Ok {A B} (r : result A) (k : A → result B) (b : B) :
  r ≫= k = Ok b ↔ ∃ a, r = Ok a ∧ k a = Ok b.
Proof.
  destruct r as [a|e|]; simpl; split.
  - eauto.
  - intros (a' & [= <-] & H). exact H.
  - discriminate.
  - intros (a' & [=] & _).
  - discriminate.
  - intros (a' & [=] & _).
Qed.

(** X16. The order in which the two operands of a composite matrix are
    evaluated, which the language leaves to the compiler, does not show
    in a result: an expression evaluates to a matrix under one order
    exactly when it evaluates to that matrix under the other. *)
Theorem evaluate_order (m : SquareMatrix) (val : Valuation)
    (res : ConcreteSquareMatrix) :
  SquareMatrix_evaluate true m val = Ok res
  ↔ SquareMatrix_evaluate false m val = Ok res.
Proof.
  revert res.
  induction m as [c|s|oprnd1 IH1 oprnd2 IH2 oprtor op_char]; intros res;
    [reflexivity..|].
  cbn [SquareMatrix_evaluate]. rewrite !bind_Ok. split.
  - intros (m2 & H2 & H). apply bind_Ok in H as (m1 & H1 & H).
    exists m1. split; [now apply IH1|]. apply bind_Ok.
    exists m2. split; [now apply IH2|exact H].
  - intros (m1 & H1 & H). apply bind_Ok in H as (m2 & H2 & H).
    exists m2. split; [now apply IH2|]. apply bind_Ok.
    exists m1. split; [now apply IH1|exact H].
Qed.

Lemma fold_t_write_shape (blocksz : N) (jobs : list (N * list IntElement))
    (rows : list (list IntElement)) :
  same_shape rows (fold_left (t_write blocksz) jobs rows).
Proof.
  revert rows. induction jobs as [|job jobs IH]; intros rows;
    [apply same_shape_refl|].
  simpl. eapply same_shape_trans; [|apply IH]. apply write_back_shape.
Qed.

Lemma t_oper_shape (n_threads : N) (this rhs this' : ConcreteSquareMatrix)
    (func : IntElement → IntElement → IntElement) :
  t_oper n_threads this rhs func = Ok this' →
  n this' = n this ∧ same_shape (elements this) (elements this').
Proof.
  unfold t_oper. destruct (mapM _ _) as [results| |]; try discriminate.
  intros [= <-]. split; [reflexivity|]. apply fold_t_write_shape.
Qed.

Lemma binary_Ok
    (op_assign : ConcreteSquareMatrix → ConcreteSquareMatrix →
                 result () * ConcreteSquareMatrix)
    (m1 m2 r : ConcreteSquareMatrix) :
  binary op_assign m1 m2 = Ok r → ∃ u, op_assign m1 m2 = (Ok u, r).
Proof.
  unfold binary. rewrite copy_matrix_id.
  destruct (op_assign m1 m2) as [[u|e|] r']; try discriminate.
  intros [= <-]. eauto.
Qed.

Lemma Concrete_assign_square (n_threads : N)
    (this m r : ConcreteSquareMatrix)
    (func : IntElement → IntElement → IntElement) (u : ()) :
  square this → Concrete_assign n_threads this m func = (Ok u, r) →
  square r ∧ n r = n this.
Proof.
  intros Hsq. unfold Concrete_assign.
  destruct (negb (n this =? n m)%N); [discriminate|].
  destruct (t_oper n_threads this m func) as [this'|e|] eqn:Hoper;
    try discriminate.
  intros [= _ <-]. apply t_oper_shape in Hoper as [Hn Hshape].
  split; [|exact Hn].
  destruct this as [k rows], this' as [k' rows']. simpl in *. subst k'.
  now apply (same_shape_square k rows rows').
Qed.

Lemma Concrete_mul_assign_square (this m r : ConcreteSquareMatrix) (u : ()) :
  square this → square m → Concrete_mul_assign this m = (Ok u, r) →
  square r ∧ n r = n this.
Proof.
  intros Hthis Hm. unfold Concrete_mul_assign.
  destruct (N.eqb_spec (n this) (n m)) as [Hn|Hn]; [|discriminate].
  simpl. intros [= _ <-]. split; [|reflexivity]. now apply product_square.
Qed.

Lemma operator_square (n_threads : N)
    (oprtor : ConcreteSquareMatrix → ConcreteSquareMatrix →
              result ConcreteSquareMatrix)
    (m1 m2 r : ConcreteSquareMatrix) :
  oprtor ∈ [Concrete_add n_threads; Concrete_sub n_threads;
            Concrete_mul; Concrete_div] →
  square m1 → square m2 → oprtor m1 m2 = Ok r →
  square r ∧ n r = n m1.
Proof.
  intros Hop H1 H2 Hr.
  repeat (apply elem_of_cons in Hop as [->|Hop]);
    try (apply elem_of_nil in Hop; contradiction);
    apply binary_Ok in Hr as [u Hr].
  - now apply Concrete_assign_square in Hr.
  - now apply Concrete_assign_square in Hr.
  - now apply Concrete_mul_assign_square in Hr.
  - apply Concrete_mul_assign_square in Hr; auto using transpose_square.
Qed.

(** X17. An expression built from square matrices with the operators
    sum, difference, product and quotient never evaluates to a matrix
    that is not square: whenever its evaluation returns a matrix, the
    matrix is square and [getRowSize] of the expression is its size. *)
Theorem evaluate_expression_square (n_threads : N) (right_first : bool)
    (m : SquareMatrix) (val : Valuation) (res : ConcreteSquareMatrix) :
  expression n_threads m →
  SquareMatrix_evaluate right_first m val = Ok res →
  square res ∧ n res = getRowSize m.
Proof.
  intros Hm. revert res.
  induction Hm as [c Hc|s Hs|oprnd1 oprnd2 oprtor op_char _ IH1 _ IH2 Hop];
    intros res; cbn [SquareMatrix_evaluate getRowSize].
  - unfold Concrete_evaluate. rewrite copy_matrix_id.
    now intros [= <-].
  - unfold Symbolic_evaluate.
    destruct (evaluate_cells s val) as [temp| |]; try discriminate.
    intros H. change (make_matrix (n s) temp = Ok res) in H.
    apply make_matrix_Ok in H as [-> H]. auto.
  - destruct right_first; intros H;
      apply bind_Ok in H as (x & Hx & H); apply bind_Ok in H as (y & Hy & H).
    + destruct (IH1 _ Hy) as [Hsq1 Hn1]. destruct (IH2 _ Hx) as [Hsq2 _].
      destruct (operator_square n_threads oprtor y x res Hop Hsq1 Hsq2 H).
      split; [assumption|congruence].
    + destruct (IH1 _ Hx) as [Hsq1 Hn1]. destruct (IH2 _ Hy) as [Hsq2 _].
      destruct (operator_square n_threads oprtor x y res Hop Hsq1 Hsq2 H).
      split; [assumption|congruence].
Qed.

Lemma expression_csm3 : expression 4 csm3.
Proof.
  constructor.
  - constructor. apply square_squareb. reflexivity.
  - constructor. apply square_squareb. reflexivity.
  - set_solver.
Qed.

Lemma evaluate_expression_square_witness :
  SquareMatrix_evaluate true csm3 {[ "a"%char := 1; "b"%char := 4 ]}
  = Ok (Matrix 2 [[2; 6]; [8; 10]]) ∧
  square (Matrix 2 [[2; 6]; [8; 10]] : ConcreteSquareMatrix).
Proof.
  split; [reflexivity|].
  apply (evaluate_expression_square 4 true csm3
           {[ "a"%char := 1; "b"%char := 4 ]} _ expression_csm3).
  reflexivity.
Defined.

Lemma bind_not_Ok {A B} (r : result A) (k : A → result B) :
  is_Ok r = false → is_Ok (r ≫= k) = false.
Proof. destruct r; [discriminate|reflexivity..]. Qed.

Lemma bind_not_Ok_r {A B} (r : result A) (k : A → result B) :
  (∀ a, is_Ok (k a) = false) → is_Ok (r ≫= k) = false.
Proof. intros H. destruct r; [apply H|reflexivity..]. Qed.

(** X18. No partial result: when some symbolic matrix among the leaves
    of an expression has a variable without an entry in the binding,
    the evaluation of the expression returns no matrix, whatever its
    operators and whichever operand is evaluated first. *)
Theorem evaluate_undefined_leaf (right_first : bool) (m : SquareMatrix)
    (s : SymbolicSquareMatrix) (val : Valuation) :
  leaf_of s m → undefined_in s val →
  is_Ok (SquareMatrix_evaluate right_first m val) = false.
Proof.
  intros Hleaf Hundef.
  induction m as [c|s'|oprnd1 IH1 oprnd2 IH2 oprtor op_char];
    cbn [SquareMatrix_evaluate leaf_of] in *.
  - contradiction.
  - subst s'. unfold Symbolic_evaluate.
    now rewrite (evaluate_cells_Throw _ _ Hundef).
  - destruct right_first, Hleaf as [Hleaf|Hleaf].
    + apply bind_not_Ok_r. intros m2. now apply bind_not_Ok, IH1.
    + now apply bind_not_Ok, IH2.
    + now apply bind_not_Ok, IH1.
    + apply bind_not_Ok_r. intros m1. now apply bind_not_Ok, IH2.
Qed.

Lemma evaluate_undefined_leaf_witness :
  is_Ok (SquareMatrix_evaluate false csm3 {[ "a"%char := 1 ]}) = false.
Proof.
  apply (evaluate_undefined_leaf false csm3 sym_ab45).
  - left. reflexivity.
  - exists 0%nat, 1%nat, "b"%char. split; reflexivity.
Defined.

(** ** The random constructor *)

Lemma random_matrix_rows (m : Z) (draw : nat → Z) :
  Forall (λ row, length row = Z.to_nat m) (elements (random_matrix m draw)).
Proof.
  unfold random_matrix. cbn [elements]. apply Forall_forall.
  intros row (r & -> & _)%list_elem_of_fmap.
  now rewrite length_map, length_seq.
Qed.

Lemma random_matrix_cells (m : Z) (draw : nat → Z) (P : Z → Prop) :
  (∀ k, P (draw k)) →
  Forall (Forall P) (elements (random_matrix m draw)).
Proof.
  intros HP. unfold random_matrix. cbn [elements]. apply Forall_forall.
  intros row (r & -> & _)%list_elem_of_fmap.
  apply Forall_forall. intros e (k & -> & _)%list_elem_of_fmap. apply HP.
Qed.

(** X19. For a size [m] that is not negative the random constructor
    builds a square matrix of [m] rows whose cells are the values drawn,
    row by row; with the values between -99 and 99 and [m] at least 1,
    the integer parser reads the rendering of the matrix back as that
    matrix. *)
Theorem random_matrix_square (m : Z) (draw : nat → Z) :
  in_int m → 0 <= m →
  square (random_matrix m draw) ∧ n (random_matrix m draw) = Z.to_N m ∧
  (∀ i j, (i < Z.to_nat m)%nat → (j < Z.to_nat m)%nat →
     cell (random_matrix m draw) i j = Some (draw (i * Z.to_nat m + j)%nat)) ∧
  ((∀ k, -99 <= draw k <= 99) → 1 <= m →
   Forall (Forall (λ e, -99 <= e <= 99)) (elements (random_matrix m draw)) ∧
   Concrete_parse (matrix_toString (random_matrix m draw))
   = Some (Ok (random_matrix m draw))).
Proof.
  unfold in_int, INT_MIN, INT_MAX. intros Hint Hm.
  assert (Hn : n (random_matrix m draw) = Z.to_N m).
  { unfold random_matrix. cbn [n]. rewrite Z.mod_small by lia. reflexivity. }
  assert (Hsq : square (random_matrix m draw)).
  { split.
    - rewrite Hn. unfold random_matrix. cbn [elements].
      rewrite length_map, length_seq. lia.
    - eapply Forall_impl; [apply random_matrix_rows|].
      intros row Hrow. cbv beta in Hrow |- *. rewrite Hn, Hrow. lia. }
  split; [exact Hsq|]. split; [exact Hn|]. split.
  - intros i j Hi Hj. unfold cell, random_matrix. cbn [elements].
    rewrite list_lookup_fmap, lookup_seq_lt by assumption. simpl.
    rewrite list_lookup_fmap, lookup_seq_lt by assumption. reflexivity.
  - intros Hdraw Hpos. split; [now apply random_matrix_cells|].
    apply Concrete_parse_toString. split; [exact Hsq|].
    split; [rewrite Hn; lia|].
    apply random_matrix_cells. intros k. specialize (Hdraw k).
    unfold in_int, INT_MIN, INT_MAX. lia.
Qed.

Lemma random_matrix_square_witness :
  square (random_matrix 4 (λ k, Z.of_nat (k mod 100))) ∧
  Concrete_parse
    (matrix_toString (random_matrix 4 (λ k, Z.of_nat (k mod 100))))
  = Some (Ok (random_matrix 4 (λ k, Z.of_nat (k mod 100)))).
Proof.
  destruct (random_matrix_square 4 (λ k, Z.of_nat (k mod 100)))
    as (Hsq & _ & _ & Hparse).
  - vm_compute. split; discriminate.
  - lia.
  - split; [exact Hsq|]. apply Hparse; [|lia].
    intros k. pose proof (Nat.mod_upper_bound k 100). lia.
Defined.

(** X20. For a negative size [m] the random constructor builds a matrix
    that is not square: it has no row, while [n] is [m] converted to
    [unsigned int], that is [2^32 + m]; it is rendered as the empty
    matrix. *)
Theorem random_matrix_negative (m : Z) (draw : nat → Z) :
  in_int m → m < 0 →
  elements (random_matrix m draw) = [] ∧
  n (random_matrix m draw) = Z.to_N (2 ^ 32 + m) ∧
  ¬ square (random_matrix m draw) ∧
  matrix_toString (random_matrix m draw) = "[]".
Proof.
  unfold in_int, INT_MIN, INT_MAX. intros Hint Hm.
  assert (Helements : elements (random_matrix m draw) = []).
  { unfold random_matrix. cbn [elements].
    replace (Z.to_nat m) with 0%nat by lia. reflexivity. }
  assert (Hn : n (random_matrix m draw) = Z.to_N (2 ^ 32 + m)).
  { unfold random_matrix. cbn [n]. f_equal.
    rewrite <- (Z.mod_small (2 ^ 32 + m) (2 ^ 32)) by lia.
    rewrite <- (Z_mod_plus_full m 1 (2 ^ 32)). f_equal. lia. }
  split; [exact Helements|]. split; [exact Hn|]. split.
  - intros [Hrows _]. rewrite Helements, Hn in Hrows. simpl in Hrows. lia.
  - unfold matrix_toString. rewrite Helements. reflexivity.
Qed.

Lemma random_matrix_negative_witness :
  n (random_matrix (-1) (λ _, 0)) = 4294967295%N ∧
  elements (random_matrix (-1) (λ _, 0)) = [].
Proof.
  destruct (random_matrix_negative (-1) (λ _, 0)) as (He & Hn & _).
  - vm_compute. split; discriminate.
  - reflexivity.
  - split; [exact Hn|exact He].
Defined.
